(** * Dispatch-processing pipeline: shallow embedding and verification

    The development follows the services of the repository:

    - [Js]       the JavaScript run-time pieces the services rely on
                 (string methods, regular expressions and what they match,
                 insertion-ordered [Map], exceptions, local time);
    - [Parser]   [CPowerEmailParser]  (services/cpowerEmailParser);
    - [Ledger]   [ProcessedEmailTracker]  (services/processedTracker);
    - [Monitor]  [EmailMonitor]  (services/emailMonitor);
    - [Sched]    [Scheduler]  (services/scheduler);
    - [Capture]  [ScreenshotService]  (services/screenshotService);
    - [EmailSender]  the zone names of [EmailSender]  (services/emailSender).

    Strings are sequences of 8-bit code units, whose letters are the ASCII
    ones; a [Date] is its number of milliseconds since the epoch. *)

From Stdlib Require Import List String Ascii ZArith Lia Bool Arith PeanoNat.
From Stdlib Require Import Decimal DecimalNat DecimalString QArith.
Import ListNotations.

Set Implicit Arguments.
Open Scope string_scope.
Open Scope list_scope.

(* ================================================================== *)
(** * JavaScript run-time model *)
(* ================================================================== *)

Module Js.

(** ** Exceptions: a computation returns a value or throws. *)

Inductive Result (E A : Type) : Type :=
| Ok (a : A)
| Throw (e : E).

Arguments Ok {E A} a.
Arguments Throw {E A} e.

Definition bind {E A B} (m : Result E A) (f : A -> Result E B) : Result E B :=
  match m with
  | Ok a => f a
  | Throw e => Throw e
  end.

(** [try { m } catch (e) { h e }] *)
Definition try_catch {E A} (m : Result E A) (h : E -> Result E A) : Result E A :=
  match m with
  | Ok a => Ok a
  | Throw e => h e
  end.

(** ** Characters and string methods *)

Definition code (c : ascii) : nat := nat_of_ascii c.

Definition between (lo hi : nat) (c : ascii) : bool :=
  (lo <=? code c)%nat && (code c <=? hi)%nat.

Definition is_digit : ascii -> bool := between 48 57.
Definition is_upper : ascii -> bool := between 65 90.
Definition is_lower : ascii -> bool := between 97 122.

(** ECMAScript white space and line terminators (the 8-bit ones). *)
Definition is_space (c : ascii) : bool :=
  between 9 13 c || (code c =? 32)%nat || (code c =? 160)%nat.

Definition is_line_terminator (c : ascii) : bool :=
  (code c =? 10)%nat || (code c =? 13)%nat.

Definition lower_char (c : ascii) : ascii :=
  if is_upper c then ascii_of_nat (code c + 32) else c.

Definition eq_char (a b : ascii) : bool := Ascii.eqb a b.

(** canonical form of a character under the [i] flag *)
Definition eq_char_i (a b : ascii) : bool :=
  Ascii.eqb (lower_char a) (lower_char b).

Fixpoint toLowerCase (s : string) : string :=
  match s with
  | EmptyString => EmptyString
  | String c s' => String (lower_char c) (toLowerCase s')
  end.

Fixpoint startsWith (s p : string) : bool :=
  match p, s with
  | EmptyString, _ => true
  | String a p', String b s' => eq_char a b && startsWith s' p'
  | String _ _, EmptyString => false
  end.

(** [s.includes(sub)] *)
Fixpoint includes (s sub : string) : bool :=
  startsWith s sub ||
  match s with
  | EmptyString => false
  | String _ s' => includes s' sub
  end.

Fixpoint drop (n : nat) (s : string) : string :=
  match n, s with
  | O, _ => s
  | S n', String _ s' => drop n' s'
  | S _, EmptyString => EmptyString
  end.

Fixpoint take (n : nat) (s : string) : string :=
  match n, s with
  | O, _ => EmptyString
  | S n', String c s' => String c (take n' s')
  | S _, EmptyString => EmptyString
  end.

Fixpoint trimStart (s : string) : string :=
  match s with
  | String c s' => if is_space c then trimStart s' else s
  | EmptyString => EmptyString
  end.

Fixpoint trimEnd (s : string) : string :=
  match s with
  | EmptyString => EmptyString
  | String c s' =>
      match trimEnd s' with
      | EmptyString => if is_space c then EmptyString else String c EmptyString
      | t => String c t
      end
  end.

Definition trim (s : string) : string := trimEnd (trimStart s).

(** [s.split(sep)] for a one-character separator *)
Fixpoint split_acc (sep : ascii) (s : string) (cur : string) : list string :=
  match s with
  | EmptyString => [cur]
  | String c s' =>
      if eq_char c sep then cur :: split_acc sep s' EmptyString
      else split_acc sep s' (cur ++ String c EmptyString)
  end.

Definition split (s : string) (sep : ascii) : list string :=
  split_acc sep s EmptyString.

(** [`${n}`] for a non-negative integer *)
Definition string_of_nat (n : nat) : string :=
  NilZero.string_of_uint (Nat.to_uint n).

(** [name.replace(/[^a-z0-9]/gi, rep)] *)
Definition alnum (c : ascii) : bool := is_digit c || is_upper c || is_lower c.

Fixpoint sanitize (rep : ascii) (s : string) : string :=
  match s with
  | EmptyString => EmptyString
  | String c s' => String (if alnum c then c else rep) (sanitize rep s')
  end.

(** [x || d] on an optional string: [undefined], [false] and [''] are falsy. *)
Definition or_else (x : option string) (d : string) : string :=
  match x with
  | Some (String c s) => String c s
  | _ => d
  end.

(** ** Regular expressions

    A backtracking matcher in continuation-passing style, which is how the
    ECMAScript specification defines matching: greedy quantifiers try one
    more iteration before the continuation, lazy ones the continuation first,
    an iteration of a star that consumes nothing is rejected, and the first
    complete match found at the leftmost start position wins. *)

Inductive regex : Type :=
| Eps                                (* empty pattern *)
| Chr (p : ascii -> bool)            (* one character of a class *)
| Cat (r1 r2 : regex)                (* r1 r2 *)
| Opt (r : regex)                    (* r?   *)
| Star (r : regex)                   (* r*   *)
| LazyStar (r : regex)               (* r*?  *)
| Group (i : nat) (r : regex).       (* i-th capturing group *)

Definition captures := list (nat * string).

(** text consumed between the input [s] and what is left of it, [rest] *)
Definition consumed (s rest : string) : string :=
  take (String.length s - String.length rest) s.

(** The iterations of a star over a one-iteration matcher [step]: the fuel
    is the length of the text, which bounds the number of iterations since
    each of them consumes a character. *)
Fixpoint star_loop {A}
         (step : string -> captures -> (string -> captures -> option A) -> option A)
         (k : string -> captures -> option A)
         (fuel : nat) (s : string) (cs : captures) {struct fuel} : option A :=
  match fuel with
  | O => k s cs
  | S fuel' =>
      match step s cs
              (fun s1 c1 =>
                 if (String.length s1 <? String.length s)%nat
                 then star_loop step k fuel' s1 c1 else None) with
      | Some x => Some x
      | None => k s cs
      end
  end.

Fixpoint lazy_loop {A}
         (step : string -> captures -> (string -> captures -> option A) -> option A)
         (k : string -> captures -> option A)
         (fuel : nat) (s : string) (cs : captures) {struct fuel} : option A :=
  match fuel with
  | O => k s cs
  | S fuel' =>
      match k s cs with
      | Some x => Some x
      | None =>
          step s cs
            (fun s1 c1 =>
               if (String.length s1 <? String.length s)%nat
               then lazy_loop step k fuel' s1 c1 else None)
      end
  end.

Fixpoint rmatch {A} (r : regex) (s : string) (cs : captures)
         (k : string -> captures -> option A) {struct r} : option A :=
  match r with
  | Eps => k s cs
  | Chr p =>
      match s with
      | String c s' => if p c then k s' cs else None
      | EmptyString => None
      end
  | Cat r1 r2 => rmatch r1 s cs (fun s1 c1 => rmatch r2 s1 c1 k)
  | Opt r1 =>
      match rmatch r1 s cs k with
      | Some x => Some x
      | None => k s cs
      end
  | Star r1 => star_loop (rmatch r1) k (String.length s) s cs
  | LazyStar r1 => lazy_loop (rmatch r1) k (String.length s) s cs
  | Group i r1 => rmatch r1 s cs (fun s1 c1 => k s1 ((i, consumed s s1) :: c1))
  end.

(** The result of [str.match(re)] / [re.exec(str)]: the matched text, the
    captures, and the text after the match. *)
Record match_result : Type := MatchResult {
  m_text : string;
  m_groups : captures;
  m_rest : string
}.

Definition match_here (r : regex) (s : string) : option match_result :=
  rmatch r s [] (fun rest cs => Some (MatchResult (consumed s rest) cs rest)).

(** leftmost match: [str.match(re)] without the [g] flag *)
Fixpoint exec (r : regex) (s : string) : option match_result :=
  match match_here r s with
  | Some m => Some m
  | None =>
      match s with
      | EmptyString => None
      | String _ s' => exec r s'
      end
  end.

Definition test (r : regex) (s : string) : bool :=
  match exec r s with Some _ => true | None => false end.

(** the [i]-th capture of a match ([m[i]]); [undefined] is [None] *)
Fixpoint group (i : nat) (cs : captures) : option string :=
  match cs with
  | [] => None
  | (j, t) :: cs' => if Nat.eqb i j then Some t else group i cs'
  end.

(** [str.match(re)] with the [g] flag: the texts of all matches, each search
    resuming after the previous match (one character further after an empty
    match).  [[]] stands for [null]. *)
Fixpoint matchAll_fuel (fuel : nat) (r : regex) (s : string) : list string :=
  match fuel with
  | O => []
  | S fuel' =>
      match exec r s with
      | None => []
      | Some m =>
          m_text m ::
          matchAll_fuel fuel' r
            (if (String.length (m_text m) =? 0)%nat then drop 1 (m_rest m) else m_rest m)
      end
  end.

Definition matchAll (r : regex) (s : string) : list string :=
  matchAll_fuel (S (String.length s)) r s.

(** [str.replace(re, rep)] with the [g] flag and a replacement text without
    [$] patterns: left to right, matches do not overlap; after an empty match
    the scan moves one character on. *)
Fixpoint replace_fuel (fuel : nat) (r : regex) (rep s : string) : string :=
  match fuel with
  | O => s
  | S fuel' =>
      match match_here r s with
      | Some m =>
          if (String.length (m_text m) =? 0)%nat
          then match s with
               | EmptyString => rep
               | String c s' => rep ++ String c (replace_fuel fuel' r rep s')
               end
          else rep ++ replace_fuel fuel' r rep (m_rest m)
      | None =>
          match s with
          | EmptyString => EmptyString
          | String c s' => String c (replace_fuel fuel' r rep s')
          end
      end
  end.

Definition replace (s : string) (r : regex) (rep : string) : string :=
  replace_fuel (S (String.length s)) r rep s.

(** *** Pattern combinators *)

Declare Scope regex_scope.
Delimit Scope regex_scope with re.
Notation "a +++ b" := (Cat a b) (at level 60, right associativity) : regex_scope.

Fixpoint lit (s : string) : regex :=
  match s with
  | EmptyString => Eps
  | String c s' => Cat (Chr (eq_char c)) (lit s')
  end.

(** a literal under the [i] flag *)
Fixpoint lit_i (s : string) : regex :=
  match s with
  | EmptyString => Eps
  | String c s' => Cat (Chr (eq_char_i c)) (lit_i s')
  end.

Definition digit : regex := Chr is_digit.                 (* \d *)
Definition space : regex := Chr is_space.                 (* \s *)
Definition any : regex := Chr (fun _ => true).            (* [\s\S] *)
Definition dot : regex := Chr (fun c => negb (is_line_terminator c)).  (* . *)
Definition noneOf (x : ascii) : regex := Chr (fun c => negb (eq_char c x)).
Definition plus (r : regex) : regex := Cat r (Star r).    (* r+ *)

Fixpoint times (n : nat) (r : regex) : regex :=           (* r{n} *)
  match n with
  | O => Eps
  | S n' => Cat r (times n' r)
  end.

Fixpoint upto (n : nat) (r : regex) : regex :=            (* r{0,n} *)
  match n with
  | O => Eps
  | S n' => Opt (Cat r (upto n' r))
  end.

Definition range (m n : nat) (r : regex) : regex :=       (* r{m,n} *)
  Cat (times m r) (upto (n - m) r).

(** *** Facts about number printing *)

Fixpoint all_chars (p : ascii -> bool) (s : string) : bool :=
  match s with
  | EmptyString => true
  | String c s' => p c && all_chars p s'
  end.

Lemma to_uint_nonnil (n : nat) : Nat.to_uint n <> Nil.
Proof.
  rewrite <- (DecimalNat.Unsigned.of_to n) at 1.
  rewrite DecimalNat.Unsigned.to_of.
  apply DecimalFacts.unorm_nonnil.
Qed.

Lemma string_of_nat_eq (n : nat) :
  string_of_nat n = NilEmpty.string_of_uint (Nat.to_uint n).
Proof.
  unfold string_of_nat, NilZero.string_of_uint.
  pose proof (to_uint_nonnil n) as H.
  destruct (Nat.to_uint n); [contradiction | reflexivity ..].
Qed.

Lemma string_of_nat_inj (n m : nat) :
  string_of_nat n = string_of_nat m -> n = m.
Proof.
  rewrite !string_of_nat_eq. intros H.
  apply DecimalNat.Unsigned.to_uint_inj.
  pose proof (NilEmpty.usu (Nat.to_uint n)) as Hn.
  pose proof (NilEmpty.usu (Nat.to_uint m)) as Hm.
  rewrite H in Hn. congruence.
Qed.

Lemma string_of_uint_digits (d : uint) :
  all_chars is_digit (NilEmpty.string_of_uint d) = true.
Proof. induction d; cbn; auto. Qed.

Lemma string_of_nat_digits (n : nat) :
  all_chars is_digit (string_of_nat n) = true.
Proof. rewrite string_of_nat_eq. apply string_of_uint_digits. Qed.

Lemma append_inv_head (p a b : string) :
  (p ++ a = p ++ b)%string -> a = b.
Proof. induction p as [|c p IH]; cbn; [auto|]. intros [= H]. auto. Qed.

(** two runs of digits, each followed by a dash, that start equal texts *)
Lemma digits_dash_inj (a b x y : string) :
  all_chars is_digit a = true -> all_chars is_digit b = true ->
  (a ++ String "-" x = b ++ String "-" y)%string -> a = b.
Proof.
  revert b. induction a as [|c a IH]; intros b Ha Hb H.
  - destruct b as [|c' b]; [reflexivity|].
    cbn in H. injection H as <- _. cbn in Hb. discriminate.
  - destruct b as [|c' b].
    + cbn in H. injection H as -> _. cbn in Ha. discriminate.
    + cbn in H. injection H as -> H.
      cbn in Ha, Hb. apply andb_true_iff in Ha, Hb.
      f_equal. apply IH; tauto.
Qed.

(** ** What a pattern matches

    The declarative reading of a pattern: the texts it matches and the
    captures a match adds, whatever the order in which the matcher tries the
    alternatives.  An iteration of a star matches a non-empty text. *)

Inductive Matches : regex -> string -> captures -> captures -> Prop :=
| MEps cs : Matches Eps "" cs cs
| MChr p c cs : p c = true -> Matches (Chr p) (String c "") cs cs
| MCat r1 r2 s1 s2 cs c1 c2 :
    Matches r1 s1 cs c1 -> Matches r2 s2 c1 c2 ->
    Matches (Cat r1 r2) (s1 ++ s2) cs c2
| MOptNone r cs : Matches (Opt r) "" cs cs
| MOptSome r s cs c1 : Matches r s cs c1 -> Matches (Opt r) s cs c1
| MStarNil r cs : Matches (Star r) "" cs cs
| MStarCons r s1 s2 cs c1 c2 :
    s1 <> "" -> Matches r s1 cs c1 -> Matches (Star r) s2 c1 c2 ->
    Matches (Star r) (s1 ++ s2) cs c2
| MLazyNil r cs : Matches (LazyStar r) "" cs cs
| MLazyCons r s1 s2 cs c1 c2 :
    s1 <> "" -> Matches r s1 cs c1 -> Matches (LazyStar r) s2 c1 c2 ->
    Matches (LazyStar r) (s1 ++ s2) cs c2
| MGroup i r s cs c1 : Matches r s cs c1 -> Matches (Group i r) s cs ((i, s) :: c1).

Lemma append_assoc (a b c : string) : ((a ++ b) ++ c = a ++ (b ++ c))%string.
Proof. induction a as [|x a IH]; cbn; [reflexivity | now rewrite IH]. Qed.

Lemma append_nil_r (a : string) : (a ++ "" = a)%string.
Proof. induction a as [|x a IH]; cbn; [reflexivity | now rewrite IH]. Qed.

Lemma length_append (a b : string) :
  String.length (a ++ b) = (String.length a + String.length b)%nat.
Proof. induction a as [|x a IH]; cbn; [reflexivity | now rewrite IH]. Qed.

Lemma length_zero (a : string) : String.length a = 0%nat -> a = "".
Proof. destruct a; [reflexivity | discriminate]. Qed.

Lemma take_append (a b : string) : take (String.length a) (a ++ b) = a.
Proof. induction a as [|x a IH]; cbn; [destruct b; reflexivity | now rewrite IH]. Qed.

Lemma consumed_append (mid rest : string) : consumed (mid ++ rest) rest = mid.
Proof.
  unfold consumed. rewrite length_append.
  replace (String.length mid + String.length rest - String.length rest)%nat
    with (String.length mid) by lia.
  apply take_append.
Qed.

Section Matcher.

Variable A : Type.

Definition sound (r : regex) : Prop :=
  forall (s : string) (cs : captures) (k : string -> captures -> option A) (x : A),
    rmatch r s cs k = Some x ->
    exists mid rest cs',
      s = (mid ++ rest)%string /\ Matches r mid cs cs' /\ k rest cs' = Some x.

Lemma star_loop_sound (r : regex) (IH : sound r)
      (k : string -> captures -> option A) (x : A) (fuel : nat) :
  forall (s : string) (cs : captures),
    star_loop (rmatch r) k fuel s cs = Some x ->
    exists mid rest cs',
      s = (mid ++ rest)%string /\ Matches (Star r) mid cs cs' /\ k rest cs' = Some x.
Proof.
  induction fuel as [|fuel IHf]; intros s cs H; cbn [star_loop] in H.
  - exists "", s, cs. repeat split; [constructor | exact H].
  - destruct (rmatch r s cs _) as [y|] eqn:E.
    + assert (y = x) by congruence. subst y. apply IH in E.
      destruct E as (mid1 & rest1 & c1 & -> & Hm & Hk).
      destruct (String.length rest1 <? String.length (mid1 ++ rest1))%nat eqn:Hl;
        [|discriminate].
      apply Nat.ltb_lt in Hl. rewrite length_append in Hl.
      apply IHf in Hk. destruct Hk as (mid2 & rest2 & c2 & -> & Hm2 & Hk).
      exists (mid1 ++ mid2)%string, rest2, c2. split; [now rewrite append_assoc|].
      split; [|exact Hk].
      apply MStarCons with (c1 := c1); auto.
      intros ->. cbn in Hl. lia.
    + exists "", s, cs. repeat split; [constructor | exact H].
Qed.

Lemma lazy_loop_sound (r : regex) (IH : sound r)
      (k : string -> captures -> option A) (x : A) (fuel : nat) :
  forall (s : string) (cs : captures),
    lazy_loop (rmatch r) k fuel s cs = Some x ->
    exists mid rest cs',
      s = (mid ++ rest)%string /\ Matches (LazyStar r) mid cs cs' /\ k rest cs' = Some x.
Proof.
  induction fuel as [|fuel IHf]; intros s cs H; cbn [lazy_loop] in H.
  - exists "", s, cs. repeat split; [constructor | exact H].
  - destruct (k s cs) as [y|] eqn:E.
    + assert (y = x) by congruence. subst y. exists "", s, cs. repeat split; [constructor | exact E].
    + apply IH in H.
      destruct H as (mid1 & rest1 & c1 & -> & Hm & Hk).
      destruct (String.length rest1 <? String.length (mid1 ++ rest1))%nat eqn:Hl;
        [|discriminate].
      apply Nat.ltb_lt in Hl. rewrite length_append in Hl.
      apply IHf in Hk. destruct Hk as (mid2 & rest2 & c2 & -> & Hm2 & Hk).
      exists (mid1 ++ mid2)%string, rest2, c2. split; [now rewrite append_assoc|].
      split; [|exact Hk].
      apply MLazyCons with (c1 := c1); auto.
      intros ->. cbn in Hl. lia.
Qed.

End Matcher.

(** what the matcher finds is a match *)
Lemma rmatch_sound (r : regex) : forall A : Type, sound A r.
Proof.
  induction r as [|p|r1 IH1 r2 IH2|r IH|r IH|r IH|i r IH]; intros A s cs k x H;
    cbn [rmatch] in H.
  - exists "", s, cs. repeat split; [constructor | exact H].
  - destruct s as [|c s']; [discriminate|].
    destruct (p c) eqn:Hp; [|discriminate].
    exists (String c ""), s', cs. repeat split; [now constructor | exact H].
  - apply IH1 in H. destruct H as (m1 & rest1 & c1 & -> & Hm1 & H).
    apply IH2 in H. destruct H as (m2 & rest2 & c2 & -> & Hm2 & H).
    exists (m1 ++ m2)%string, rest2, c2. split; [now rewrite append_assoc|].
    split; [econstructor; eauto | exact H].
  - destruct (rmatch r s cs k) as [y|] eqn:E.
    + assert (y = x) by congruence. subst y. apply IH in E.
      destruct E as (m & rest & c1 & -> & Hm & Hk).
      exists m, rest, c1. repeat split; [now constructor | exact Hk].
    + exists "", s, cs. repeat split; [constructor | exact H].
  - eapply star_loop_sound; eauto.
  - eapply lazy_loop_sound; eauto.
  - apply IH in H. destruct H as (m & rest & c1 & -> & Hm & Hk).
    rewrite consumed_append in Hk.
    exists m, rest, ((i, m) :: c1). repeat split; [now constructor | exact Hk].
Qed.

(** a match is found: the matcher does not fail on a text that begins with
    a match after which the continuation succeeds *)
Lemma rmatch_complete (r : regex) (mid : string) (cs cs1 : captures) :
  Matches r mid cs cs1 ->
  forall (A : Type) (k : string -> captures -> option A) (rest : string) (cs0 : captures),
    (forall c, k rest c <> None) ->
    rmatch r (mid ++ rest) cs0 k <> None /\
    (forall r1 fuel, r = Star r1 -> (String.length (mid ++ rest) <= fuel)%nat ->
                     star_loop (rmatch r1) k fuel (mid ++ rest)%string cs0 <> None) /\
    (forall r1 fuel, r = LazyStar r1 -> (String.length (mid ++ rest) <= fuel)%nat ->
                     lazy_loop (rmatch r1) k fuel (mid ++ rest)%string cs0 <> None).
Proof.
  induction 1 as [cs|p c cs Hp|r1 r2 s1 s2 cs c1 c2 H1 IH1 H2 IH2|r cs|r s cs c1 H IH
                 |r cs|r s1 s2 cs c1 c2 Hne H1 IH1 H2 IH2
                 |r cs|r s1 s2 cs c1 c2 Hne H1 IH1 H2 IH2|i r s cs c1 H IH];
    intros A k rest cs0 Hk.
  - cbn. repeat split; [apply Hk | discriminate ..].
  - cbn. rewrite Hp. repeat split; [apply Hk | discriminate ..].
  - rewrite append_assoc. cbn [rmatch]. repeat split; [|discriminate ..].
    apply IH1. intros c. apply IH2. exact Hk.
  - cbn [rmatch append]. repeat split; [|discriminate ..].
    destruct (rmatch r rest cs0 k); [discriminate | apply Hk].
  - cbn [rmatch]. repeat split; [|discriminate ..].
    destruct (IH A k rest cs0 Hk) as [Hr _].
    destruct (rmatch r (s ++ rest) cs0 k); [discriminate | contradiction].
  - assert (Hloop : forall fuel, star_loop (rmatch r) k fuel rest cs0 <> None).
    { intros [|fuel]; cbn; [apply Hk|].
      destruct (rmatch r rest cs0 _); [discriminate | apply Hk]. }
    cbn [rmatch append]. repeat split; [apply Hloop| |discriminate].
    intros r1 fuel [= <-] _. apply Hloop.
  - assert (Hloop : forall fuel, (String.length ((s1 ++ s2) ++ rest) <= fuel)%nat ->
                                 star_loop (rmatch r) k fuel ((s1 ++ s2) ++ rest)%string cs0
                                 <> None).
    { intros fuel Hf. rewrite append_assoc in *.
      destruct fuel as [|fuel].
      { rewrite length_append in Hf. destruct s1; [contradiction | cbn in Hf; lia]. }
      cbn [star_loop].
      destruct (IH1 A (fun s' c' =>
                         if (String.length s' <? String.length (s1 ++ s2 ++ rest))%nat
                         then star_loop (rmatch r) k fuel s' c' else None)
                    (s2 ++ rest)%string cs0) as [Hr _].
      { intros c.
        assert (Hl : (String.length (s2 ++ rest) <? String.length (s1 ++ s2 ++ rest))%nat
                     = true).
        { apply Nat.ltb_lt. rewrite (length_append s1).
          destruct s1; [contradiction | cbn; lia]. }
        rewrite Hl.
        destruct (IH2 A k rest c Hk) as (_ & Hs & _).
        apply (Hs r fuel eq_refl).
        rewrite (length_append s1) in Hf. destruct s1; [contradiction | cbn in Hf; lia]. }
      destruct (rmatch r (s1 ++ s2 ++ rest) cs0 _); [discriminate | contradiction]. }
    repeat split; [apply Hloop; reflexivity | | discriminate].
    intros r1 fuel [= <-]. apply Hloop.
  - assert (Hloop : forall fuel, lazy_loop (rmatch r) k fuel rest cs0 <> None).
    { intros [|fuel]; cbn; [apply Hk|].
      destruct (k rest cs0) eqn:E; [discriminate | now apply Hk in E]. }
    cbn [rmatch append]. repeat split; [apply Hloop|discriminate|].
    intros r1 fuel [= <-] _. apply Hloop.
  - assert (Hloop : forall fuel, (String.length ((s1 ++ s2) ++ rest) <= fuel)%nat ->
                                 lazy_loop (rmatch r) k fuel ((s1 ++ s2) ++ rest)%string cs0
                                 <> None).
    { intros fuel Hf. rewrite append_assoc in *.
      destruct fuel as [|fuel].
      { rewrite length_append in Hf. destruct s1; [contradiction | cbn in Hf; lia]. }
      cbn [lazy_loop].
      destruct (k (s1 ++ s2 ++ rest)%string cs0); [discriminate|].
      apply IH1. intros c.
      assert (Hl : (String.length (s2 ++ rest) <? String.length (s1 ++ s2 ++ rest))%nat
                   = true).
      { apply Nat.ltb_lt. rewrite (length_append s1).
        destruct s1; [contradiction | cbn; lia]. }
      rewrite Hl.
      destruct (IH2 A k rest c Hk) as (_ & _ & Hs).
      apply (Hs r fuel eq_refl).
      rewrite (length_append s1) in Hf. destruct s1; [contradiction | cbn in Hf; lia]. }
    repeat split; [apply Hloop; reflexivity | discriminate |].
    intros r1 fuel [= <-]. apply Hloop.
  - cbn [rmatch]. repeat split; [|discriminate ..].
    apply IH. intros c. apply Hk.
Qed.

(** *** Matches of [exec] *)

Lemma match_here_sound (r : regex) (s : string) (m : match_result) :
  match_here r s = Some m ->
  s = (m_text m ++ m_rest m)%string /\ Matches r (m_text m) [] (m_groups m).
Proof.
  unfold match_here. intros H. apply rmatch_sound in H.
  destruct H as (mid & rest & cs' & -> & Hm & H).
  rewrite consumed_append in H. injection H as <-. cbn. auto.
Qed.

Lemma match_here_complete (r : regex) (mid rest : string) (cs cs1 : captures) :
  Matches r mid cs cs1 -> match_here r (mid ++ rest) <> None.
Proof.
  intros H. unfold match_here.
  apply (@rmatch_complete r mid cs cs1 H). discriminate.
Qed.

(** [exec] returns the match at the first position that has one *)
Lemma exec_first (r : regex) (s : string) (m : match_result) :
  exec r s = Some m ->
  exists pre rest,
    s = (pre ++ rest)%string /\ match_here r rest = Some m /\
    forall pre' rest', s = (pre' ++ rest')%string ->
                       (String.length pre' < String.length pre)%nat ->
                       match_here r rest' = None.
Proof.
  induction s as [|c s IH]; cbn [exec]; intros H.
  - destruct (match_here r "") as [m'|] eqn:E; [|discriminate].
    exists "", "". repeat split; [congruence|]. intros ? ? _. cbn. lia.
  - destruct (match_here r (String c s)) as [m'|] eqn:E.
    + exists "", (String c s). repeat split; [congruence|]. intros ? ? _. cbn. lia.
    + destruct (IH H) as (pre & rest & -> & Hm & Hmin).
      exists (String c pre), rest. repeat split; [exact Hm|].
      intros [|c' pre'] rest' Heq Hl; cbn in Heq.
      * now subst rest'.
      * injection Heq as -> Heq. apply (Hmin pre' rest' Heq). cbn in Hl. lia.
Qed.

Lemma exec_None (r : regex) (s : string) :
  exec r s = None ->
  forall pre rest, s = (pre ++ rest)%string -> match_here r rest = None.
Proof.
  induction s as [|c s IH]; cbn [exec]; intros H pre rest Heq.
  - destruct pre; [|discriminate]. cbn in Heq. subst rest.
    destruct (match_here r ""); [discriminate | reflexivity].
  - destruct (match_here r (String c s)) eqn:E; [discriminate|].
    destruct pre as [|c' pre]; cbn in Heq.
    + now subst rest.
    + injection Heq as _ Heq. exact (IH H pre rest Heq).
Qed.

(** [exec] finds a match exactly when some part of the text is one *)
Lemma exec_matches (r : regex) (s : string) :
  exec r s <> None <->
  exists pre mid post cs', s = (pre ++ mid ++ post)%string /\ Matches r mid [] cs'.
Proof.
  split.
  - destruct (exec r s) as [m|] eqn:E; [intros _ | congruence].
    apply exec_first in E. destruct E as (pre & rest & -> & Hm & _).
    apply match_here_sound in Hm. destruct Hm as [-> Hm].
    eauto 6.
  - intros (pre & mid & post & cs' & -> & Hm) E.
    apply (@match_here_complete r mid post [] cs' Hm). exact (@exec_None r _ E pre _ eq_refl).
Qed.

(** *** The shapes of the common patterns *)

Lemma Matches_Chr (p : ascii -> bool) (s : string) (cs cs' : captures) :
  Matches (Chr p) s cs cs' <-> exists c, s = String c "" /\ p c = true /\ cs' = cs.
Proof.
  split.
  - inversion 1; subst. eauto.
  - intros (c & -> & Hp & ->). now constructor.
Qed.

Lemma Matches_Eps (s : string) (cs cs' : captures) :
  Matches Eps s cs cs' <-> s = "" /\ cs' = cs.
Proof.
  split.
  - inversion 1; subst. auto.
  - intros [-> ->]. constructor.
Qed.

Lemma Matches_Cat (r1 r2 : regex) (s : string) (cs cs' : captures) :
  Matches (Cat r1 r2) s cs cs' <->
  exists s1 s2 c1, s = (s1 ++ s2)%string /\ Matches r1 s1 cs c1 /\ Matches r2 s2 c1 cs'.
Proof.
  split.
  - inversion 1; subst. eauto 6.
  - intros (s1 & s2 & c1 & -> & H1 & H2). econstructor; eauto.
Qed.

Lemma Matches_Group (i : nat) (r : regex) (s : string) (cs cs' : captures) :
  Matches (Group i r) s cs cs' <-> exists c1, Matches r s cs c1 /\ cs' = (i, s) :: c1.
Proof.
  split.
  - inversion 1; subst. eauto.
  - intros (c1 & H & ->). now constructor.
Qed.

Lemma Matches_lit (p s : string) (cs cs' : captures) :
  Matches (lit p) s cs cs' <-> s = p /\ cs' = cs.
Proof.
  revert s cs'. induction p as [|c p IH]; intros s cs'; cbn [lit].
  - apply Matches_Eps.
  - rewrite Matches_Cat. split.
    + intros (s1 & s2 & c1 & -> & H1 & H2).
      apply Matches_Chr in H1. destruct H1 as (c' & -> & Hc & ->).
      apply IH in H2. destruct H2 as [-> ->].
      apply Ascii.eqb_eq in Hc. subst c'. auto.
    + intros [-> ->]. exists (String c ""), p, cs. repeat split.
      * apply Matches_Chr. exists c. repeat split. apply Ascii.eqb_refl.
      * apply IH. auto.
Qed.

Lemma Matches_lit_i (p s : string) (cs cs' : captures) :
  Matches (lit_i p) s cs cs' <-> toLowerCase s = toLowerCase p /\ cs' = cs.
Proof.
  revert s cs'. induction p as [|c p IH]; intros s cs'; cbn [lit_i].
  - rewrite Matches_Eps. destruct s; cbn; intuition discriminate.
  - rewrite Matches_Cat. split.
    + intros (s1 & s2 & c1 & -> & H1 & H2).
      apply Matches_Chr in H1. destruct H1 as (c' & -> & Hc & ->).
      apply IH in H2. destruct H2 as [H2 ->].
      apply Ascii.eqb_eq in Hc. cbn. now rewrite H2, Hc.
    + intros [H ->]. destruct s as [|c' s]; [discriminate|].
      cbn in H. injection H as Hc Hs.
      exists (String c' ""), s, cs. repeat split.
      * apply Matches_Chr. exists c'. repeat split.
        unfold eq_char_i. rewrite Hc. apply Ascii.eqb_refl.
      * apply IH. auto.
Qed.

Lemma Matches_Star_Chr (p : ascii -> bool) (s : string) (cs cs' : captures) :
  Matches (Star (Chr p)) s cs cs' <-> all_chars p s = true /\ cs' = cs.
Proof.
  split.
  - intros H. remember (Star (Chr p)) as r eqn:Er.
    induction H; try discriminate; injection Er as ->.
    + auto.
    + apply Matches_Chr in H0. destruct H0 as (c & -> & Hc & ->).
      destruct (IHMatches2 eq_refl) as [Ha ->].
      cbn. rewrite Hc, Ha. auto.
  - intros [H ->]. induction s as [|c s IH]; [constructor|].
    cbn in H. apply andb_true_iff in H. destruct H as [Hc Hs].
    apply (@MStarCons (Chr p) (String c "") s cs cs cs); [discriminate | | auto].
    now constructor.
Qed.

Lemma all_chars_app (p : ascii -> bool) (a b : string) :
  all_chars p (a ++ b) = all_chars p a && all_chars p b.
Proof. induction a as [|c a IH]; cbn; [reflexivity | now rewrite IH, andb_assoc]. Qed.

Lemma Matches_times_Chr (n : nat) (p : ascii -> bool) (s : string) (cs cs' : captures) :
  Matches (times n (Chr p)) s cs cs' <->
  String.length s = n /\ all_chars p s = true /\ cs' = cs.
Proof.
  revert s cs'. induction n as [|n IH]; intros s cs'; cbn [times].
  - rewrite Matches_Eps. split.
    + intros [-> ->]. auto.
    + intros (H & _ & ->). apply length_zero in H. auto.
  - rewrite Matches_Cat. split.
    + intros (s1 & s2 & c1 & -> & H1 & H2).
      apply Matches_Chr in H1. destruct H1 as (c & -> & Hc & ->).
      apply IH in H2. destruct H2 as (Hl & Ha & ->).
      cbn. rewrite Hl, Hc, Ha. auto.
    + intros (Hl & Ha & ->). destruct s as [|c s]; [discriminate|].
      cbn in Hl, Ha. apply andb_true_iff in Ha. destruct Ha as [Hc Ha].
      exists (String c ""), s, cs. repeat split.
      * apply Matches_Chr. eauto.
      * apply IH. auto.
Qed.

Lemma Matches_upto_Chr (n : nat) (p : ascii -> bool) (s : string) (cs cs' : captures) :
  Matches (upto n (Chr p)) s cs cs' <->
  (String.length s <= n)%nat /\ all_chars p s = true /\ cs' = cs.
Proof.
  revert s cs'. induction n as [|n IH]; intros s cs'; cbn [upto].
  - rewrite Matches_Eps. split.
    + intros [-> ->]. auto.
    + intros (H & _ & ->). split; [|reflexivity]. apply length_zero. lia.
  - split.
    + inversion 1; subst; [cbn; repeat split; lia|].
      match goal with H : Matches (Cat _ _) _ _ _ |- _ => apply Matches_Cat in H;
        destruct H as (s1 & s2 & c1 & -> & H1 & H2) end.
      apply Matches_Chr in H1. destruct H1 as (c & -> & Hc & ->).
      apply IH in H2. destruct H2 as (Hl & Ha & ->).
      cbn. rewrite Hc, Ha. repeat split. lia.
    + intros (Hl & Ha & ->). destruct s as [|c s]; [constructor|].
      cbn in Hl, Ha. apply andb_true_iff in Ha. destruct Ha as [Hc Ha].
      apply MOptSome. apply Matches_Cat.
      exists (String c ""), s, cs. repeat split.
      * apply Matches_Chr. eauto.
      * apply IH. repeat split; [lia | exact Ha].
Qed.

Lemma take_drop (n : nat) (s : string) : (take n s ++ drop n s)%string = s.
Proof.
  revert s. induction n as [|n IH]; intros [|c s]; cbn; try reflexivity.
  now rewrite IH.
Qed.

Lemma length_take (n : nat) (s : string) :
  (n <= String.length s)%nat -> String.length (take n s) = n.
Proof.
  revert s. induction n as [|n IH]; intros [|c s]; cbn; intros H; try lia.
  rewrite IH; lia.
Qed.

Lemma Matches_range_Chr (m n : nat) (p : ascii -> bool) (s : string)
      (cs cs' : captures) :
  Matches (range m n (Chr p)) s cs cs' <->
  (m <= String.length s <= m + (n - m))%nat /\ all_chars p s = true /\ cs' = cs.
Proof.
  unfold range. rewrite Matches_Cat. split.
  - intros (s1 & s2 & c1 & -> & H1 & H2).
    apply Matches_times_Chr in H1. destruct H1 as (Hl1 & Ha1 & ->).
    apply Matches_upto_Chr in H2. destruct H2 as (Hl2 & Ha2 & ->).
    rewrite length_append, all_chars_app, Ha1, Ha2. repeat split; lia.
  - intros (Hl & Ha & ->).
    exists (take m s), (drop m s), cs.
    rewrite <- (take_drop m s) in Ha, Hl.
    rewrite all_chars_app in Ha. apply andb_true_iff in Ha. destruct Ha as [Ha1 Ha2].
    rewrite length_append in Hl.
    assert (Hm : String.length (take m s) = m).
    { apply length_take. rewrite <- (take_drop m s), length_append in *.
      destruct Hl as [Hl _].
      clear - Hl. revert s Hl. induction m as [|m IH]; intros [|c s]; cbn; intros H;
        try lia. apply le_n_S, IH. cbn in H. lia. }
    split; [now rewrite take_drop|]. split.
    + apply Matches_times_Chr. auto.
    + apply Matches_upto_Chr. repeat split; [lia | exact Ha2].
Qed.

Lemma Matches_plus_Chr (p : ascii -> bool) (s : string) (cs cs' : captures) :
  Matches (plus (Chr p)) s cs cs' <-> s <> "" /\ all_chars p s = true /\ cs' = cs.
Proof.
  unfold plus. rewrite Matches_Cat. split.
  - intros (s1 & s2 & c1 & -> & H1 & H2).
    apply Matches_Chr in H1. destruct H1 as (c & -> & Hc & ->).
    apply Matches_Star_Chr in H2. destruct H2 as [Ha ->].
    cbn. rewrite Hc, Ha. repeat split. discriminate.
  - intros (Hne & Ha & ->). destruct s as [|c s]; [contradiction|].
    cbn in Ha. apply andb_true_iff in Ha. destruct Ha as [Hc Ha].
    exists (String c ""), s, cs. repeat split.
    + apply Matches_Chr. eauto.
    + apply Matches_Star_Chr. auto.
Qed.

(** *** Texts cut in the same way *)

Lemma length_toLowerCase (s : string) : String.length (toLowerCase s) = String.length s.
Proof. induction s as [|c s IH]; cbn; [reflexivity | now rewrite IH]. Qed.

Lemma append_same_length (a a' b b' : string) :
  String.length a = String.length a' ->
  (a ++ b = a' ++ b')%string -> a = a' /\ b = b'.
Proof.
  revert a'. induction a as [|c a IH]; intros [|c' a'] Hl H; cbn in *; try discriminate.
  - auto.
  - injection H as -> H. injection Hl as Hl. destruct (IH a' Hl H) as [-> ->]. auto.
Qed.

(** two runs of a class, each followed by a character outside it *)
Lemma run_unique (p : ascii -> bool) (a a' : string) (c c' : ascii) (r r' : string) :
  all_chars p a = true -> all_chars p a' = true ->
  p c = false -> p c' = false ->
  (a ++ String c r = a' ++ String c' r')%string ->
  a = a' /\ String c r = String c' r'.
Proof.
  revert a'. induction a as [|x a IH]; intros [|x' a'] Ha Ha' Hc Hc' H; cbn in *.
  - auto.
  - injection H as -> _. apply andb_true_iff in Ha'. destruct Ha'. congruence.
  - injection H as -> _. apply andb_true_iff in Ha. destruct Ha. congruence.
  - injection H as -> H.
    apply andb_true_iff in Ha, Ha'. destruct Ha as [_ Ha], Ha' as [_ Ha'].
    destruct (IH a' Ha Ha' Hc Hc' H) as [-> E]. auto.
Qed.

(** ** [Map]: insertion-ordered, one entry per key

    [set] on a present key replaces the value in place, on an absent key
    appends the entry; iteration ([values], [forEach]) is in insertion order. *)

Section MapModel.
Variable V : Type.

Definition Map : Type := list (string * V).

Fixpoint map_get (m : Map) (k : string) : option V :=
  match m with
  | [] => None
  | (k', v) :: m' => if String.eqb k' k then Some v else map_get m' k
  end.

Definition map_has (m : Map) (k : string) : bool :=
  match map_get m k with Some _ => true | None => false end.

Fixpoint map_set (m : Map) (k : string) (v : V) : Map :=
  match m with
  | [] => [(k, v)]
  | (k', v') :: m' =>
      if String.eqb k' k then (k, v) :: m' else (k', v') :: map_set m' k v
  end.

Fixpoint map_delete (m : Map) (k : string) : Map :=
  match m with
  | [] => []
  | (k', v') :: m' =>
      if String.eqb k' k then m' else (k', v') :: map_delete m' k
  end.

Definition map_keys (m : Map) : list string := List.map fst m.
Definition map_values (m : Map) : list V := List.map snd m.
Definition map_size (m : Map) : nat := List.length m.

(** *** Facts about [Map] *)

Lemma map_get_set_same (m : Map) (k : string) (v : V) :
  map_get (map_set m k v) k = Some v.
Proof.
  induction m as [|[k' v'] m IH]; cbn.
  - now rewrite String.eqb_refl.
  - destruct (String.eqb k' k) eqn:E; cbn.
    + now rewrite String.eqb_refl.
    + now rewrite E.
Qed.

Lemma map_get_set_other (m : Map) (k k' : string) (v : V) :
  k <> k' -> map_get (map_set m k v) k' = map_get m k'.
Proof.
  intros Hne. induction m as [|[k0 v0] m IH]; cbn.
  - apply String.eqb_neq in Hne. now rewrite Hne.
  - destruct (String.eqb k0 k) eqn:E; cbn.
    + apply String.eqb_eq in E. subst k0.
      apply String.eqb_neq in Hne. now rewrite Hne.
    + now rewrite IH.
Qed.

Lemma map_has_set_same (m : Map) (k : string) (v : V) :
  map_has (map_set m k v) k = true.
Proof. unfold map_has. now rewrite map_get_set_same. Qed.

Lemma map_get_None_keys (m : Map) (k : string) :
  map_get m k = None <-> ~ In k (map_keys m).
Proof.
  induction m as [|[k' v'] m IH]; cbn.
  - tauto.
  - destruct (String.eqb k' k) eqn:E.
    + apply String.eqb_eq in E. split; [discriminate | tauto].
    + apply String.eqb_neq in E. rewrite IH. tauto.
Qed.

Lemma map_get_In (m : Map) (k : string) (v : V) :
  map_get m k = Some v -> In (k, v) m.
Proof.
  induction m as [|[k' v'] m IH]; cbn; [discriminate|].
  destruct (String.eqb k' k) eqn:E.
  - apply String.eqb_eq in E. intros [= ->]. left. now subst.
  - intros H. right. now apply IH.
Qed.

Lemma map_In_get (m : Map) (k : string) (v : V) :
  NoDup (map_keys m) -> In (k, v) m -> map_get m k = Some v.
Proof.
  induction m as [|[k' v'] m IH]; cbn; [tauto|].
  intros Hnd [H|H].
  - injection H as -> ->. now rewrite String.eqb_refl.
  - inversion Hnd as [|? ? Hni Hnd']; subst.
    destruct (String.eqb k' k) eqn:E.
    + apply String.eqb_eq in E. subst k'.
      exfalso. apply Hni. change k with (fst (k, v)). now apply in_map.
    + now apply IH.
Qed.

Lemma map_set_present (m : Map) (k : string) (v : V) :
  map_has m k = true ->
  map_keys (map_set m k v) = map_keys m /\
  map_size (map_set m k v) = map_size m.
Proof.
  unfold map_has, map_size, map_keys.
  induction m as [|[k' v'] m IH]; cbn; [discriminate|].
  destruct (String.eqb k' k) eqn:E; cbn.
  - apply String.eqb_eq in E. subst. auto.
  - intros H. destruct (IH H) as [IH1 IH2]. rewrite IH1, IH2. auto.
Qed.

Lemma map_set_absent (m : Map) (k : string) (v : V) :
  map_has m k = false -> map_set m k v = (m ++ [(k, v)])%list.
Proof.
  unfold map_has.
  induction m as [|[k' v'] m IH]; cbn; [reflexivity|].
  destruct (String.eqb k' k) eqn:E; [discriminate|].
  intros H. now rewrite IH.
Qed.

Lemma map_has_false_keys (m : Map) (k : string) :
  map_has m k = false <-> ~ In k (map_keys m).
Proof.
  unfold map_has. rewrite <- map_get_None_keys.
  destruct (map_get m k); split; congruence.
Qed.

Lemma map_set_NoDup (m : Map) (k : string) (v : V) :
  NoDup (map_keys m) -> NoDup (map_keys (map_set m k v)).
Proof.
  intros Hnd. destruct (map_has m k) eqn:E.
  - destruct (@map_set_present m k v E) as [-> _]. exact Hnd.
  - rewrite (@map_set_absent m k v E). unfold map_keys. rewrite map_app. cbn.
    apply map_has_false_keys in E.
    apply NoDup_app; [exact Hnd | repeat constructor; cbn; tauto |].
    intros x Hx [<-|[]]. contradiction.
Qed.

Lemma map_set_size_twice (m : Map) (k : string) (v v' : V) :
  map_size (map_set (map_set m k v) k v') = map_size (map_set m k v).
Proof. apply (@map_set_present (map_set m k v) k v'), map_has_set_same. Qed.

Lemma map_set_In (m : Map) (k : string) (v : V) :
  In (k, v) (map_set m k v).
Proof. apply map_get_In, map_get_set_same. Qed.

Lemma map_set_In_inv (m : Map) (k : string) (v : V) (kv : string * V) :
  In kv (map_set m k v) -> kv = (k, v) \/ In kv m.
Proof.
  induction m as [|[k' v'] m IH]; cbn.
  - intros [<-|[]]. now left.
  - destruct (String.eqb k' k); cbn.
    + intros [<-|H]; [now left | right; now right].
    + intros [<-|H]; [right; now left|].
      destruct (IH H) as [->|H1]; [now left | right; now right].
Qed.

Lemma map_delete_middle (pre post : Map) (k : string) (v : V) :
  ~ In k (map_keys pre) ->
  map_delete (pre ++ (k, v) :: post) k = (pre ++ post)%list.
Proof.
  induction pre as [|[k' v'] pre IH]; cbn; intros Hni.
  - now rewrite String.eqb_refl.
  - destruct (String.eqb k' k) eqn:E.
    + apply String.eqb_eq in E. tauto.
    + rewrite IH; tauto.
Qed.

End MapModel.

(** ** Dates and the local zone

    A [Date] is its time value, the milliseconds since the epoch.  The zone
    of the process enters through ECMAScript's [LocalTZA(t, isUTC)], the
    offset of local time from UTC in milliseconds: at the instant [t] when
    [isUTC] holds, and at the local time value [t] otherwise (a local time
    that occurs twice or not at all at a change of offset is read with the
    offset in force before the change). *)
Section Dates.

Variable LocalTZA : Z -> bool -> Z.

Definition LocalTime (t : Z) : Z := (t + LocalTZA t true)%Z.
Definition UTC (t : Z) : Z := (t - LocalTZA t false)%Z.

Definition msPerMinute : Z := (60 * 1000)%Z.
Definition msPerDay : Z := (24 * 60 * 60 * 1000)%Z.

(** [d.setDate(d.getDate() + days)]: the setter works on the local time
    value, where [MakeDay(year, month, date + days)] is the day of [d] moved
    by [days] and the time within the day is kept. *)
Definition addLocalDays (days : Z) (t : Z) : Z :=
  UTC (LocalTime t + days * msPerDay)%Z.

(** [d.setMinutes(d.getMinutes() + minutes)]: likewise, with
    [MakeTime(hour, min + minutes, sec, ms)]. *)
Definition addLocalMinutes (minutes : Z) (t : Z) : Z :=
  UTC (LocalTime t + minutes * msPerMinute)%Z.

End Dates.

(** A zone without changes of offset. *)
Definition fixedZone (offset : Z) : Z -> bool -> Z := fun _ _ => offset.

(** A zone whose clocks are set back from [before] to [after] (with
    [after <= before]) at the instant [change]: the local times from
    [change + after] to [change + before] occur twice and are read with the
    offset [before]. *)
Definition fallBackZone (change before after : Z) : Z -> bool -> Z :=
  fun t isUTC =>
    if isUTC
    then (if t <? change then before else after)%Z
    else (if t <? change + before then before else after)%Z.

End Js.

(* ================================================================== *)
(** * Shared types (types/index) *)
(* ================================================================== *)

Module Types.

Record DispatchFacility : Type := {
  companyName : string;
  facilityName : string;
  address : string;
  accountNumber : string;
  dispatchTarget : string
}.

(** [D] is the type of [Date] values. *)
Record DispatchEvent (D : Type) : Type := {
  messageId : string;
  subject : string;
  from : string;
  dispatchType : string;
  eventDate : D;
  startTime : D;
  endTime : D;
  timezone : string;
  facilities : list DispatchFacility;
  rawContent : string
}.

End Types.

(* ================================================================== *)
(** * CPowerEmailParser *)
(* ================================================================== *)

Module Parser.
Import Js Types.
Local Open Scope regex_scope.

(** What [mailparser]'s [simpleParser] hands back, as far as the parser reads
    it: [messageId], [subject], [from.text], [html] ([false] when the mail has
    no HTML part) and [textAsHtml]. *)
Record ParsedMail : Type := {
  pm_messageId : option string;
  pm_subject : option string;
  pm_from_text : option string;
  pm_html : option string;
  pm_textAsHtml : option string
}.

(** *** The patterns of the source *)

(** [/Dispatch Alert For:\s*<strong>([^<]+)<\/strong>/i] *)
Definition dispatchForRe : regex :=
  lit_i "Dispatch Alert For:" +++ Star space +++ lit_i "<strong>" +++
  Group 1 (plus (noneOf "<")) +++ lit_i "</strong>".

(** [/has informed CPower of a\s*<em><strong>([^<]+)<\/strong><\/em>/i] *)
Definition informedRe : regex :=
  lit_i "has informed CPower of a" +++ Star space +++ lit_i "<em><strong>" +++
  Group 1 (plus (noneOf "<")) +++ lit_i "</strong></em>".

(** [/Event will Start at:\s*<strong>([^<]+)<\/strong>/i] and its [End] twin *)
Definition labelRe (label : string) : regex :=
  lit_i label +++ Star space +++ lit_i "<strong>" +++
  Group 1 (plus (noneOf "<")) +++ lit_i "</strong>".

Definition startLabel : string := "Event will Start at:".
Definition endLabel : string := "Event will End at:".

(** [/(\d{1,2}:\d{2}\s*[AP]M)\s*\(([A-Z]{3,4})\)\s*On\s*(\d{2}\/\d{2}\/\d{4})/i] *)
Definition eventTimeRe : regex :=
  Group 1 (range 1 2 digit +++ lit ":" +++ times 2 digit +++ Star space +++
           Chr (fun c => eq_char_i "A" c || eq_char_i "P" c) +++ lit_i "M") +++
  Star space +++ lit "(" +++
  Group 2 (range 3 4 (Chr (fun c => is_upper c || is_lower c))) +++
  lit ")" +++ Star space +++ lit_i "On" +++ Star space +++
  Group 3 (times 2 digit +++ lit "/" +++ times 2 digit +++ lit "/" +++ times 4 digit).

(** [/<table[^>]*>[\s\S]*?<\/table>/gi] and the row and cell patterns *)
Definition tableRe : regex :=
  lit_i "<table" +++ Star (noneOf ">") +++ lit ">" +++ LazyStar any +++ lit_i "</table>".

Definition rowRe : regex :=
  lit_i "<tr" +++ Star (noneOf ">") +++ lit ">" +++ LazyStar any +++ lit_i "</tr>".

Definition cellRe : regex :=
  lit_i "<td" +++ Star (noneOf ">") +++ lit ">" +++
  Group 1 (Star (noneOf "<")) +++ lit_i "</td>".

(** [m[i]] spliced into a string *)
Definition capture (i : nat) (m : match_result) : string :=
  match group i (m_groups m) with
  | Some t => t
  | None => "undefined"
  end.

Section WithRuntime.

(** [Date] values and [new Date(string)], whose parsing of a date-time text is
    left to the JavaScript engine. *)
Variable JsDate : Type.
Variable newDate : string -> JsDate.

(** The MIME parser, which may reject its input by throwing. *)
Variable MailError : Type.
Variable simpleParser : string -> Result MailError ParsedMail.

Definition isDispatchEmail (subject from : string) : bool :=
  let subjectLower := toLowerCase subject in
  let fromLower := toLowerCase from in
  includes fromLower "cpowerdispatch" &&
  (includes subjectLower "dispatched event" ||
   includes subjectLower "dispatch event" ||
   includes subjectLower "curtailment").

Definition CR : string := String (ascii_of_nat 13) EmptyString.
Definition LF : string := String (ascii_of_nat 10) EmptyString.

(** [/=\r?\n/g] *)
Definition softBreakRe : regex := lit "=" +++ Opt (lit CR) +++ lit LF.

Definition decodeHtmlEntities (html : string) : string :=
  let s := replace html (lit "=3D") "=" in
  let s := replace s softBreakRe "" in
  let s := replace s (lit "&amp;") "&" in
  let s := replace s (lit "&lt;") "<" in
  let s := replace s (lit "&gt;") ">" in
  let s := replace s (lit "&quot;") (String (ascii_of_nat 34) EmptyString) in
  replace s (lit "&#39;") "'".

Definition extractDispatchType (html : string) : string :=
  match exec dispatchForRe html with
  | Some m => trim (capture 1 m)
  | None =>
      match exec informedRe html with
      | Some m => trim (capture 1 m)
      | None => "Unknown Dispatch"
      end
  end.

Record EventTime : Type := { et_date : JsDate; et_timezone : string }.

(** Parse a time string like ["05:00 PM (EDT) On 06/24/2025"]. *)
Definition parseEventTime (timeStr : string) : option EventTime :=
  match exec eventTimeRe timeStr with
  | None => None
  | Some m =>
      let time := capture 1 m in
      let timezone := capture 2 m in
      let date := capture 3 m in
      let parts := split date "/" in
      let month := nth 0 parts "undefined" in
      let day := nth 1 parts "undefined" in
      let year := nth 2 parts "undefined" in
      let dateTimeStr := (month ++ "/" ++ day ++ "/" ++ year ++ " " ++ time)%string in
      Some {| et_date := newDate dateTimeStr; et_timezone := timezone |}
  end.

Record EventTimes : Type := {
  ets_eventDate : JsDate;
  ets_startTime : JsDate;
  ets_endTime : JsDate;
  ets_timezone : string
}.

Definition extractEventTimes (html : string) : option EventTimes :=
  match exec (labelRe startLabel) html with
  | None => None
  | Some startMatch =>
      match exec (labelRe endLabel) html with
      | None => None
      | Some endMatch =>
          let startTimeStr := trim (capture 1 startMatch) in
          let endTimeStr := trim (capture 1 endMatch) in
          match parseEventTime startTimeStr, parseEventTime endTimeStr with
          | Some startParsed, Some endParsed =>
              Some {| ets_eventDate := et_date startParsed;
                      ets_startTime := et_date startParsed;
                      ets_endTime := et_date endParsed;
                      ets_timezone := et_timezone startParsed |}
          | _, _ => None
          end
      end
  end.

Definition parseTableRow (rowHtml : string) : option DispatchFacility :=
  let cellMatches := matchAll cellRe rowHtml in
  if (List.length cellMatches <? 5)%nat then None
  else
    let cells :=
      List.map (fun cell =>
                  match exec cellRe cell with
                  | Some m => trim (capture 1 m)
                  | None => ""
                  end) cellMatches in
    Some {| companyName := nth 0 cells "";
            facilityName := nth 1 cells "";
            address := nth 2 cells "";
            accountNumber := nth 3 cells "";
            dispatchTarget := nth 4 cells "" |}.

(** the rows that parse, in order *)
Fixpoint parseRows (rows : list string) : list DispatchFacility :=
  match rows with
  | [] => []
  | row :: rows' =>
      match parseTableRow row with
      | Some facility => facility :: parseRows rows'
      | None => parseRows rows'
      end
  end.

Definition extractFacilities (html : string) : list DispatchFacility :=
  let tableMatch := matchAll tableRe html in
  match List.find (fun table => includes table "Company Name" &&
                                includes table "Facility Name") tableMatch with
  | None => []
  | Some facilitiesTable =>
      (* the header row is skipped *)
      parseRows (List.tl (matchAll rowRe facilitiesTable))
  end.

Record DispatchDetails : Type := {
  dd_dispatchType : string;
  dd_times : EventTimes;
  dd_facilities : list DispatchFacility
}.

Definition extractDispatchDetails (html : string) : option DispatchDetails :=
  let decodedHtml := decodeHtmlEntities html in
  let dispatchType := extractDispatchType decodedHtml in
  match extractEventTimes decodedHtml with
  | None => None
  | Some eventTimes =>
      let facilities := extractFacilities decodedHtml in
      Some {| dd_dispatchType := dispatchType;
              dd_times := eventTimes;
              dd_facilities := facilities |}
  end.

(** the fields read off the parsed mail *)
Definition mailSubject (parsed : ParsedMail) : string := or_else (pm_subject parsed) "".
Definition mailFrom (parsed : ParsedMail) : string := or_else (pm_from_text parsed) "".
Definition mailBody (parsed : ParsedMail) : string :=
  or_else (pm_html parsed) (or_else (pm_textAsHtml parsed) "").

Definition parseEmailContent (rawEmail : string)
  : Result MailError (option (DispatchEvent JsDate)) :=
  try_catch
    (bind (simpleParser rawEmail) (fun parsed =>
       let messageId := or_else (pm_messageId parsed) "" in
       let subject := mailSubject parsed in
       let from := mailFrom parsed in
       let htmlBody := mailBody parsed in
       if negb (isDispatchEmail subject from) then Ok None
       else
         match extractDispatchDetails htmlBody with
         | None => Ok None
         | Some d =>
             Ok (Some {| messageId := messageId;
                         subject := subject;
                         from := from;
                         dispatchType := dd_dispatchType d;
                         eventDate := ets_eventDate (dd_times d);
                         startTime := ets_startTime (dd_times d);
                         endTime := ets_endTime (dd_times d);
                         timezone := ets_timezone (dd_times d);
                         facilities := dd_facilities d;
                         rawContent := rawEmail |})
         end))
    (fun _ => Ok None).

(** *** Specification-side notions *)

(** The time carried by the label [label] of a body: the text in bold after
    the label's first occurrence, read as a time. *)
Definition labelledTime (label html : string) : option EventTime :=
  match exec (labelRe label) html with
  | None => None
  | Some m => parseEventTime (trim (capture 1 m))
  end.

(** the label occurs in the body, whatever the case of its letters *)
Definition mentions (html label : string) : bool :=
  includes (toLowerCase html) (toLowerCase label).

Definition fromVendor (from : string) : bool :=
  includes (toLowerCase from) "cpowerdispatch".

Definition dispatchSubject (subject : string) : bool :=
  existsb (includes (toLowerCase subject))
          ["dispatched event"; "dispatch event"; "curtailment"].

(** *** The time format, in words

    What the body has to carry for an event to come out of it, stated on the
    text alone. *)

(** the letters of [word], whatever their case *)
Definition reads (word s : string) : Prop := toLowerCase s = toLowerCase word.

(** white space only *)
Definition blanks (s : string) : Prop := all_chars is_space s = true.

(** [n] decimal digits *)
Definition digits (n : nat) (s : string) : Prop :=
  String.length s = n /\ all_chars is_digit s = true.

Definition is_letter (c : ascii) : bool := is_upper c || is_lower c.

(** [h:mm AM], [hh:mm pm], ...: one or two digits, a colon, two digits,
    optional white space, AM or PM *)
Definition clockTime (s : string) : Prop :=
  exists hour minute sp half,
    s = (hour ++ ":" ++ minute ++ sp ++ half)%string /\
    (digits 1 hour \/ digits 2 hour) /\ digits 2 minute /\ blanks sp /\
    (reads "AM" half \/ reads "PM" half).

(** three or four letters *)
Definition zoneLetters (s : string) : Prop :=
  (String.length s = 3%nat \/ String.length s = 4%nat) /\ all_chars is_letter s = true.

(** [dd/dd/dddd] *)
Definition slashDate (s : string) : Prop :=
  exists month day year,
    s = (month ++ "/" ++ day ++ "/" ++ year)%string /\
    digits 2 month /\ digits 2 day /\ digits 4 year.

(** [<time> (<zone>) On <date>], the digits not checked against any range *)
Definition timeShape (t : string) : Prop :=
  exists time sp1 zone sp2 on sp3 date,
    t = (time ++ sp1 ++ "(" ++ zone ++ ")" ++ sp2 ++ on ++ sp3 ++ date)%string /\
    clockTime time /\ blanks sp1 /\ zoneLetters zone /\ blanks sp2 /\
    reads "On" on /\ blanks sp3 /\ slashDate date.

(** the text has a part of that shape *)
Definition containsTime (s : string) : Prop :=
  exists pre t post, s = (pre ++ t ++ post)%string /\ timeShape t.

(** the text begins with the label, whatever the case of its letters, then,
    after optional white space, [<strong>text</strong>], where [text] is not
    empty and has no [<] *)
Definition boldAfter (label s text : string) : Prop :=
  exists lab sp opening closing rest,
    s = (lab ++ sp ++ opening ++ text ++ closing ++ rest)%string /\
    reads label lab /\ blanks sp /\ reads "<strong>" opening /\
    text <> "" /\ all_chars (fun c => negb (eq_char c "<")) text = true /\
    reads "</strong>" closing.

(** [text] is in bold after the first occurrence of the label that is
    followed by a text in bold *)
Definition labelled (label html text : string) : Prop :=
  exists pre rest,
    html = (pre ++ rest)%string /\ boldAfter label rest text /\
    forall pre' rest' text',
      html = (pre' ++ rest')%string ->
      (String.length pre' < String.length pre)%nat ->
      ~ boldAfter label rest' text'.

(** *** Facts about the matcher *)

Lemma rmatch_lit_i_startsWith (A : Type) (p s : string) (cs : captures)
      (k : string -> captures -> option A) (x : A) :
  rmatch (lit_i p) s cs k = Some x ->
  startsWith (toLowerCase s) (toLowerCase p) = true.
Proof.
  revert s cs k x.
  induction p as [|c p IH]; intros s cs k x H; [destruct s; reflexivity|].
  cbn in H. destruct s as [|c' s']; [discriminate|].
  destruct (eq_char_i c c') eqn:E; [|discriminate].
  cbn. apply IH in H. rewrite H.
  unfold eq_char_i in E. unfold eq_char. rewrite E. reflexivity.
Qed.

Lemma exec_includes (r : regex) (p : string) :
  (forall s m, match_here r s = Some m ->
               startsWith (toLowerCase s) p = true) ->
  forall s m, exec r s = Some m -> includes (toLowerCase s) p = true.
Proof.
  intros Hhere s.
  induction s as [|c s IH]; intros m H; cbn in H.
  - destruct (match_here r EmptyString) eqn:E; [|discriminate].
    apply Hhere in E. cbn in *. rewrite E. reflexivity.
  - destruct (match_here r (String c s)) eqn:E.
    + apply Hhere in E. cbn in *. rewrite E. reflexivity.
    + cbn. rewrite (IH _ H). apply orb_true_r.
Qed.

Lemma labelRe_mentions (label html : string) (m : match_result) :
  exec (labelRe label) html = Some m -> mentions html label = true.
Proof.
  apply exec_includes. intros s m' H.
  unfold match_here, labelRe in H. cbn [rmatch] in H.
  eapply rmatch_lit_i_startsWith; exact H.
Qed.

Lemma labelledTime_mentions (label html : string) :
  mentions html label = false -> labelledTime label html = None.
Proof.
  intros H. unfold labelledTime.
  destruct (exec (labelRe label) html) eqn:E; [|reflexivity].
  apply labelRe_mentions in E. congruence.
Qed.

Lemma extractEventTimes_None (html : string) :
  extractEventTimes html = None <->
  labelledTime startLabel html = None \/ labelledTime endLabel html = None.
Proof.
  unfold extractEventTimes, labelledTime.
  destruct (exec (labelRe startLabel) html) as [ms|]; [|tauto].
  destruct (exec (labelRe endLabel) html) as [me|].
  - destruct (parseEventTime (trim (capture 1 ms)));
      destruct (parseEventTime (trim (capture 1 me)));
      split; intros H; try tauto; try discriminate;
      destruct H; discriminate.
  - destruct (parseEventTime (trim (capture 1 ms))); tauto.
Qed.

Lemma extractDispatchDetails_None (html : string) :
  extractDispatchDetails html = None <->
  extractEventTimes (decodeHtmlEntities html) = None.
Proof.
  unfold extractDispatchDetails.
  destruct (extractEventTimes (decodeHtmlEntities html)); split; congruence.
Qed.

Lemma isDispatchEmail_spec (subject from : string) :
  isDispatchEmail subject from = fromVendor from && dispatchSubject subject.
Proof.
  unfold isDispatchEmail, fromVendor, dispatchSubject. cbn [existsb].
  rewrite orb_false_r, orb_assoc. reflexivity.
Qed.

Lemma parseEmailContent_parsed (raw : string) (parsed : ParsedMail) :
  simpleParser raw = Ok parsed ->
  (parseEmailContent raw = Ok None <->
   isDispatchEmail (mailSubject parsed) (mailFrom parsed) = false \/
   extractDispatchDetails (mailBody parsed) = None).
Proof.
  intros Hp. unfold parseEmailContent. rewrite Hp. cbn.
  destruct (isDispatchEmail (mailSubject parsed) (mailFrom parsed)); cbn.
  - destruct (extractDispatchDetails (mailBody parsed)); split; intros H.
    + discriminate.
    + destruct H; discriminate.
    + now right.
    + reflexivity.
  - split; intros _; [now left | reflexivity].
Qed.

(** C10.  [parseEmailContent] is total: whatever the input text, and whether
    the MIME parser accepts it or throws, the call returns (a
    [DispatchEvent] or [null]) and never throws to its caller. *)
Theorem parseEmailContent_never_throws (raw : string) :
  exists result : option (DispatchEvent JsDate),
    parseEmailContent raw = Ok result /\
    (forall e, simpleParser raw = Throw e -> result = None).
Proof.
  unfold parseEmailContent.
  destruct (simpleParser raw) as [parsed|e]; cbn.
  - destruct (isDispatchEmail (mailSubject parsed) (mailFrom parsed)); cbn.
    + destruct (extractDispatchDetails (mailBody parsed)); eexists;
        (split; [reflexivity | intros ? ?; discriminate]).
    + eexists; split; [reflexivity | intros ? ?; discriminate].
  - exists None. split; [reflexivity | reflexivity].
Qed.

Ltac cat H s1 s2 c H1 :=
  apply Matches_Cat in H; destruct H as (s1 & s2 & c & -> & H1 & H).

Lemma reads_half (c : ascii) (m : string) :
  eq_char_i "A" c || eq_char_i "P" c = true -> toLowerCase m = toLowerCase "M" ->
  reads "AM" (String c "" ++ m) \/ reads "PM" (String c "" ++ m).
Proof.
  intros Hc Hm. unfold reads. cbn [append toLowerCase]. rewrite Hm.
  apply orb_true_iff in Hc. destruct Hc as [Hc|Hc]; apply Ascii.eqb_eq in Hc;
    rewrite <- Hc; [left | right]; reflexivity.
Qed.

Lemma half_reads (half : string) :
  reads "AM" half \/ reads "PM" half ->
  exists c m, half = (String c "" ++ m)%string /\
              eq_char_i "A" c || eq_char_i "P" c = true /\
              toLowerCase m = toLowerCase "M".
Proof.
  unfold reads. intros H.
  destruct half as [|c m]; [destruct H; discriminate|].
  exists c, m. split; [reflexivity|].
  cbn in H. unfold eq_char_i. cbn.
  destruct H as [H|H]; injection H as Hc Hm; rewrite Hc, Hm; auto.
Qed.

Lemma eventTimeRe_shape (t : string) :
  (exists cs', Matches eventTimeRe t [] cs') <-> timeShape t.
Proof.
  split.
  - intros (cs' & H). unfold eventTimeRe, digit, space in H.
    cat H time s1 c1 Htime. cat H sp1 s2 c2 Hsp1. cat H po s3 c3 Hpo.
    cat H zone s4 c4 Hzone. cat H pc s5 c5 Hpc. cat H sp2 s6 c6 Hsp2.
    cat H on s7 c7 Hon. cat H sp3 date c8 Hsp3.
    apply Matches_Group in Htime. destruct Htime as (c0 & Htime & ->).
    cat Htime hour t1 d1 Hhour. cat Htime colon t2 d2 Hcolon.
    cat Htime minute t3 d3 Hminute. cat Htime sp t4 d4 Hsp.
    cat Htime apc m d5 Hap.
    apply Matches_range_Chr in Hhour. destruct Hhour as (Hlh & Hah & ->).
    apply Matches_lit in Hcolon. destruct Hcolon as [-> ->].
    apply Matches_times_Chr in Hminute. destruct Hminute as (Hlm & Ham & ->).
    apply Matches_Star_Chr in Hsp. destruct Hsp as [Hsp ->].
    apply Matches_Chr in Hap. destruct Hap as (c & -> & Hc & ->).
    apply Matches_lit_i in Htime. destruct Htime as [Hm ->].
    apply Matches_Star_Chr in Hsp1. destruct Hsp1 as [Hsp1 ->].
    apply Matches_lit in Hpo. destruct Hpo as [-> ->].
    apply Matches_Group in Hzone. destruct Hzone as (e0 & Hzone & ->).
    apply Matches_range_Chr in Hzone. destruct Hzone as (Hlz & Haz & ->).
    apply Matches_lit in Hpc. destruct Hpc as [-> ->].
    apply Matches_Star_Chr in Hsp2. destruct Hsp2 as [Hsp2 ->].
    apply Matches_lit_i in Hon. destruct Hon as [Hon ->].
    apply Matches_Star_Chr in Hsp3. destruct Hsp3 as [Hsp3 ->].
    apply Matches_Group in H. destruct H as (f0 & H & ->).
    cat H month u1 g1 Hmonth. cat H sl1 u2 g2 Hsl1. cat H day u3 g3 Hday.
    cat H sl2 year g4 Hsl2.
    apply Matches_times_Chr in Hmonth. destruct Hmonth as (Hlmo & Hamo & ->).
    apply Matches_lit in Hsl1. destruct Hsl1 as [-> ->].
    apply Matches_times_Chr in Hday. destruct Hday as (Hld & Had & ->).
    apply Matches_lit in Hsl2. destruct Hsl2 as [-> ->].
    apply Matches_times_Chr in H. destruct H as (Hly & Hay & ->).
    do 7 eexists. split; [reflexivity|].
    split.
    { exists hour, minute, sp, (String c "" ++ m)%string.
      split; [reflexivity|]. unfold digits, blanks.
      repeat split; auto; [|now apply reads_half].
      assert (String.length hour = 1 \/ String.length hour = 2)%nat as [E|E] by lia;
        [left | right]; auto. }
    unfold blanks, zoneLetters, reads.
    repeat split; auto; [lia|].
    exists month, day, year. unfold digits. repeat split; auto.
  - intros (time & sp1 & zone & sp2 & on & sp3 & date & -> & Htime & Hsp1 & Hzone
            & Hsp2 & Hon & Hsp3 & Hdate).
    destruct Htime as (hour & minute & sp & half & -> & Hhour & Hminute & Hsp & Hhalf).
    destruct Hdate as (month & day & year & -> & Hmonth & Hday & Hyear).
    apply half_reads in Hhalf. destruct Hhalf as (c & m & -> & Hc & Hm).
    destruct Hminute as [Hlm Ham], Hmonth as [Hlmo Hamo], Hday as [Hld Had],
      Hyear as [Hly Hay], Hzone as [Hlz Haz].
    eexists. unfold eventTimeRe, digit, space.
    apply Matches_Cat. do 3 eexists. split; [reflexivity|]. split.
    { apply Matches_Group. eexists. split; [|reflexivity].
      apply Matches_Cat. do 3 eexists. split; [reflexivity|]. split.
      { apply Matches_range_Chr. split; [|split; [|reflexivity]].
        - destruct Hhour as [[E _]|[E _]]; rewrite E; cbn; lia.
        - destruct Hhour as [[_ E]|[_ E]]; exact E. }
      apply Matches_Cat. do 3 eexists. split; [reflexivity|]. split.
      { apply Matches_lit. split; reflexivity. }
      apply Matches_Cat. do 3 eexists. split; [reflexivity|]. split.
      { apply Matches_times_Chr. auto. }
      apply Matches_Cat. do 3 eexists. split; [reflexivity|]. split.
      { apply Matches_Star_Chr. split; [exact Hsp | reflexivity]. }
      apply Matches_Cat. do 3 eexists. split; [reflexivity|]. split.
      { apply Matches_Chr. eauto. }
      apply Matches_lit_i. split; [exact Hm | reflexivity]. }
    apply Matches_Cat. do 3 eexists. split; [reflexivity|]. split.
    { apply Matches_Star_Chr. split; [exact Hsp1 | reflexivity]. }
    apply Matches_Cat. do 3 eexists. split; [reflexivity|]. split.
    { apply Matches_lit. split; reflexivity. }
    apply Matches_Cat. do 3 eexists. split; [reflexivity|]. split.
    { apply Matches_Group. eexists. split; [|reflexivity].
      apply Matches_range_Chr. split; [|split; [exact Haz | reflexivity]].
      destruct Hlz as [E|E]; rewrite E; cbn; lia. }
    apply Matches_Cat. do 3 eexists. split; [reflexivity|]. split.
    { apply Matches_lit. split; reflexivity. }
    apply Matches_Cat. do 3 eexists. split; [reflexivity|]. split.
    { apply Matches_Star_Chr. split; [exact Hsp2 | reflexivity]. }
    apply Matches_Cat. do 3 eexists. split; [reflexivity|]. split.
    { apply Matches_lit_i. split; [exact Hon | reflexivity]. }
    apply Matches_Cat. do 3 eexists. split; [reflexivity|]. split.
    { apply Matches_Star_Chr. split; [exact Hsp3 | reflexivity]. }
    apply Matches_Group. eexists. split; [|reflexivity].
    apply Matches_Cat. do 3 eexists. split; [reflexivity|]. split.
    { apply Matches_times_Chr. auto. }
    apply Matches_Cat. do 3 eexists. split; [reflexivity|]. split.
    { apply Matches_lit. split; reflexivity. }
    apply Matches_Cat. do 3 eexists. split; [reflexivity|]. split.
    { apply Matches_times_Chr. auto. }
    apply Matches_Cat. do 3 eexists. split; [reflexivity|]. split.
    { apply Matches_lit. split; reflexivity. }
    apply Matches_times_Chr. auto.
Qed.

Lemma labelRe_shape (label mid : string) (cs' : captures) :
  Matches (labelRe label) mid [] cs' <->
  exists lab sp opening text closing,
    mid = (lab ++ sp ++ opening ++ text ++ closing)%string /\
    reads label lab /\ blanks sp /\ reads "<strong>" opening /\
    text <> "" /\ all_chars (fun c => negb (eq_char c "<")) text = true /\
    reads "</strong>" closing /\ cs' = [(1%nat, text)].
Proof.
  unfold labelRe, space, noneOf. split.
  - intros H.
    cat H lab s1 c1 Hlab. cat H sp s2 c2 Hsp. cat H opening s3 c3 Hopen.
    cat H text closing c4 Htext.
    apply Matches_lit_i in Hlab. destruct Hlab as [Hlab ->].
    apply Matches_Star_Chr in Hsp. destruct Hsp as [Hsp ->].
    apply Matches_lit_i in Hopen. destruct Hopen as [Hopen ->].
    apply Matches_Group in Htext. destruct Htext as (c0 & Htext & ->).
    apply Matches_plus_Chr in Htext. destruct Htext as (Hne & Htext & ->).
    apply Matches_lit_i in H. destruct H as [Hclose ->].
    exists lab, sp, opening, text, closing. unfold reads, blanks. repeat split; auto.
  - intros (lab & sp & opening & text & closing & -> & Hlab & Hsp & Hopen & Hne & Htext
            & Hclose & ->).
    apply Matches_Cat. do 3 eexists. split; [reflexivity|]. split.
    { apply Matches_lit_i. split; [exact Hlab | reflexivity]. }
    apply Matches_Cat. do 3 eexists. split; [reflexivity|]. split.
    { apply Matches_Star_Chr. split; [exact Hsp | reflexivity]. }
    apply Matches_Cat. do 3 eexists. split; [reflexivity|]. split.
    { apply Matches_lit_i. split; [exact Hopen | reflexivity]. }
    apply Matches_Cat. do 3 eexists. split; [reflexivity|]. split.
    { apply Matches_Group. eexists. split; [|reflexivity].
      apply Matches_plus_Chr. auto. }
    apply Matches_lit_i. split; [exact Hclose | reflexivity].
Qed.

Lemma match_here_boldAfter (label s : string) (m : match_result) :
  match_here (labelRe label) s = Some m -> boldAfter label s (capture 1 m).
Proof.
  intros H. apply match_here_sound in H. destruct H as [-> H].
  apply labelRe_shape in H.
  destruct H as (lab & sp & opening & text & closing & -> & Hlab & Hsp & Hopen & Hne
                 & Htext & Hclose & Hcs).
  unfold capture. rewrite Hcs. cbn [group Nat.eqb].
  exists lab, sp, opening, closing, (m_rest m).
  rewrite !append_assoc. repeat split; auto.
Qed.

Lemma boldAfter_match_here (label s text : string) :
  boldAfter label s text -> match_here (labelRe label) s <> None.
Proof.
  intros (lab & sp & opening & closing & rest & -> & Hlab & Hsp & Hopen & Hne & Htext
          & Hclose).
  replace (lab ++ sp ++ opening ++ text ++ closing ++ rest)%string
    with ((lab ++ sp ++ opening ++ text ++ closing) ++ rest)%string
    by now rewrite !append_assoc.
  apply (@match_here_complete (labelRe label) _ rest [] [(1%nat, text)]).
  apply labelRe_shape. exists lab, sp, opening, text, closing. repeat split; auto.
Qed.

Lemma reads_length (word s : string) : reads word s -> String.length s = String.length word.
Proof.
  unfold reads. intros H. apply (f_equal String.length) in H.
  now rewrite !length_toLowerCase in H.
Qed.

(** a text that reads as a tag begins with [<] *)
Lemma reads_tag (word s : string) :
  reads (String "<" word) s -> exists s', s = String "<" s'.
Proof.
  unfold reads. destruct s as [|c s]; [discriminate|]. cbn. intros [= Hc _].
  exists s. f_equal.
  change (lower_char "<") with "<"%char in Hc. unfold lower_char in Hc.
  destruct (is_upper c) eqn:Eu; [|exact Hc].
  exfalso. unfold is_upper, between in Eu. apply andb_true_iff in Eu.
  destruct Eu as [E1 E2]. apply Nat.leb_le in E1, E2.
  unfold code in *.
  apply (f_equal nat_of_ascii) in Hc. rewrite nat_ascii_embedding in Hc by lia.
  change (nat_of_ascii "<") with 60%nat in Hc. lia.
Qed.

(** a text begins with a label in bold in one way only *)
Lemma boldAfter_unique (label s text text' : string) :
  boldAfter label s text -> boldAfter label s text' -> text = text'.
Proof.
  intros (lab & sp & opening & closing & rest & -> & Hlab & Hsp & Hopen & Hne & Htext
          & Hclose)
         (lab' & sp' & opening' & closing' & rest' & E & Hlab' & Hsp' & Hopen' & Hne'
          & Htext' & Hclose').
  apply append_same_length in E;
    [|now rewrite (reads_length Hlab), (reads_length Hlab')].
  destruct E as [_ E].
  destruct (reads_tag Hopen) as [o Ho], (reads_tag Hopen') as [o' Ho'].
  assert (Hl : String.length opening = String.length opening')
    by now rewrite (reads_length Hopen), (reads_length Hopen').
  subst opening opening'. cbn [append] in E.
  apply (@run_unique is_space) in E; [|assumption|assumption|reflexivity|reflexivity].
  destruct E as [_ E].
  change (String "<" (o ++ text ++ closing ++ rest))%string
    with (String "<" o ++ text ++ closing ++ rest)%string in E.
  change (String "<" (o' ++ text' ++ closing' ++ rest'))%string
    with (String "<" o' ++ text' ++ closing' ++ rest')%string in E.
  apply append_same_length in E; [|exact Hl]. destruct E as [_ E].
  destruct (reads_tag Hclose) as [c Hc], (reads_tag Hclose') as [c' Hc'].
  subst closing closing'. cbn [append] in E.
  apply (@run_unique (fun c => negb (eq_char c "<"))) in E;
    [tauto|assumption|assumption|reflexivity|reflexivity].
Qed.

Lemma exec_labelled (label html : string) (m : match_result) :
  exec (labelRe label) html = Some m -> labelled label html (capture 1 m).
Proof.
  intros H. apply exec_first in H. destruct H as (pre & rest & -> & Hm & Hmin).
  exists pre, rest. split; [reflexivity|]. split; [now apply match_here_boldAfter|].
  intros pre' rest' text' Heq Hl Hb.
  apply boldAfter_match_here in Hb. apply Hb. exact (Hmin pre' rest' Heq Hl).
Qed.

Lemma labelled_exec (label html text : string) :
  labelled label html text ->
  exists m, exec (labelRe label) html = Some m /\ capture 1 m = text.
Proof.
  intros (pre & rest & -> & Hb & Hmin).
  destruct (exec (labelRe label) (pre ++ rest)) as [m|] eqn:E.
  - exists m. split; [reflexivity|].
    apply exec_first in E. destruct E as (pre1 & rest1 & Heq & Hm & Hmin1).
    destruct (Nat.lt_trichotomy (String.length pre1) (String.length pre)) as [Hl|[Hl|Hl]].
    + exfalso. apply (Hmin pre1 rest1 (capture 1 m) Heq Hl).
      now apply match_here_boldAfter.
    + symmetry in Hl. destruct (append_same_length _ _ _ _ Hl Heq) as [_ <-].
      apply (@boldAfter_unique label rest); [now apply match_here_boldAfter | exact Hb].
    + exfalso. apply (boldAfter_match_here Hb). exact (Hmin1 pre rest eq_refl Hl).
  - exfalso. apply (boldAfter_match_here Hb).
    exact (@exec_None (labelRe label) _ E pre rest eq_refl).
Qed.

(** the labelled text is one text *)
Lemma labelled_unique (label html text text' : string) :
  labelled label html text -> labelled label html text' -> text = text'.
Proof.
  intros H H'. apply labelled_exec in H, H'.
  destruct H as (m & E & <-), H' as (m' & E' & <-). congruence.
Qed.

Unset Implicit Arguments.

Lemma parseEventTime_containsTime (timeStr : string) :
  parseEventTime timeStr <> None <-> containsTime timeStr.
Proof.
  unfold parseEventTime, containsTime.
  assert (H := exec_matches eventTimeRe timeStr).
  destruct (exec eventTimeRe timeStr) as [m|].
  - split; [intros _ | discriminate].
    destruct H as [H _]. destruct (H ltac:(discriminate)) as (pre & mid & post & cs' & -> & Hm).
    exists pre, mid, post. split; [reflexivity|]. apply eventTimeRe_shape. eauto.
  - split; [congruence|]. intros (pre & t & post & -> & Ht).
    apply eventTimeRe_shape in Ht. destruct Ht as [cs' Ht].
    exfalso. apply H; [|reflexivity]. eauto 6.
Qed.

Lemma labelledTime_None (label html : string) :
  labelledTime label html = None <->
  ~ exists text, labelled label html text /\ containsTime (trim text).
Proof.
  unfold labelledTime.
  destruct (exec (labelRe label) html) as [m|] eqn:E.
  - split.
    + intros Hn (text & Hl & Hc).
      apply exec_labelled in E. rewrite (@labelled_unique _ _ _ _ Hl E) in Hc.
      apply parseEventTime_containsTime in Hc. contradiction.
    + intros Hn. destruct (parseEventTime (trim (capture 1 m))) eqn:Ep;
        [|reflexivity].
      exfalso. apply Hn. exists (capture 1 m). split; [now apply exec_labelled|].
      apply parseEventTime_containsTime. congruence.
  - split; [|reflexivity]. intros _ (text & Hl & _).
    apply labelled_exec in Hl. destruct Hl as (m & Hm & _). congruence.
Qed.

Lemma labelledTime_Some (label html : string) :
  labelledTime label html <> None <->
  exists text, labelled label html text /\ containsTime (trim text).
Proof.
  unfold labelledTime.
  destruct (exec (labelRe label) html) as [m|] eqn:E.
  - split.
    + intros Hn. exists (capture 1 m). split; [now apply exec_labelled|].
      now apply parseEventTime_containsTime.
    + intros (text & Hl & Hc).
      apply exec_labelled in E. rewrite (@labelled_unique _ _ _ _ Hl E) in Hc.
      now apply parseEventTime_containsTime.
  - split; [congruence|]. intros (text & Hl & _).
    apply labelled_exec in Hl. destruct Hl as (m & Hm & _). congruence.
Qed.

Set Implicit Arguments.

(** C4, as the code has it.  For a raw email that the MIME parser reads as
    [parsed], [parse] returns [null] if and only if classification fails
    (the sender does not contain the vendor dispatch address, or the subject
    contains none of the three phrases, letter case ignored) or the
    normalised body has no text of the time format in bold after its
    "Event will Start at:" or its "Event will End at:" label; otherwise it
    returns an event.  The format is a shape only: one or two digits, a
    colon, two digits, AM or PM, a zone of three or four letters in
    brackets, [On], and a date [dd/dd/dddd], anywhere in the text in bold; no
    digit is checked against a range.  In particular a non-vendor sender
    yields [null], and so does a body in which either label is missing,
    whatever the sender and subject. *)
Theorem parse_null_iff (raw : string) (parsed : ParsedMail)
        (Hparsed : simpleParser raw = Ok parsed) :
  let body := decodeHtmlEntities (mailBody parsed) in
  let timed (label : string) : Prop :=
    exists text, labelled label body text /\ containsTime (trim text) in
  (parseEmailContent raw = Ok None <->
     fromVendor (mailFrom parsed) = false \/
     dispatchSubject (mailSubject parsed) = false \/
     ~ timed "Event will Start at:" \/ ~ timed "Event will End at:") /\
  ((exists ev, parseEmailContent raw = Ok (Some ev)) <->
     fromVendor (mailFrom parsed) = true /\
     dispatchSubject (mailSubject parsed) = true /\
     timed "Event will Start at:" /\ timed "Event will End at:") /\
  (fromVendor (mailFrom parsed) = false -> parseEmailContent raw = Ok None) /\
  (mentions body "Event will Start at:" = false \/
   mentions body "Event will End at:" = false ->
   parseEmailContent raw = Ok None).
Proof.
  intros body timed.
  change "Event will Start at:" with startLabel.
  change "Event will End at:" with endLabel.
  assert (Hiff : parseEmailContent raw = Ok None <->
     fromVendor (mailFrom parsed) = false \/
     dispatchSubject (mailSubject parsed) = false \/
     labelledTime startLabel body = None \/
     labelledTime endLabel body = None).
  { rewrite (parseEmailContent_parsed Hparsed), isDispatchEmail_spec,
      andb_false_iff, extractDispatchDetails_None, extractEventTimes_None.
    fold body. tauto. }
  assert (Hstart := labelledTime_None startLabel body).
  assert (Hend := labelledTime_None endLabel body).
  assert (Hstart' := labelledTime_Some startLabel body).
  assert (Hend' := labelledTime_Some endLabel body).
  fold (timed startLabel) in Hstart, Hstart'. fold (timed endLabel) in Hend, Hend'.
  assert (Htotal : parseEmailContent raw = Ok None \/
                   exists ev, parseEmailContent raw = Ok (Some ev)).
  { unfold parseEmailContent. rewrite Hparsed. cbn.
    destruct (isDispatchEmail (mailSubject parsed) (mailFrom parsed)); cbn; [|now left].
    destruct (extractDispatchDetails (mailBody parsed)); cbn; [right; eauto | now left]. }
  split.
  { clear Hstart' Hend' Htotal. split.
    - intros H. apply Hiff in H. destruct H as [H|[H|[H|H]]]; auto.
      + right; right; left. now apply Hstart.
      + right; right; right. now apply Hend.
    - intros H. apply Hiff. destruct H as [H|[H|[H|H]]]; auto.
      + right; right; left. now apply Hstart.
      + right; right; right. now apply Hend. }
  split; [|split].
  - split.
    + intros (ev & Hev).
      assert (Hn : ~ (fromVendor (mailFrom parsed) = false \/
                      dispatchSubject (mailSubject parsed) = false \/
                      labelledTime startLabel body = None \/
                      labelledTime endLabel body = None))
        by (rewrite <- Hiff, Hev; discriminate).
      repeat split.
      * destruct (fromVendor (mailFrom parsed)); [reflexivity | exfalso; apply Hn; auto].
      * destruct (dispatchSubject (mailSubject parsed));
          [reflexivity | exfalso; apply Hn; auto].
      * apply Hstart'. intros E. apply Hn. auto.
      * apply Hend'. intros E. apply Hn. auto.
    + intros (Hv & Hs & Ht1 & Ht2). destruct Htotal as [Hn|Hev]; [|exact Hev].
      apply Hiff in Hn. apply Hstart' in Ht1. apply Hend' in Ht2.
      destruct Hn as [Hn|[Hn|[Hn|Hn]]]; congruence.
  - intros H. apply Hiff. now left.
  - intros [H|H]; apply Hiff; right; right; [left|right];
      apply labelledTime_mentions; exact H.
Qed.

(** *** Further properties of the parser *)

Unset Implicit Arguments.

Lemma exec_lit_i_mentions (p : string) (r : regex) (html : string) (m : match_result) :
  exec (lit_i p +++ r) html = Some m -> mentions html p = true.
Proof.
  apply exec_includes. intros s m' H.
  unfold match_here in H. cbn [rmatch] in H.
  eapply rmatch_lit_i_startsWith; exact H.
Qed.

Lemma exec_lit_i_None (p : string) (r : regex) (html : string) :
  mentions html p = false -> exec (lit_i p +++ r) html = None.
Proof.
  intros H. destruct (exec (lit_i p +++ r) html) eqn:E; [|reflexivity].
  apply exec_lit_i_mentions in E. congruence.
Qed.

Lemma matchAll_None (r : regex) (s : string) :
  exec r s = None -> matchAll r s = [].
Proof. intros H. unfold matchAll. cbn [matchAll_fuel]. now rewrite H. Qed.

Lemma extractEventTimes_Some (html : string) (t : EventTimes) :
  extractEventTimes html = Some t ->
  exists startParsed endParsed,
    labelledTime startLabel html = Some startParsed /\
    labelledTime endLabel html = Some endParsed /\
    t = {| ets_eventDate := et_date startParsed;
           ets_startTime := et_date startParsed;
           ets_endTime := et_date endParsed;
           ets_timezone := et_timezone startParsed |}.
Proof.
  unfold extractEventTimes, labelledTime.
  destruct (exec (labelRe startLabel) html) as [ms|]; [|discriminate].
  destruct (exec (labelRe endLabel) html) as [me|]; [|discriminate].
  destruct (parseEventTime (trim (capture 1 ms))) as [sp|]; [|discriminate].
  destruct (parseEventTime (trim (capture 1 me))) as [ep|]; [|discriminate].
  intros [= <-]. eauto.
Qed.

Lemma extractEventTimes_labelled (html : string) (startParsed endParsed : EventTime) :
  labelledTime startLabel html = Some startParsed ->
  labelledTime endLabel html = Some endParsed ->
  extractEventTimes html =
  Some {| ets_eventDate := et_date startParsed;
          ets_startTime := et_date startParsed;
          ets_endTime := et_date endParsed;
          ets_timezone := et_timezone startParsed |}.
Proof.
  unfold extractEventTimes, labelledTime.
  destruct (exec (labelRe startLabel) html) as [ms|]; [|discriminate].
  destruct (exec (labelRe endLabel) html) as [me|]; [|discriminate].
  intros -> ->. reflexivity.
Qed.

(** the definitions, as equations *)
Lemma extractDispatchDetails_eq (html : string) :
  extractDispatchDetails html =
  match extractEventTimes (decodeHtmlEntities html) with
  | None => None
  | Some eventTimes =>
      Some {| dd_dispatchType := extractDispatchType (decodeHtmlEntities html);
              dd_times := eventTimes;
              dd_facilities := extractFacilities (decodeHtmlEntities html) |}
  end.
Proof. reflexivity. Qed.

Lemma extractFacilities_eq (html : string) :
  extractFacilities html =
  match List.find (fun table => includes table "Company Name" &&
                                includes table "Facility Name")
                  (matchAll tableRe html) with
  | None => []
  | Some facilitiesTable => parseRows (List.tl (matchAll rowRe facilitiesTable))
  end.
Proof. reflexivity. Qed.

Lemma extractDispatchType_eq (html : string) :
  extractDispatchType html =
  match exec dispatchForRe html with
  | Some m => trim (capture 1 m)
  | None =>
      match exec informedRe html with
      | Some m => trim (capture 1 m)
      | None => "Unknown Dispatch"
      end
  end.
Proof. reflexivity. Qed.

Lemma parseEmailContent_Ok (raw : string) (parsed : ParsedMail) :
  simpleParser raw = Ok parsed ->
  parseEmailContent raw =
  if isDispatchEmail (mailSubject parsed) (mailFrom parsed)
  then match extractDispatchDetails (mailBody parsed) with
       | None => Ok None
       | Some d =>
           Ok (Some {| messageId := or_else (pm_messageId parsed) "";
                       subject := mailSubject parsed;
                       from := mailFrom parsed;
                       dispatchType := dd_dispatchType d;
                       eventDate := ets_eventDate (dd_times d);
                       startTime := ets_startTime (dd_times d);
                       endTime := ets_endTime (dd_times d);
                       timezone := ets_timezone (dd_times d);
                       facilities := dd_facilities d;
                       rawContent := raw |})
       end
  else Ok None.
Proof.
  intros Hp. unfold parseEmailContent. rewrite Hp. cbn.
  destruct (isDispatchEmail (mailSubject parsed) (mailFrom parsed)); cbn; [|reflexivity].
  destruct (extractDispatchDetails (mailBody parsed)); reflexivity.
Qed.

Lemma parseEmailContent_Throw (raw : string) (e : MailError) :
  simpleParser raw = Throw e -> parseEmailContent raw = Ok None.
Proof. intros Hp. unfold parseEmailContent. rewrite Hp. reflexivity. Qed.

Lemma extractDispatchDetails_Some (html : string) (d : DispatchDetails) :
  extractDispatchDetails html = Some d ->
  exists t, extractEventTimes (decodeHtmlEntities html) = Some t /\
            d = {| dd_dispatchType := extractDispatchType (decodeHtmlEntities html);
                   dd_times := t;
                   dd_facilities := extractFacilities (decodeHtmlEntities html) |}.
Proof.
  rewrite extractDispatchDetails_eq.
  destruct (extractEventTimes (decodeHtmlEntities html)) as [t|]; [|discriminate].
  intros [= <-]. eauto.
Qed.

(** the event that [parseEmailContent] assembles *)
Definition eventOf (raw : string) (parsed : ParsedMail) (dispatchType : string)
           (startParsed endParsed : EventTime) (facilities : list DispatchFacility)
  : DispatchEvent JsDate :=
  {| messageId := or_else (pm_messageId parsed) "";
     subject := mailSubject parsed;
     from := mailFrom parsed;
     dispatchType := dispatchType;
     eventDate := et_date startParsed;
     startTime := et_date startParsed;
     endTime := et_date endParsed;
     timezone := et_timezone startParsed;
     facilities := facilities;
     rawContent := raw |}.

Lemma parseEmailContent_classified (raw : string) (parsed : ParsedMail) :
  simpleParser raw = Ok parsed ->
  isDispatchEmail (mailSubject parsed) (mailFrom parsed) = true ->
  let body := decodeHtmlEntities (mailBody parsed) in
  parseEmailContent raw =
  match labelledTime startLabel body, labelledTime endLabel body with
  | Some startParsed, Some endParsed =>
      Ok (Some (eventOf raw parsed (extractDispatchType body) startParsed endParsed
                        (extractFacilities body)))
  | _, _ => Ok None
  end.
Proof.
  intros Hp Hc body. rewrite (@parseEmailContent_Ok raw parsed Hp), Hc.
  destruct (extractDispatchDetails (mailBody parsed)) as [[ty t0 fs]|] eqn:Hd.
  - cbn [dd_dispatchType dd_times dd_facilities].
    destruct t0 as [t1 t2 t3 t4].
    cbn [ets_eventDate ets_startTime ets_endTime ets_timezone].
    apply extractDispatchDetails_Some in Hd. fold body in Hd.
    destruct Hd as (t & Ht & Hd). injection Hd as -> <- ->.
    apply extractEventTimes_Some in Ht. destruct Ht as (sp & ep & Hs & He & Ht).
    injection Ht as -> -> -> ->. rewrite Hs, He. reflexivity.
  - apply extractDispatchDetails_None, extractEventTimes_None in Hd. fold body in Hd.
    destruct Hd as [Hd|Hd]; rewrite Hd; [reflexivity|].
    destruct (labelledTime startLabel body); reflexivity.
Qed.

Lemma parseEmailContent_rawContent (raw : string) (ev : DispatchEvent JsDate) :
  parseEmailContent raw = Ok (Some ev) -> rawContent ev = raw.
Proof.
  intros H. destruct (simpleParser raw) as [parsed|e] eqn:Hp.
  2:{ rewrite (parseEmailContent_Throw raw e Hp) in H. discriminate H. }
  rewrite (parseEmailContent_Ok raw parsed Hp) in H.
  destruct (isDispatchEmail (mailSubject parsed) (mailFrom parsed)); [|discriminate H].
  destruct (extractDispatchDetails (mailBody parsed)) as [d|]; [|discriminate H].
  injection H as <-. reflexivity.
Qed.

(** X17.  What a returned event holds.  When [parseEmailContent] returns an event,
    the MIME parser accepted the text, the mail is classified as a vendor
    dispatch, and the event carries the mail's identification, the raw text
    unchanged, the two labelled times of the normalised body, the time zone
    of the start time (the end time's zone is dropped), and an event date
    that is the start time. *)
Theorem parseEmailContent_event (raw : string) (ev : DispatchEvent JsDate)
        (Hevent : parseEmailContent raw = Ok (Some ev)) :
  exists parsed startParsed endParsed,
    let body := decodeHtmlEntities (mailBody parsed) in
    simpleParser raw = Ok parsed /\
    fromVendor (mailFrom parsed) = true /\ dispatchSubject (mailSubject parsed) = true /\
    labelledTime startLabel body = Some startParsed /\
    labelledTime endLabel body = Some endParsed /\
    ev = {| messageId := or_else (pm_messageId parsed) "";
            subject := mailSubject parsed;
            from := mailFrom parsed;
            dispatchType := extractDispatchType body;
            eventDate := et_date startParsed;
            startTime := et_date startParsed;
            endTime := et_date endParsed;
            timezone := et_timezone startParsed;
            facilities := extractFacilities body;
            rawContent := raw |}.
Proof.
  destruct (simpleParser raw) as [parsed|e] eqn:Hp.
  2:{ rewrite (@parseEmailContent_Throw raw e Hp) in Hevent. discriminate Hevent. }
  destruct (isDispatchEmail (mailSubject parsed) (mailFrom parsed)) eqn:Hc.
  2:{ rewrite (@parseEmailContent_Ok raw parsed Hp), Hc in Hevent. discriminate Hevent. }
  rewrite (@parseEmailContent_classified raw parsed Hp Hc) in Hevent.
  rewrite isDispatchEmail_spec in Hc. apply andb_true_iff in Hc. destruct Hc as [Hv Hd].
  exists parsed.
  destruct (labelledTime startLabel (decodeHtmlEntities (mailBody parsed))) as [sp|]
    eqn:Hs; [|discriminate Hevent].
  destruct (labelledTime endLabel (decodeHtmlEntities (mailBody parsed))) as [ep|]
    eqn:He; [|discriminate Hevent].
  exists sp, ep. injection Hevent as <-. cbv zeta.
  split; [reflexivity|]. split; [exact Hv|]. split; [exact Hd|].
  split; [exact Hs|]. split; [exact He | reflexivity].
Qed.

(** X18.  A classified mail whose normalised body carries both labelled times
    always yields an event, with defaults for what is missing: without any
    [<table] the facility list is empty, and without either of the two
    dispatch-type labels the type is [Unknown Dispatch]. *)
Theorem parseEmailContent_defaults (raw : string) (parsed : ParsedMail)
        (startParsed endParsed : EventTime)
        (Hparsed : simpleParser raw = Ok parsed)
        (Hvendor : fromVendor (mailFrom parsed) = true)
        (Hsubject : dispatchSubject (mailSubject parsed) = true)
        (Hstart : labelledTime startLabel (decodeHtmlEntities (mailBody parsed))
                  = Some startParsed)
        (Hend : labelledTime endLabel (decodeHtmlEntities (mailBody parsed))
                = Some endParsed) :
  let body := decodeHtmlEntities (mailBody parsed) in
  exists dispatchType facilities,
    parseEmailContent raw =
    Ok (Some {| messageId := or_else (pm_messageId parsed) "";
                subject := mailSubject parsed;
                from := mailFrom parsed;
                dispatchType := dispatchType;
                eventDate := et_date startParsed;
                startTime := et_date startParsed;
                endTime := et_date endParsed;
                timezone := et_timezone startParsed;
                facilities := facilities;
                rawContent := raw |}) /\
    (mentions body "<table" = false -> facilities = []) /\
    (mentions body "Dispatch Alert For:" = false ->
     mentions body "has informed CPower of a" = false ->
     dispatchType = "Unknown Dispatch").
Proof.
  intros body.
  assert (Hc : isDispatchEmail (mailSubject parsed) (mailFrom parsed) = true).
  { rewrite isDispatchEmail_spec, Hvendor, Hsubject. reflexivity. }
  exists (extractDispatchType body), (extractFacilities body).
  split; [|split].
  - rewrite (@parseEmailContent_classified raw parsed Hparsed Hc), Hstart, Hend.
    reflexivity.
  - intros Ht. rewrite extractFacilities_eq.
    rewrite (@matchAll_None tableRe body (@exec_lit_i_None _ _ body Ht)).
    reflexivity.
  - intros H1 H2. rewrite extractDispatchType_eq.
    rewrite (@exec_lit_i_None _ _ body H1 : exec dispatchForRe body = None).
    rewrite (@exec_lit_i_None _ _ body H2 : exec informedRe body = None).
    reflexivity.
Qed.

(** **** Texts that the decoding leaves alone *)

(** the character [c] does not occur in [s] *)
Definition lacks (c : ascii) (s : string) : bool :=
  all_chars (fun x => negb (eq_char c x)) s.

Lemma replace_fuel_no_match (r : regex) (rep : string) (c : ascii) :
  (forall s, lacks c s = true -> match_here r s = None) ->
  forall fuel s, lacks c s = true -> replace_fuel fuel r rep s = s.
Proof.
  intros Hr fuel. induction fuel as [|fuel IH]; intros s Hs; [reflexivity|].
  cbn [replace_fuel]. rewrite (Hr _ Hs).
  destruct s as [|x s']; [reflexivity|].
  unfold lacks in Hs. cbn [all_chars] in Hs.
  apply andb_true_iff in Hs. destruct Hs as [_ Hs].
  now rewrite (IH _ Hs).
Qed.

Lemma rmatch_first (A : Type) (c : ascii) (r : regex) (s : string) (cs : captures)
      (k : string -> captures -> option A) :
  lacks c s = true -> rmatch (Chr (eq_char c) +++ r) s cs k = None.
Proof.
  intros Hs. cbn [rmatch].
  destruct s as [|x s']; [reflexivity|].
  unfold lacks in Hs. cbn [all_chars] in Hs.
  apply andb_true_iff in Hs. destruct Hs as [Hx _].
  apply negb_true_iff in Hx. now rewrite Hx.
Qed.

Lemma replace_lacks (c : ascii) (r : regex) (rep s : string) :
  lacks c s = true -> replace s (Chr (eq_char c) +++ r) rep = s.
Proof.
  intros Hs. unfold replace.
  apply (replace_fuel_no_match (Chr (eq_char c) +++ r) rep c); [|exact Hs].
  intros s0 Hs0. apply rmatch_first. exact Hs0.
Qed.

Lemma replace_softBreak (s : string) :
  lacks "=" s = true -> replace s softBreakRe "" = s.
Proof.
  intros Hs. unfold replace.
  apply (replace_fuel_no_match softBreakRe "" "="); [|exact Hs].
  intros s0 Hs0.
  exact (rmatch_first _ "=" Eps s0 []
           (fun s1 c1 => rmatch (Opt (lit CR) +++ lit LF) s1 c1
                           (fun rest cs => Some (MatchResult (consumed s0 rest) cs rest)))
           Hs0).
Qed.

(** X19.  A text with no [=] and no [&] is returned as it is. *)
Theorem decodeHtmlEntities_plain (html : string)
        (Hequals : lacks "=" html = true) (Hamp : lacks "&" html = true) :
  decodeHtmlEntities html = html.
Proof.
  unfold decodeHtmlEntities. cbn [lit].
  rewrite (replace_lacks "=" _ "=" html Hequals).
  rewrite (replace_softBreak html Hequals).
  rewrite !(fun r rep => replace_lacks "&" r rep html Hamp).
  reflexivity.
Qed.

Set Implicit Arguments.

End WithRuntime.

(** *** A concrete run

    A stand-in MIME parser that reads the whole text as the HTML part of a
    mail from the vendor with a dispatch subject. *)
Definition vendorMail (raw : string) : Result unit ParsedMail :=
  Ok {| pm_messageId := Some "<m1@mg.cpowerenergymanagement.com>";
        pm_subject := Some "URGENT: National Grid Targeted Dispatch Event";
        pm_from_text := Some "CPowerDispatch@mg.cpowerenergymanagement.com";
        pm_html := Some raw;
        pm_textAsHtml := None |}.

Definition bodyWithoutEnd : string :=
  "Event will Start at: <strong>05:00 PM (EDT) On 06/24/2025</strong>".

(** a body with both times, no type label and no table *)
Definition bodyWithTimes : string :=
  "Event will Start at: <strong>05:00 PM (EDT) On 06/24/2025</strong> " ++
  "Event will End at: <strong>08:00 PM (EDT) On 06/24/2025</strong>".

Definition sampleMail : ParsedMail :=
  {| pm_messageId := Some "<m1@mg.cpowerenergymanagement.com>";
     pm_subject := Some "URGENT: National Grid Targeted Dispatch Event";
     pm_from_text := Some "CPowerDispatch@mg.cpowerenergymanagement.com";
     pm_html := Some bodyWithTimes;
     pm_textAsHtml := None |}.

Definition sampleStart : EventTime string :=
  {| et_date := "06/24/2025 05:00 PM"; et_timezone := "EDT" |}.
Definition sampleEnd : EventTime string :=
  {| et_date := "06/24/2025 08:00 PM"; et_timezone := "EDT" |}.

Definition sampleEvent : DispatchEvent string :=
  {| messageId := "<m1@mg.cpowerenergymanagement.com>";
     subject := "URGENT: National Grid Targeted Dispatch Event";
     from := "CPowerDispatch@mg.cpowerenergymanagement.com";
     dispatchType := "Unknown Dispatch";
     eventDate := "06/24/2025 05:00 PM";
     startTime := "06/24/2025 05:00 PM";
     endTime := "06/24/2025 08:00 PM";
     timezone := "EDT";
     facilities := [];
     rawContent := bodyWithTimes |}.

Lemma sampleEvent_parsed :
  parseEmailContent (fun s : string => s) vendorMail bodyWithTimes = Ok (Some sampleEvent).
Proof. vm_compute. reflexivity. Qed.

Lemma parse_null_iff_witness :
  parseEmailContent (fun s : string => s) vendorMail bodyWithoutEnd = Ok None /\
  (exists text,
     labelled startLabel (decodeHtmlEntities bodyWithTimes) text /\
     containsTime (trim text)) /\
  (exists text,
     labelled endLabel (decodeHtmlEntities bodyWithTimes) text /\
     containsTime (trim text)).
Proof.
  split.
  - apply (proj2 (proj2 (proj2
             (@parse_null_iff string (fun s : string => s) unit vendorMail
                bodyWithoutEnd _ eq_refl)))).
    right. vm_compute. reflexivity.
  - apply (proj1 (proj1 (proj2
             (@parse_null_iff string (fun s : string => s) unit vendorMail
                bodyWithTimes _ eq_refl)))).
    exists sampleEvent. vm_compute. reflexivity.
Defined.

(** the time of the sample has the shape, part by part *)
Lemma sampleTime_shape : timeShape "05:00 PM (EDT) On 06/24/2025".
Proof.
  exists "05:00 PM", " ", "EDT", " ", "On", " ", "06/24/2025".
  split; [reflexivity|]. split.
  { exists "05", "00", " ", "PM". unfold digits, blanks, reads.
    split; [reflexivity|]. split; [right; split; reflexivity|].
    split; [split; reflexivity|]. split; [reflexivity|]. right. reflexivity. }
  unfold blanks, zoneLetters, reads.
  split; [reflexivity|]. split; [split; [left|]; reflexivity|].
  split; [reflexivity|]. split; [reflexivity|]. split; [reflexivity|].
  exists "06", "24", "2025". unfold digits. repeat split; reflexivity.
Qed.

(** C4, as stated, fails on the code: a vendor mail whose times are
    [25:99 PM (EDT) On 13/45/2025] and [26:99 PM (EDT) On 13/45/2025], which
    no clock and no calendar has, yields an event; its dates are whatever
    [new Date] makes of these texts. *)
Definition bodyWithBadTimes : string :=
  "Event will Start at: <strong>25:99 PM (EDT) On 13/45/2025</strong> " ++
  "Event will End at: <strong>26:99 PM (EDT) On 13/45/2025</strong>".

Lemma unparseable_time_yields_event :
  parseEmailContent (fun s : string => s) vendorMail bodyWithBadTimes =
  Ok (Some {| messageId := "<m1@mg.cpowerenergymanagement.com>";
              subject := "URGENT: National Grid Targeted Dispatch Event";
              from := "CPowerDispatch@mg.cpowerenergymanagement.com";
              dispatchType := "Unknown Dispatch";
              eventDate := "13/45/2025 25:99 PM";
              startTime := "13/45/2025 25:99 PM";
              endTime := "13/45/2025 26:99 PM";
              timezone := "EDT";
              facilities := [];
              rawContent := bodyWithBadTimes |}).
Proof. vm_compute. reflexivity. Qed.

Lemma sampleMail_times :
  labelledTime (fun s : string => s) startLabel (decodeHtmlEntities (mailBody sampleMail))
  = Some sampleStart /\
  labelledTime (fun s : string => s) endLabel (decodeHtmlEntities (mailBody sampleMail))
  = Some sampleEnd.
Proof. split; vm_compute; reflexivity. Qed.

Lemma parseEmailContent_event_witness :
  exists parsed startParsed endParsed,
    vendorMail bodyWithTimes = Ok parsed /\
    labelledTime (fun s : string => s) startLabel (decodeHtmlEntities (mailBody parsed))
    = Some startParsed /\
    labelledTime (fun s : string => s) endLabel (decodeHtmlEntities (mailBody parsed))
    = Some endParsed /\
    startTime sampleEvent = et_date startParsed /\
    endTime sampleEvent = et_date endParsed /\
    timezone sampleEvent = et_timezone startParsed.
Proof.
  destruct (parseEmailContent_event string (fun s : string => s) unit vendorMail
              bodyWithTimes sampleEvent sampleEvent_parsed)
    as (parsed & sp & ep & Hp & _ & _ & Hs & He & Hev).
  exists parsed, sp, ep.
  split; [exact Hp|]. split; [exact Hs|]. split; [exact He|].
  rewrite Hev. split; [reflexivity|]. split; reflexivity.
Defined.

Lemma parseEmailContent_defaults_witness :
  exists ev,
    parseEmailContent (fun s : string => s) vendorMail bodyWithTimes = Ok (Some ev) /\
    dispatchType ev = "Unknown Dispatch" /\ facilities ev = [].
Proof.
  destruct (parseEmailContent_defaults string (fun s : string => s) unit vendorMail
              bodyWithTimes sampleMail sampleStart sampleEnd eq_refl
              ltac:(vm_compute; reflexivity) ltac:(vm_compute; reflexivity)
              (proj1 sampleMail_times) (proj2 sampleMail_times))
    as (ty & fs & Hev & Hfs & Hty).
  eexists. split; [exact Hev|]. split.
  - apply Hty; vm_compute; reflexivity.
  - apply Hfs; vm_compute; reflexivity.
Defined.

Lemma decodeHtmlEntities_plain_witness :
  decodeHtmlEntities "<td>Facility A</td>" = "<td>Facility A</td>".
Proof.
  apply decodeHtmlEntities_plain; vm_compute; reflexivity.
Defined.

End Parser.

(* ================================================================== *)
(** * ProcessedEmailTracker *)
(* ================================================================== *)

Module Ledger.
Import Js.
Local Open Scope Z_scope.

Record ProcessedEmail : Type := {
  messageId : string;
  contentHash : string;
  processedAt : Z;
  subject : string;
  from : string
}.

(** The ledger file.  [JSON.stringify] and [JSON.parse] are taken as inverse
    of each other, so a readable file is the list of its records. *)
Inductive LedgerFile : Type :=
| Missing                                   (* readFile fails with ENOENT *)
| Unreadable                                (* another read error, or no JSON array *)
| Stored (entries : list ProcessedEmail).

(** The storage: the file, and whether it accepts a write (the write of the
    temporary file followed by the rename either happens as a whole or leaves
    the file as it was). *)
Record Disk : Type := { file : LedgerFile; writable : bool }.

Inductive IoError : Type := EIO.

Record Tracker : Type := { processed : Map ProcessedEmail }.

(** [new ProcessedEmailTracker()] *)
Definition newTracker : Tracker := {| processed := [] |}.

Section WithHash.

(** [crypto.createHash('sha256').update(content).digest('hex')] *)
Variable generateHash : string -> string.

(** the zone of the process *)
Variable LocalTZA : Z -> bool -> Z.

(** [const d = new Date(); d.setDate(d.getDate() - 30)] *)
Definition thirtyDaysBefore (now : Z) : Z := addLocalDays LocalTZA (-30) now.

Definition save (t : Tracker) (d : Disk) : Disk * Result IoError unit :=
  if writable d
  then ({| file := Stored (map_values (processed t)); writable := true |}, Ok tt)
  else (d, Throw EIO).

Definition isProcessed (t : Tracker) (messageId content : string) : bool :=
  if map_has (processed t) messageId then true
  else
    let contentHash := generateHash content in
    existsb (fun entry => String.eqb (Ledger.contentHash entry) contentHash)
            (map_values (processed t)).

(** [now] is the value of [new Date()] during the call. *)
Definition markAsProcessed (now : Z) (messageId subject from content : string)
           (t : Tracker) (d : Disk) : Tracker * Disk * Result IoError unit :=
  let contentHash := generateHash content in
  let entry := {| messageId := messageId;
                  contentHash := contentHash;
                  processedAt := now;
                  subject := subject;
                  from := from |} in
  let t' := {| processed := map_set (processed t) messageId entry |} in
  let (d', r) := save t' d in
  (t', d', r).

(** One turn of the loop of [cleanOldEntries] over the entries of the map. *)
Definition cleanStep (thirtyDaysAgo : Z) (acc : Map ProcessedEmail * nat)
           (kv : string * ProcessedEmail) : Map ProcessedEmail * nat :=
  if processedAt (snd kv) <? thirtyDaysAgo
  then (map_delete (fst acc) (fst kv), S (snd acc))
  else acc.

Definition cleanOldEntries (now : Z) (t : Tracker) (d : Disk)
  : Tracker * Disk * Result IoError unit :=
  let thirtyDaysAgo := thirtyDaysBefore now in
  let (m, cleaned) :=
    fold_left (cleanStep thirtyDaysAgo) (processed t) (processed t, O) in
  let t' := {| processed := m |} in
  if (0 <? cleaned)%nat
  then let (d', r) := save t' d in (t', d', r)
  else (t', d, Ok tt).

(** Loading: every failure inside the [try] is caught (and logged unless it
    is ENOENT), so the call always returns. *)
Definition initialize (now : Z) (t : Tracker) (d : Disk) : Tracker * Disk :=
  match file d with
  | Missing => (t, d)
  | Unreadable => (t, d)
  | Stored entries =>
      let t1 := {| processed :=
                     fold_left (fun m entry => map_set m (messageId entry) entry)
                               entries (processed t) |} in
      let '(t2, d2, _) := cleanOldEntries now t1 d in
      (t2, d2)
  end.

Fixpoint insertDate (x : Z) (l : list Z) : list Z :=
  match l with
  | [] => [x]
  | y :: l' => if x <=? y then x :: l else y :: insertDate x l'
  end.

(** [dates.sort((a, b) => a.getTime() - b.getTime())] *)
Definition sortDates (l : list Z) : list Z := fold_right insertDate [] l.

Record Stats : Type := {
  total : nat;
  oldestDate : option Z;
  newestDate : option Z
}.

Definition getStats (t : Tracker) : Stats :=
  let entries := map_values (processed t) in
  match entries with
  | [] => {| total := 0; oldestDate := None; newestDate := None |}
  | _ =>
      let dates := sortDates (List.map processedAt entries) in
      {| total := List.length entries;
         oldestDate := List.hd_error dates;
         newestDate := List.hd_error (List.rev dates) |}
  end.

(** [reset]: [unlink] on a missing file is swallowed. *)
Definition reset (t : Tracker) (d : Disk) : Tracker * Disk * Result IoError unit :=
  let t' := {| processed := [] |} in
  match file d with
  | Missing => (t', d, Ok tt)
  | _ => if writable d
         then (t', {| file := Missing; writable := true |}, Ok tt)
         else (t', d, Throw EIO)
  end.

(** *** The invariant of the map: one entry per message id, filed under it *)

Definition keyed (m : Map ProcessedEmail) : Prop :=
  NoDup (map_keys m) /\ Forall (fun kv => messageId (snd kv) = fst kv) m.

Definition wf (t : Tracker) : Prop := keyed (processed t).

(** the entries recorded for a message id *)
Definition entriesFor (t : Tracker) (id : string) : list ProcessedEmail :=
  List.filter (fun e => String.eqb (messageId e) id) (map_values (processed t)).

(** the map as loaded from the records of a file, before pruning *)
Definition loadEntries (entries : list ProcessedEmail) (m : Map ProcessedEmail)
  : Map ProcessedEmail :=
  fold_left (fun m entry => map_set m (messageId entry) entry) entries m.

Definition isOld (now : Z) (e : ProcessedEmail) : bool :=
  processedAt e <? thirtyDaysBefore now.

Definition recent (now : Z) (kv : string * ProcessedEmail) : bool :=
  negb (isOld now (snd kv)).

(** The cutoff in plain arithmetic.  The local time thirty calendar days
    before [now] is read back with the offset the zone has there, so the
    cutoff is thirty times twenty-four hours before [now], moved by the
    difference between the two offsets. *)
Definition offsetShift (now : Z) : Z :=
  LocalTZA now true - LocalTZA (now + LocalTZA now true - 30 * 86400000) false.

Definition cutoff30 (now : Z) : Z := now - 30 * 86400000 + offsetShift now.

Lemma thirtyDaysBefore_cutoff30 (now : Z) : thirtyDaysBefore now = cutoff30 now.
Proof.
  unfold thirtyDaysBefore, addLocalDays, UTC, LocalTime, cutoff30, offsetShift, msPerDay.
  replace (now + LocalTZA now true + -30 * (24 * 60 * 60 * 1000))
    with (now + LocalTZA now true - 30 * 86400000) by lia.
  lia.
Qed.

(** *** Invariant preservation *)

Lemma keyed_nil : keyed [].
Proof. split; constructor. Qed.

Lemma keyed_set (m : Map ProcessedEmail) (e : ProcessedEmail) :
  keyed m -> keyed (map_set m (messageId e) e).
Proof.
  intros [Hnd Hk]. split.
  - now apply map_set_NoDup.
  - apply Forall_forall. intros kv Hin.
    apply map_set_In_inv in Hin. destruct Hin as [->|Hin]; [reflexivity|].
    rewrite Forall_forall in Hk. now apply Hk.
Qed.

Lemma keyed_loadEntries (entries : list ProcessedEmail) (m : Map ProcessedEmail) :
  keyed m -> keyed (loadEntries entries m).
Proof.
  revert m. induction entries as [|e entries IH]; intros m Hm; cbn.
  - exact Hm.
  - apply IH, keyed_set, Hm.
Qed.

Lemma keyed_filter (f : string * ProcessedEmail -> bool) (m : Map ProcessedEmail) :
  keyed m -> keyed (List.filter f m).
Proof.
  intros [Hnd Hk]. split.
  - unfold map_keys in *. induction m as [|kv m IH]; cbn; [constructor|].
    inversion Hnd as [|? ? Hni Hnd']; subst.
    inversion Hk as [|? ? _ Hk']; subst.
    destruct (f kv); cbn; [|now apply IH].
    constructor; [|now apply IH].
    intros Hin. apply Hni. apply in_map_iff in Hin.
    destruct Hin as [x [Hx Hin]]. apply filter_In in Hin.
    apply in_map_iff. exists x. tauto.
  - apply Forall_forall. intros kv Hin. apply filter_In in Hin.
    rewrite Forall_forall in Hk. now apply Hk.
Qed.

Lemma wf_newTracker : wf newTracker.
Proof. exact keyed_nil. Qed.

Lemma wf_markAsProcessed (now : Z) (id subj frm content : string)
      (t : Tracker) (d : Disk) :
  wf t -> wf (fst (fst (markAsProcessed now id subj frm content t d))).
Proof.
  intros Hwf. unfold markAsProcessed.
  destruct (save _ d) as [d' r]. cbn.
  exact (keyed_set {| messageId := id; contentHash := generateHash content;
                      processedAt := now; subject := subj; from := frm |} Hwf).
Qed.

Lemma no_entry_for_absent_key (m : Map ProcessedEmail) (id : string) :
  Forall (fun kv => messageId (snd kv) = fst kv) m ->
  ~ In id (map_keys m) ->
  List.filter (fun e' => String.eqb (messageId e') id) (map_values m) = [].
Proof.
  induction m as [|[k v] m IH]; cbn; intros Hkey Hni; [reflexivity|].
  inversion Hkey as [|? ? Hkv Hkey']; subst. cbn in Hkv.
  destruct (String.eqb (messageId v) id) eqn:E.
  - apply String.eqb_eq in E. exfalso. apply Hni. left. congruence.
  - apply IH; [assumption | tauto].
Qed.

(** under the invariant, the entries carrying an id are the one filed under it *)
Lemma keyed_single_entry (m : Map ProcessedEmail) (id : string) (e : ProcessedEmail) :
  keyed m -> map_get m id = Some e ->
  List.filter (fun e' => String.eqb (messageId e') id) (map_values m) = [e].
Proof.
  intros [Hnd Hkey] Hget.
  induction m as [|[k v] m IH]; cbn in *; [discriminate|].
  inversion Hnd as [|? ? Hni Hnd']; subst.
  inversion Hkey as [|? ? Hkv Hkey']; subst. cbn in Hkv.
  destruct (String.eqb k id) eqn:Ek.
  - injection Hget as ->. apply String.eqb_eq in Ek.
    rewrite Hkv, Ek, String.eqb_refl. f_equal.
    apply no_entry_for_absent_key; [assumption | subst k; exact Hni].
  - rewrite Hkv, Ek. now apply IH.
Qed.

(** *** The pruning loop is a filter *)

Lemma clean_loop (now : Z) (l kept : Map ProcessedEmail) (c : nat) :
  NoDup (map_keys (kept ++ l)) ->
  fold_left (cleanStep (thirtyDaysBefore now)) l ((kept ++ l)%list, c) =
  ((kept ++ List.filter (recent now) l)%list,
   (c + List.length (List.filter (fun kv => isOld now (snd kv)) l))%nat).
Proof.
  revert kept c.
  induction l as [|[k e] l IH]; intros kept c Hnd; cbn [fold_left List.filter].
  - cbn. now rewrite Nat.add_0_r.
  - change (cleanStep (thirtyDaysBefore now) ((kept ++ (k, e) :: l)%list, c) (k, e))
      with (if isOld now e
            then (map_delete (kept ++ (k, e) :: l) k, S c)
            else ((kept ++ (k, e) :: l)%list, c)).
    change (recent now (k, e)) with (negb (isOld now e)).
    cbn [snd].
    destruct (isOld now e) eqn:E; cbn [negb].
    + unfold map_keys in Hnd. rewrite map_app in Hnd. cbn in Hnd.
      pose proof (NoDup_remove_2 _ _ _ Hnd) as Hni.
      pose proof (NoDup_remove_1 _ _ _ Hnd) as Hnd'.
      rewrite map_delete_middle
        by (intros Hin; apply Hni, in_or_app; left; exact Hin).
      rewrite IH by (unfold map_keys; rewrite map_app; exact Hnd').
      cbn [List.length]. f_equal. lia.
    + replace (kept ++ (k, e) :: l)%list with ((kept ++ [(k, e)]) ++ l)%list
        by (rewrite <- app_assoc; reflexivity).
      rewrite IH by (rewrite <- app_assoc; exact Hnd).
      rewrite <- app_assoc. reflexivity.
Qed.

Lemma clean_loop_all (now : Z) (m : Map ProcessedEmail) :
  NoDup (map_keys m) ->
  fold_left (cleanStep (thirtyDaysBefore now)) m (m, O) =
  (List.filter (recent now) m,
   List.length (List.filter (fun kv => isOld now (snd kv)) m)).
Proof. intros Hnd. exact (clean_loop now m [] O Hnd). Qed.

Lemma cleanOldEntries_processed (now : Z) (t : Tracker) (d : Disk) :
  wf t ->
  processed (fst (fst (cleanOldEntries now t d))) =
  List.filter (recent now) (processed t).
Proof.
  intros [Hnd _]. unfold cleanOldEntries.
  rewrite (@clean_loop_all now (processed t) Hnd).
  destruct (0 <? _)%nat; [destruct (save _ d)|]; reflexivity.
Qed.



(** C3.  After [markAsProcessed(messageId, subject, from, content)], whether
    or not the flush to storage succeeded, [isProcessed(messageId, c)] is
    true for every content [c], and [isProcessed(otherId, content)] is true
    for every message id [otherId] when the content is the same. *)
Theorem isProcessed_after_markAsProcessed
        (now : Z) (messageId subject from content : string)
        (t : Tracker) (d : Disk) :
  let t' := fst (fst (markAsProcessed now messageId subject from content t d)) in
  (forall c, isProcessed t' messageId c = true) /\
  (forall otherId, isProcessed t' otherId content = true).
Proof.
  unfold markAsProcessed. destruct (save _ d) as [d' r]. cbn [fst].
  split.
  - intros c. unfold isProcessed. cbn [processed].
    now rewrite map_has_set_same.
  - intros otherId. unfold isProcessed. cbn [processed].
    destruct (map_has _ otherId); [reflexivity|].
    apply existsb_exists.
    eexists. split.
    + unfold map_values. apply in_map_iff.
      eexists. split; [reflexivity|]. apply map_set_In.
    + cbn. apply String.eqb_refl.
Qed.

(** C9.  Marking the same message id twice leaves exactly one entry for that
    id, the one of the second call, and the second call does not make the
    ledger grow. *)
Theorem markAsProcessed_twice
        (now1 now2 : Z) (messageId subject1 from1 content1 subject2 from2 content2 : string)
        (t : Tracker) (d : Disk) (Hwf : wf t) :
  let '(t1, d1, _) := markAsProcessed now1 messageId subject1 from1 content1 t d in
  let '(t2, _, _) := markAsProcessed now2 messageId subject2 from2 content2 t1 d1 in
  map_size (processed t2) = map_size (processed t1) /\
  entriesFor t2 messageId =
    [ {| Ledger.messageId := messageId;
         contentHash := generateHash content2;
         processedAt := now2;
         Ledger.subject := subject2;
         Ledger.from := from2 |} ].
Proof.
  unfold markAsProcessed.
  destruct (save _ d) as [d1 r1]. destruct (save _ d1) as [d2 r2].
  cbn [processed]. split; [apply map_set_size_twice|].
  unfold entriesFor. cbn [processed].
  apply keyed_single_entry.
  - apply (keyed_set
             {| Ledger.messageId := messageId; contentHash := generateHash content2;
                processedAt := now2; Ledger.subject := subject2;
                Ledger.from := from2 |}).
    apply (keyed_set
             {| Ledger.messageId := messageId; contentHash := generateHash content1;
                processedAt := now1; Ledger.subject := subject1;
                Ledger.from := from1 |}).
    exact Hwf.
  - apply map_get_set_same.
Qed.


(** *** Further properties of the ledger *)

Lemma loadEntries_app (l acc : Map ProcessedEmail) :
  keyed (acc ++ l) -> loadEntries (map_values l) acc = (acc ++ l)%list.
Proof.
  revert acc. induction l as [|[k e] l IH]; intros acc Hk; cbn.
  - now rewrite app_nil_r.
  - assert (Hkey : messageId e = k).
    { destruct Hk as [_ Hf]. rewrite Forall_forall in Hf.
      apply (Hf (k, e)). apply in_or_app. right. now left. }
    assert (Habs : map_has acc k = false).
    { apply map_has_false_keys. destruct Hk as [Hnd _].
      unfold map_keys in Hnd. rewrite map_app in Hnd. cbn in Hnd.
      intros Hin. apply (NoDup_remove_2 _ _ _ Hnd). apply in_or_app. now left. }
    rewrite Hkey, (@map_set_absent _ acc k e Habs).
    rewrite IH by (rewrite <- app_assoc; exact Hk).
    now rewrite <- app_assoc.
Qed.

Lemma filter_all (A : Type) (f : A -> bool) (l : list A) :
  (forall x, In x l -> f x = true) -> List.filter f l = l.
Proof.
  induction l as [|x l IH]; cbn; intros H; [reflexivity|].
  rewrite (H x) by now left. f_equal. apply IH. intros y Hy. apply H. now right.
Qed.

Lemma recent_all (now : Z) (m : Map ProcessedEmail) :
  (forall e, In e (map_values m) -> thirtyDaysBefore now <= processedAt e) ->
  List.filter (recent now) m = m.
Proof.
  intros H. apply filter_all. intros [k e] Hin.
  unfold recent, isOld. cbn. apply negb_true_iff, Z.ltb_ge, H.
  unfold map_values. apply in_map_iff. exists (k, e). auto.
Qed.

(** X1.  Persistence round trip: what a successful [markAsProcessed] leaves on
    storage, loaded by a new tracker while no entry is before the cutoff of
    the load (thirty calendar days back on the local clock), is the ledger as
    it was in memory, entry for entry and in the same order. *)
Theorem save_then_initialize
        (now now' : Z) (messageId subject from content : string)
        (t : Tracker) (d : Disk)
        (Hwf : wf t) (Hw : writable d = true) :
  let '(t', d', r) := markAsProcessed now messageId subject from content t d in
  r = Ok tt /\
  ((forall e, In e (map_values (processed t')) ->
              now' - 30 * 86400000 + offsetShift now' <= processedAt e) ->
   initialize now' newTracker d' = ({| processed := processed t' |}, d')).
Proof.
  unfold markAsProcessed, save. rewrite Hw. split; [reflexivity|].
  intros Hrecent. cbn [processed] in Hrecent.
  fold (cutoff30 now') in Hrecent. rewrite <- thirtyDaysBefore_cutoff30 in Hrecent.
  set (m := map_set (processed t) messageId _) in *.
  assert (Hk : keyed m).
  { unfold m.
    apply (keyed_set {| Ledger.messageId := messageId;
                        contentHash := generateHash content;
                        processedAt := now; Ledger.subject := subject;
                        Ledger.from := from |} Hwf). }
  unfold initialize. cbn [file processed newTracker].
  fold (loadEntries (map_values m) []).
  rewrite (loadEntries_app m [] Hk). change ([] ++ m)%list with m.
  unfold cleanOldEntries. cbn [processed].
  rewrite (@clean_loop_all now' m (proj1 Hk)).
  rewrite (recent_all now' m Hrecent).
  replace (List.filter (fun kv => isOld now' (snd kv)) m) with (@nil (string * ProcessedEmail)).
  - reflexivity.
  - symmetry. clear Hk. induction m as [|[k e] m IH]; cbn; [reflexivity|].
    assert (He : isOld now' e = false).
    { unfold isOld. apply Z.ltb_ge, Hrecent. cbn. now left. }
    rewrite He. apply IH. intros e' Hin. apply Hrecent. cbn. now right.
Qed.

Lemma map_get_snoc (V : Type) (m : Map V) (k0 k : string) (v : V) :
  map_get (m ++ [(k0, v)]) k =
  match map_get m k with
  | Some x => Some x
  | None => if String.eqb k0 k then Some v else None
  end.
Proof.
  induction m as [|[k1 v1] m IH]; cbn; [reflexivity|].
  destruct (String.eqb k1 k); [reflexivity | exact IH].
Qed.

(** X2.  Marking a message id that the ledger does not hold adds one entry and
    loses nothing: afterwards a message counts as processed exactly when it
    is the marked id, carries the marked content (same hash), or counted as
    processed before. *)
Theorem isProcessed_after_fresh_mark
        (now : Z) (messageId subject from content : string)
        (t : Tracker) (d : Disk)
        (Hfresh : map_has (processed t) messageId = false) :
  let t' := fst (fst (markAsProcessed now messageId subject from content t d)) in
  map_size (processed t') = S (map_size (processed t)) /\
  forall id c,
    isProcessed t' id c = true <->
    id = messageId \/ generateHash c = generateHash content \/ isProcessed t id c = true.
Proof.
  unfold markAsProcessed. destruct (save _ d) as [d' r]. cbn [fst processed].
  rewrite (@map_set_absent _ (processed t) messageId _ Hfresh).
  split; [unfold map_size; rewrite length_app; cbn; lia|].
  intros id c. unfold isProcessed. cbn [processed].
  unfold map_has. rewrite map_get_snoc. unfold map_values. rewrite map_app, existsb_app.
  cbn [List.map existsb snd contentHash]. rewrite orb_false_r.
  destruct (map_get (processed t) id) as [v|] eqn:E.
  - split; [intros _; right; right; reflexivity | reflexivity].
  - destruct (String.eqb messageId id) eqn:Ei.
    + apply String.eqb_eq in Ei. split; [intros _; left; now symmetry | reflexivity].
    + apply String.eqb_neq in Ei. rewrite orb_true_iff, String.eqb_eq.
      split.
      * intros [H|H]; [right; right; exact H | right; left; now symmetry].
      * intros [H|[H|H]]; [congruence | right; now symmetry | left; exact H].
Qed.

(** X3.  The ledger keeps one entry per message id, filed under that id, through
    every operation of the tracker. *)
Theorem wf_preserved (now : Z) (messageId subject from content : string)
        (t : Tracker) (d : Disk) (Hwf : wf t) :
  wf (fst (initialize now t d)) /\
  wf (fst (fst (markAsProcessed now messageId subject from content t d))) /\
  wf (fst (fst (cleanOldEntries now t d))) /\
  wf (fst (fst (reset t d))).
Proof.
  assert (Hclean : forall t0 d0, wf t0 -> wf (fst (fst (cleanOldEntries now t0 d0)))).
  { intros t0 d0 H0. unfold wf. rewrite (cleanOldEntries_processed now d0 H0).
    now apply keyed_filter. }
  split; [|split; [|split]].
  - unfold initialize. destruct (file d) as [| |entries]; try exact Hwf.
    set (t1 := {| processed := _ |}).
    assert (H1 : wf t1) by (apply (keyed_loadEntries entries), Hwf).
    specialize (Hclean t1 d H1).
    destruct (cleanOldEntries now t1 d) as [[t2 d2] r]. exact Hclean.
  - now apply wf_markAsProcessed.
  - now apply Hclean.
  - unfold reset. destruct (file d); [|destruct (writable d)..]; exact keyed_nil.
Qed.

(** X4.  Loading a file none of whose entries is before the cutoff of the load
    (thirty calendar days back on the local clock) keeps them all and writes
    nothing: the storage is left exactly as it was. *)
Theorem initialize_without_old_entries
        (now : Z) (entries : list ProcessedEmail) (d : Disk)
        (Hfile : file d = Stored entries)
        (Hrecent : forall e, In e (map_values (loadEntries entries [])) ->
                             now - 30 * 86400000 + offsetShift now <= processedAt e) :
  initialize now newTracker d = ({| processed := loadEntries entries [] |}, d).
Proof.
  fold (cutoff30 now) in Hrecent. rewrite <- thirtyDaysBefore_cutoff30 in Hrecent.
  unfold initialize. rewrite Hfile. cbn [processed newTracker].
  fold (loadEntries entries []). set (m := loadEntries entries []) in *.
  assert (Hk : keyed m) by apply keyed_loadEntries, keyed_nil.
  unfold cleanOldEntries. cbn [processed].
  rewrite (@clean_loop_all now m (proj1 Hk)), (recent_all now m Hrecent).
  replace (List.filter (fun kv => isOld now (snd kv)) m) with (@nil (string * ProcessedEmail)).
  - reflexivity.
  - symmetry. clear Hk. induction m as [|[k e] m IH]; cbn; [reflexivity|].
    assert (He : isOld now e = false).
    { unfold isOld. apply Z.ltb_ge, Hrecent. cbn. now left. }
    rewrite He. apply IH. intros e' Hin. apply Hrecent. cbn. now right.
Qed.

(** **** Statistics *)

Lemma In_insertDate (x y : Z) (l : list Z) :
  In y (insertDate x l) <-> y = x \/ In y l.
Proof.
  induction l as [|z l IH]; cbn.
  - intuition.
  - destruct (x <=? z); cbn; [intuition|]. rewrite IH. intuition.
Qed.

Lemma In_sortDates (y : Z) (l : list Z) : In y (sortDates l) <-> In y l.
Proof.
  induction l as [|x l IH]; cbn; [tauto|].
  rewrite In_insertDate, IH. intuition.
Qed.

Lemma length_insertDate (x : Z) (l : list Z) :
  List.length (insertDate x l) = S (List.length l).
Proof. induction l as [|z l IH]; cbn; [reflexivity|]. destruct (x <=? z); cbn; auto. Qed.

Definition lower_bound (lo : Z) (l : list Z) : Prop := forall x, In x l -> lo <= x.
Definition upper_bound (hi : Z) (l : list Z) : Prop := forall x, In x l -> x <= hi.

Lemma hd_insertDate (x lo : Z) (l : list Z) :
  (l = [] \/ exists m, hd_error l = Some m /\ lower_bound m l) ->
  hd_error (insertDate x l) = Some lo -> lower_bound lo (insertDate x l).
Proof.
  intros Hl Hhd y Hy. apply In_insertDate in Hy.
  destruct l as [|z l]; cbn in *.
  - injection Hhd as <-. destruct Hy as [->|[]]. lia.
  - destruct Hl as [Hl|(m & Hm & Hlb)]; [discriminate|]. injection Hm as <-.
    destruct (x <=? z) eqn:E; cbn in Hhd; injection Hhd as <-.
    + apply Z.leb_le in E. destruct Hy as [->|Hy]; [lia|].
      specialize (Hlb y Hy). lia.
    + apply Z.leb_gt in E. destruct Hy as [->|Hy]; [lia|]. exact (Hlb y Hy).
Qed.

Lemma sortDates_hd (l : list Z) :
  l = [] \/ exists m, hd_error (sortDates l) = Some m /\ lower_bound m (sortDates l).
Proof.
  induction l as [|x l IH]; [now left | right]. cbn [sortDates fold_right].
  fold (sortDates l).
  destruct (hd_error (insertDate x (sortDates l))) as [m|] eqn:E.
  - exists m. split; [reflexivity|]. eapply hd_insertDate; [|exact E].
    destruct IH as [->|IH]; [now left | now right].
  - pose proof (length_insertDate x (sortDates l)) as Hlen.
    destruct (insertDate x (sortDates l)); discriminate.
Qed.

Definition lastDate (l : list Z) : option Z := hd_error (List.rev l).

Lemma lastDate_cons (x : Z) (l : list Z) :
  lastDate (x :: l) = match l with [] => Some x | _ => lastDate l end.
Proof.
  unfold lastDate. cbn. destruct l as [|y l]; [reflexivity|].
  destruct (List.rev (y :: l)) as [|h r] eqn:E; [|reflexivity].
  apply (f_equal (@List.length Z)) in E. rewrite length_rev in E. discriminate.
Qed.

Lemma lastDate_insertDate (x hi : Z) (l : list Z) :
  (l = [] \/ exists m, lastDate l = Some m /\ upper_bound m l) ->
  lastDate (insertDate x l) = Some hi -> upper_bound hi (insertDate x l).
Proof.
  induction l as [|z l IH]; intros Hl Hlast y Hy.
  - cbn in *. unfold lastDate in Hlast. cbn in Hlast. injection Hlast as <-.
    destruct Hy as [->|[]]. lia.
  - destruct Hl as [Hl|(m & Hm & Hub)]; [discriminate|].
    cbn [insertDate] in *. destruct (x <=? z) eqn:E.
    + apply Z.leb_le in E. rewrite lastDate_cons in Hlast.
      rewrite Hm in Hlast. injection Hlast as <-.
      destruct Hy as [->|Hy]; [|exact (Hub y Hy)].
      specialize (Hub z (or_introl eq_refl)). lia.
    + apply Z.leb_gt in E. rewrite lastDate_cons in Hlast.
      rewrite lastDate_cons in Hm.
      destruct l as [|z' l'].
      * cbn in Hlast. unfold lastDate in Hlast. cbn in Hlast. injection Hlast as <-.
        cbn in Hy. destruct Hy as [->|[->|[]]]; lia.
      * assert (Hins : insertDate x (z' :: l') <> []).
        { intros H0. pose proof (length_insertDate x (z' :: l')) as Hlen.
          rewrite H0 in Hlen. discriminate. }
        destruct (insertDate x (z' :: l')) as [|h r] eqn:Ei; [contradiction|].
        rewrite <- Ei in *.
        assert (Hub' : upper_bound m (z' :: l'))
          by (intros w Hw; apply Hub; now right).
        specialize (IH (or_intror (ex_intro _ m (conj Hm Hub'))) Hlast).
        destruct Hy as [->|Hy]; [|exact (IH y Hy)].
        specialize (Hub y (or_introl eq_refl)).
        assert (Hhi : m <= hi).
        { apply IH. apply In_insertDate. right.
          clear - Hm. revert z' Hm. induction l' as [|a l' IHl]; intros z' Hm.
          - unfold lastDate in Hm. cbn in Hm. injection Hm as <-. now left.
          - rewrite lastDate_cons in Hm. right. now apply IHl. }
        lia.
Qed.

Lemma sortDates_last (l : list Z) :
  l = [] \/ exists m, lastDate (sortDates l) = Some m /\ upper_bound m (sortDates l).
Proof.
  induction l as [|x l IH]; [now left | right]. cbn [sortDates fold_right].
  fold (sortDates l).
  destruct (lastDate (insertDate x (sortDates l))) as [m|] eqn:E.
  - exists m. split; [reflexivity|]. eapply lastDate_insertDate; [|exact E].
    destruct IH as [->|IH]; [now left | now right].
  - unfold lastDate in E.
    destruct (List.rev (insertDate x (sortDates l))) eqn:Er; [|discriminate].
    apply (f_equal (@List.length Z)) in Er.
    rewrite length_rev, length_insertDate in Er. discriminate.
Qed.

(** X5.  [getStats]: [total] is the number of entries; on a ledger that is not
    empty, [oldestDate] and [newestDate] are the earliest and the latest
    [processedAt] of its entries. *)
Theorem getStats_spec (t : Tracker) :
  total (getStats t) = map_size (processed t) /\
  (processed t = [] -> oldestDate (getStats t) = None /\ newestDate (getStats t) = None) /\
  (processed t <> [] ->
   exists lo hi eLo eHi,
     oldestDate (getStats t) = Some lo /\ newestDate (getStats t) = Some hi /\
     In eLo (map_values (processed t)) /\ processedAt eLo = lo /\
     In eHi (map_values (processed t)) /\ processedAt eHi = hi /\
     forall e, In e (map_values (processed t)) -> lo <= processedAt e <= hi).
Proof.
  unfold getStats, map_size, map_values.
  destruct (processed t) as [|kv m] eqn:Em.
  - cbn. repeat split. intros H. contradiction.
  - split; [cbn; now rewrite length_map|]. split; [discriminate|]. intros _.
    cbn [List.map]. set (dates := processedAt (snd kv) :: List.map processedAt (List.map snd m)).
    cbn [oldestDate newestDate].
    destruct (sortDates_hd dates) as [H|(lo & Hlo & Hlb)]; [discriminate|].
    destruct (sortDates_last dates) as [H|(hi & Hhi & Hub)]; [discriminate|].
    assert (Hin : forall x, In x (sortDates dates) ->
                    exists e, In e (snd kv :: List.map snd m) /\ processedAt e = x).
    { intros x Hx. apply (proj1 (In_sortDates x dates)) in Hx.
      change dates with (List.map processedAt (snd kv :: List.map snd m)) in Hx.
      apply in_map_iff in Hx. destruct Hx as (e & He & Hine). eauto. }
    assert (Hlo_in : In lo (sortDates dates))
      by (destruct (sortDates dates); [discriminate | injection Hlo as <-; now left]).
    assert (Hhi_in : In hi (sortDates dates)).
    { unfold lastDate in Hhi. apply in_rev.
      destruct (List.rev (sortDates dates)); [discriminate | injection Hhi as <-; now left]. }
    destruct (Hin lo Hlo_in) as (eLo & HeLo & HpLo).
    destruct (Hin hi Hhi_in) as (eHi & HeHi & HpHi).
    exists lo, hi, eLo, eHi. repeat split; try assumption.
    + apply Hlb, (proj2 (In_sortDates _ dates)). change dates with (List.map processedAt (snd kv :: List.map snd m)).
      now apply in_map.
    + apply Hub, (proj2 (In_sortDates _ dates)). change dates with (List.map processedAt (snd kv :: List.map snd m)).
      now apply in_map.
Qed.

End WithHash.

(** *** Concrete runs *)

Definition sampleEntry (id : string) (at_ : Z) : ProcessedEmail :=
  {| messageId := id; contentHash := "hash-of-" ++ id;
     processedAt := at_; subject := "Dispatch Alert"; from := "cpowerdispatch@example.com" |}.

(** 2025-06-24T21:00:00Z *)
Definition sampleNow : Z := 1750798800000.

(** New York around the end of daylight saving time in 2025: UTC-4 until
    2025-11-02T06:00:00Z, UTC-5 from then on. *)
Definition newYork : Z -> bool -> Z :=
  fallBackZone 1762063200000 (-14400000) (-18000000).

Definition sampleDisk : Disk :=
  {| file := Stored [sampleEntry "old123" (sampleNow - 31 * msPerDay);
                     sampleEntry "new123" sampleNow];
     writable := true |}.

Lemma markAsProcessed_twice_witness :
  wf newTracker /\
  map_size (processed
    (fst (fst (markAsProcessed (fun s => s) 2 "msg1" "S" "f" "other"
       (fst (fst (markAsProcessed (fun s => s) 1 "msg1" "S" "f" "content"
                    newTracker sampleDisk)))
       sampleDisk)))) = 1%nat.
Proof.
  split; [exact wf_newTracker|].
  pose proof (@markAsProcessed_twice (fun s => s) 1 2 "msg1" "S" "f" "content"
                "S" "f" "other" newTracker sampleDisk wf_newTracker) as H.
  cbv beta iota zeta delta [markAsProcessed save sampleDisk writable] in H.
  cbn in H. destruct H as [H _]. exact H.
Defined.



Definition emptyDisk : Disk := {| file := Missing; writable := true |}.

Lemma save_then_initialize_witness :
  wf newTracker /\ writable emptyDisk = true /\
  initialize newYork (sampleNow + 29 * 86400000) newTracker
    (snd (fst (markAsProcessed (fun s => s) sampleNow "msg1" "S" "f" "content"
                 newTracker emptyDisk))) =
  ({| processed := [("msg1", {| messageId := "msg1"; contentHash := "content";
                                processedAt := sampleNow; subject := "S";
                                from := "f" |})] |},
   {| file := Stored [{| messageId := "msg1"; contentHash := "content";
                         processedAt := sampleNow; subject := "S"; from := "f" |}];
      writable := true |}).
Proof.
  split; [exact wf_newTracker|]. split; [reflexivity|].
  pose proof (@save_then_initialize (fun s => s) newYork sampleNow
                (sampleNow + 29 * 86400000) "msg1" "S" "f"
                "content" newTracker emptyDisk wf_newTracker eq_refl) as H.
  cbv beta iota zeta delta [markAsProcessed save emptyDisk writable] in H.
  destruct H as [_ H]. apply H.
  intros e [<-|[]]. vm_compute. discriminate.
Defined.

Lemma isProcessed_after_fresh_mark_witness :
  map_has (processed newTracker) "msg1" = false /\
  (isProcessed (fun s => s)
     (fst (fst (markAsProcessed (fun s => s) sampleNow "msg1" "S" "f" "content"
                  newTracker emptyDisk))) "msg2" "other" = true <->
   "msg2" = "msg1" \/ "other" = "content" \/
   isProcessed (fun s => s) newTracker "msg2" "other" = true).
Proof.
  split; [reflexivity|].
  exact (proj2 (@isProcessed_after_fresh_mark (fun s => s) sampleNow "msg1" "S" "f"
                  "content" newTracker emptyDisk eq_refl) "msg2" "other").
Defined.

Lemma wf_preserved_witness :
  wf newTracker /\ wf (fst (initialize newYork sampleNow newTracker sampleDisk)).
Proof.
  split; [exact wf_newTracker|].
  exact (proj1 (@wf_preserved (fun s => s) newYork sampleNow "m" "s" "f" "c"
                  newTracker sampleDisk wf_newTracker)).
Defined.

(** a file whose only entry is 29 days old, on storage that takes no write *)
Definition recentDisk : Disk :=
  {| file := Stored [sampleEntry "new123" (sampleNow - 29 * 86400000)];
     writable := false |}.

Lemma initialize_without_old_entries_witness :
  file recentDisk = Stored [sampleEntry "new123" (sampleNow - 29 * 86400000)] /\
  initialize newYork sampleNow newTracker recentDisk =
  ({| processed := [("new123", sampleEntry "new123" (sampleNow - 29 * 86400000))] |},
   recentDisk).
Proof.
  split; [reflexivity|].
  apply (@initialize_without_old_entries newYork sampleNow _ recentDisk eq_refl).
  intros e [<-|[]]. vm_compute. discriminate.
Defined.

End Ledger.

(** * The mail monitor ([EmailMonitor])

    [processMessage] puts the MIME parser, the ledger and the dispatch parser
    together: a fetched message is looked up in the ledger, parsed, recorded,
    flagged as read on the server, and announced with a [dispatch] event. *)
Module Monitor.
Import Js Types.

Unset Implicit Arguments.

(** A fetched message as [processMessage] reads it: [attributes.uid] and the
    parts [header], [body] and [''] (the whole text). *)
Record Message : Type := {
  uid : nat;
  header : option string;
  body : option string;
  full : option string
}.

Definition CRLF : string := String (ascii_of_nat 13) (String (ascii_of_nat 10) EmptyString).

Definition buildRawEmail (message : Message) : string :=
  let raw := "" in
  let raw := match header message with
             | Some (String c h) => (raw ++ String c h)%string
             | _ => raw
             end in
  let raw := match body message with
             | Some (String c b) => (raw ++ (CRLF ++ CRLF ++ String c b))%string
             | _ => raw
             end in
  match full message with
  | Some (String c f) => String c f
  | _ => raw
  end.

Section WithServices.

Variable generateHash : string -> string.
Variable JsDate : Type.
Variable newDate : string -> JsDate.
Variable MailError : Type.
Variable simpleParser : string -> Result MailError Parser.ParsedMail.

(** The mailbox on the server and [connection.addFlags(uid, '\\Seen')],
    which may fail. *)
Variable Imap : Type.
Variable ImapError : Type.
Variable addFlags : nat -> Imap -> Imap * Result ImapError unit.

(** The monitor: whether [this.connection] is set, the mailbox behind it,
    the ledger with its file, and the [dispatch] events emitted so far. *)
Record Monitor : Type := {
  connected : bool;
  imap : Imap;
  tracker : Ledger.Tracker;
  disk : Ledger.Disk;
  dispatched : list (DispatchEvent JsDate)
}.

(** [markAsRead]: a failure of [addFlags] is logged and swallowed *)
Definition markAsRead (uid : nat) (st : Monitor) : Monitor :=
  if negb (connected st) then st
  else
    let (i, _) := addFlags uid (imap st) in
    {| connected := connected st; imap := i; tracker := tracker st; disk := disk st;
       dispatched := dispatched st |}.

(** [parsed.messageId || `uid-${uid}`] *)
Definition messageIdOf (parsed : Parser.ParsedMail) (uid : nat) : string :=
  or_else (Parser.pm_messageId parsed) ("uid-" ++ string_of_nat uid).

(** [now] is the value of [new Date()] when the ledger entry is made.  Every
    exception inside the body is caught and logged. *)
Definition processMessage (now : Z) (message : Message) (st : Monitor) : Monitor :=
  let uid := uid message in
  let rawEmail := buildRawEmail message in
  match simpleParser rawEmail with
  | Throw _ => st
  | Ok parsed =>
      let messageId := messageIdOf parsed uid in
      let subject := or_else (Parser.pm_subject parsed) "" in
      let from := or_else (Parser.pm_from_text parsed) "" in
      if Ledger.isProcessed generateHash (tracker st) messageId rawEmail
      then markAsRead uid st
      else
        match Parser.parseEmailContent newDate simpleParser rawEmail with
        | Throw _ => st
        | Ok (Some dispatchEvent) =>
            let '(t', d', saved) :=
              Ledger.markAsProcessed generateHash now messageId subject from rawEmail
                                     (tracker st) (disk st) in
            let st1 := {| connected := connected st; imap := imap st; tracker := t';
                          disk := d'; dispatched := dispatched st |} in
            match saved with
            | Throw _ => st1
            | Ok _ =>
                let st2 := markAsRead uid st1 in
                {| connected := connected st2; imap := imap st2; tracker := tracker st2;
                   disk := disk st2; dispatched := dispatched st2 ++ [dispatchEvent] |}
            end
        | Ok None =>
            if includes (toLowerCase from) "cpower" then markAsRead uid st else st
        end
  end.

(** the loop of [checkForNewEmails] over the messages found, each with the
    time of its turn *)
Definition processMessages (batch : list (Z * Message)) (st : Monitor) : Monitor :=
  fold_left (fun st nm => processMessage (fst nm) (snd nm) st) batch st.

(** *** What the ledger knows *)

(** a record with the hash of this text is in the ledger *)
Definition known (t : Ledger.Tracker) (raw : string) : bool :=
  existsb (fun entry => String.eqb (Ledger.contentHash entry) (generateHash raw))
          (map_values (Ledger.processed t)).

(** the ledger file holds what the ledger has in memory *)
Definition synced (st : Monitor) : Prop :=
  Ledger.file (disk st) = Ledger.Stored (map_values (Ledger.processed (tracker st))).

Lemma markAsRead_same (uid : nat) (st : Monitor) :
  connected (markAsRead uid st) = connected st /\
  tracker (markAsRead uid st) = tracker st /\
  disk (markAsRead uid st) = disk st /\
  dispatched (markAsRead uid st) = dispatched st.
Proof.
  unfold markAsRead. destruct (negb (connected st)); [auto|].
  destruct (addFlags uid (imap st)) as [i r]. cbn. auto.
Qed.


Lemma map_has_app (V : Type) (m extra : Map V) (k : string) :
  map_has m k = true -> map_has (m ++ extra) k = true.
Proof.
  unfold map_has. induction m as [|[k' v] m IH]; cbn; [discriminate|].
  destruct (String.eqb k' k); [reflexivity | exact IH].
Qed.

(** What one message does to the ledger and to the events: the ledger gains
    at most one record, for this message, and only when the message was not
    known; an event is emitted only together with such a record, and it
    carries the raw text of the message. *)
Lemma processMessage_effect (now : Z) (message : Message) (st : Monitor) :
  let st' := processMessage now message st in
  let raw := buildRawEmail message in
  connected st' = connected st /\
  ((tracker st' = tracker st /\ disk st' = disk st /\ dispatched st' = dispatched st) \/
   (exists parsed entry,
      simpleParser raw = Ok parsed /\
      Ledger.isProcessed generateHash (tracker st) (messageIdOf parsed (uid message)) raw
      = false /\
      Ledger.contentHash entry = generateHash raw /\
      Ledger.processed (tracker st') =
      (Ledger.processed (tracker st) ++ [(messageIdOf parsed (uid message), entry)])%list /\
      ((Ledger.writable (disk st) = false /\ disk st' = disk st /\
        dispatched st' = dispatched st) \/
       (Ledger.writable (disk st) = true /\
        disk st' = {| Ledger.file :=
                        Ledger.Stored (map_values (Ledger.processed (tracker st')));
                      Ledger.writable := true |} /\
        exists ev, dispatched st' = (dispatched st ++ [ev])%list /\
                   rawContent ev = raw)))).
Proof.
  intros st' raw. subst st'. unfold processMessage. fold raw.
  destruct (simpleParser raw) as [parsed|e] eqn:Hp; [|auto].
  cbv zeta.
  destruct (Ledger.isProcessed generateHash (tracker st)
              (messageIdOf parsed (uid message)) raw) eqn:Hseen.
  { destruct (markAsRead_same (uid message) st) as (H1 & H2 & H3 & H4). auto. }
  destruct (Parser.parseEmailContent newDate simpleParser raw) as [[ev|]|e] eqn:Hev.
  - split.
    + unfold Ledger.markAsProcessed, Ledger.save.
      destruct (Ledger.writable (disk st)); cbn; [|reflexivity].
      unfold markAsRead. cbn. destruct (negb (connected st)); [reflexivity|].
      destruct (addFlags (uid message) (imap st)); reflexivity.
    + right. exists parsed.
      assert (Habsent : map_has (Ledger.processed (tracker st))
                                (messageIdOf parsed (uid message)) = false).
      { unfold Ledger.isProcessed in Hseen.
        destruct (map_has (Ledger.processed (tracker st))
                          (messageIdOf parsed (uid message))); [discriminate|reflexivity]. }
      exists {| Ledger.messageId := messageIdOf parsed (uid message);
                Ledger.contentHash := generateHash raw;
                Ledger.processedAt := now;
                Ledger.subject := or_else (Parser.pm_subject parsed) "";
                Ledger.from := or_else (Parser.pm_from_text parsed) "" |}.
      split; [reflexivity|]. split; [exact Hseen|].
      unfold Ledger.markAsProcessed, Ledger.save.
      rewrite (@map_set_absent _ _ _ _ Habsent).
      destruct (Ledger.writable (disk st)); cbn.
      * split; [reflexivity|]. split.
        { unfold markAsRead. cbn. destruct (negb (connected st)); [reflexivity|].
          destruct (addFlags (uid message) (imap st)); reflexivity. }
        right. split; [reflexivity|]. split.
        { unfold markAsRead. cbn. destruct (negb (connected st)); [reflexivity|].
          destruct (addFlags (uid message) (imap st)); reflexivity. }
        exists ev. split.
        { unfold markAsRead. cbn. destruct (negb (connected st)); [reflexivity|].
          destruct (addFlags (uid message) (imap st)); reflexivity. }
        exact (Parser.parseEmailContent_rawContent _ _ _ _ _ _ Hev).
      * split; [reflexivity|]. split; [reflexivity|]. left. auto.
  - destruct (includes _ _); [|auto].
    destruct (markAsRead_same (uid message) st) as (H1 & H2 & H3 & H4). auto.
  - auto.
Qed.

Lemma known_app (t t' : Ledger.Tracker) (extra : Map Ledger.ProcessedEmail) (raw : string) :
  Ledger.processed t' = (Ledger.processed t ++ extra)%list ->
  known t raw = true -> known t' raw = true.
Proof.
  unfold known, map_values. intros -> H.
  rewrite map_app, existsb_app, H. reflexivity.
Qed.

Lemma isProcessed_app (t t' : Ledger.Tracker) (extra : Map Ledger.ProcessedEmail)
      (id raw : string) :
  Ledger.processed t' = (Ledger.processed t ++ extra)%list ->
  Ledger.isProcessed generateHash t id raw = true ->
  Ledger.isProcessed generateHash t' id raw = true.
Proof.
  unfold Ledger.isProcessed. intros E.
  destruct (map_has (Ledger.processed t) id) eqn:Hh.
  - intros _. rewrite E, (map_has_app _ _ extra _ Hh). reflexivity.
  - intros H. destruct (map_has (Ledger.processed t') id); [reflexivity|].
    exact (known_app t t' extra raw E H).
Qed.

Lemma processMessage_grows (now : Z) (message : Message) (st : Monitor) :
  exists extra,
    Ledger.processed (tracker (processMessage now message st)) =
    (Ledger.processed (tracker st) ++ extra)%list.
Proof.
  destruct (processMessage_effect now message st)
    as [_ [(Ht & _)|(parsed & entry & _ & _ & _ & Ht & _)]].
  - exists []. rewrite Ht, app_nil_r. reflexivity.
  - eexists. exact Ht.
Qed.

Lemma processMessages_grows (batch : list (Z * Message)) (st : Monitor) :
  exists extra,
    Ledger.processed (tracker (processMessages batch st)) =
    (Ledger.processed (tracker st) ++ extra)%list.
Proof.
  revert st. induction batch as [|[now m] batch IH]; intros st; cbn.
  - exists []. now rewrite app_nil_r.
  - destruct (IH (processMessage now m st)) as [extra2 H2].
    destruct (processMessage_grows now m st) as [extra1 H1].
    exists (extra1 ++ extra2)%list. unfold processMessages in H2. cbn in H2.
    rewrite H2, H1, app_assoc. reflexivity.
Qed.

(** a message that the ledger knows emits nothing *)
Lemma processMessage_seen (now : Z) (message : Message) (st : Monitor)
      (parsed : Parser.ParsedMail) :
  simpleParser (buildRawEmail message) = Ok parsed ->
  Ledger.isProcessed generateHash (tracker st) (messageIdOf parsed (uid message))
                     (buildRawEmail message) = true ->
  dispatched (processMessage now message st) = dispatched st.
Proof.
  intros Hp Hseen.
  destruct (processMessage_effect now message st)
    as [_ [(_ & _ & H)|(parsed' & entry & Hp' & Hseen' & _)]]; [exact H|].
  rewrite Hp in Hp'. injection Hp' as <-. congruence.
Qed.

(** after its turn, a message that parses is known to the ledger by its id,
    unless it is no dispatch mail *)
Lemma processMessage_then_seen (now : Z) (message : Message) (st : Monitor)
      (parsed : Parser.ParsedMail) (ev : DispatchEvent JsDate) :
  simpleParser (buildRawEmail message) = Ok parsed ->
  Parser.parseEmailContent newDate simpleParser (buildRawEmail message) = Ok (Some ev) ->
  Ledger.isProcessed generateHash (tracker (processMessage now message st))
                     (messageIdOf parsed (uid message)) (buildRawEmail message) = true.
Proof.
  intros Hp Hev. unfold processMessage. rewrite Hp. cbv zeta.
  destruct (Ledger.isProcessed generateHash (tracker st)
              (messageIdOf parsed (uid message)) (buildRawEmail message)) eqn:Hseen.
  { destruct (markAsRead_same (uid message) st) as (_ & -> & _). exact Hseen. }
  rewrite Hev.
  assert (Hset : forall t d,
             Ledger.isProcessed generateHash
               (fst (fst (Ledger.markAsProcessed generateHash now
                            (messageIdOf parsed (uid message))
                            (or_else (Parser.pm_subject parsed) "")
                            (or_else (Parser.pm_from_text parsed) "")
                            (buildRawEmail message) t d)))
               (messageIdOf parsed (uid message)) (buildRawEmail message) = true).
  { intros t d. unfold Ledger.markAsProcessed.
    destruct (Ledger.save _ d) as [d' r]. cbn.
    unfold Ledger.isProcessed. cbn. now rewrite map_has_set_same. }
  specialize (Hset (tracker st) (disk st)).
  destruct (Ledger.markAsProcessed generateHash now _ _ _ _ (tracker st) (disk st))
    as [[t' d'] [u|e]]; cbn in Hset |- *.
  - destruct (markAsRead_same (uid message)
                {| connected := connected st; imap := imap st; tracker := t';
                   disk := d'; dispatched := dispatched st |}) as (_ & -> & _).
    exact Hset.
  - exact Hset.
Qed.

(** X20.  Between two turns of the same message with nothing but calls of
    [processMessage] in between, the second turn announces nothing: it emits
    no [dispatch], whatever messages were processed in between and whether
    or not the message was flagged as read.  The statement is about runs of
    [processMessage] only: [connect] and [reconnect] are not among the steps
    (they run [tracker.initialize()], which reloads the ledger from its file
    and prunes it, so an entry can be gone afterwards). *)
Theorem message_dispatched_at_most_once
        (now now' : Z) (message : Message) (batch : list (Z * Message)) (st : Monitor) :
  let st1 := processMessages batch (processMessage now message st) in
  dispatched (processMessage now' message st1) = dispatched st1.
Proof.
  intros st1.
  destruct (simpleParser (buildRawEmail message)) as [parsed|e] eqn:Hp.
  2:{ unfold processMessage. rewrite Hp. reflexivity. }
  destruct (Parser.parseEmailContent newDate simpleParser (buildRawEmail message))
    as [[ev|]|e] eqn:Hev.
  - apply (processMessage_seen now' message st1 parsed Hp).
    destruct (processMessages_grows batch (processMessage now message st)) as [extra Hx].
    apply (isProcessed_app _ _ extra _ _ Hx).
    exact (processMessage_then_seen now message st parsed ev Hp Hev).
  - destruct (processMessage_effect now' message st1)
      as [_ [(_ & _ & H)|(parsed' & entry & _ & _ & _ & _ & [(_ & _ & H)|(_ & _ & H)])]];
      [exact H | exact H |].
    exfalso. destruct H as (ev & H & _).
    revert H. unfold processMessage. rewrite Hp. cbv zeta.
    destruct (Ledger.isProcessed generateHash (tracker st1) _ _).
    + destruct (markAsRead_same (uid message) st1) as (_ & _ & _ & ->).
      intros H. apply (f_equal (@List.length _)) in H. rewrite length_app in H.
      cbn in H. lia.
    + rewrite Hev. destruct (includes _ _).
      * destruct (markAsRead_same (uid message) st1) as (_ & _ & _ & ->).
        intros H. apply (f_equal (@List.length _)) in H. rewrite length_app in H.
        cbn in H. lia.
      * intros H. apply (f_equal (@List.length _)) in H. rewrite length_app in H.
        cbn in H. lia.
  - unfold processMessage. rewrite Hp. cbv zeta.
    destruct (Ledger.isProcessed generateHash (tracker st1) _ _).
    + now destruct (markAsRead_same (uid message) st1) as (_ & _ & _ & ->).
    + rewrite Hev. reflexivity.
Qed.



(** X22.  While the disk takes the writes, the ledger file keeps up with the
    ledger: it holds exactly the records in memory after every batch. *)
Theorem ledger_file_in_step (batch : list (Z * Message)) (st : Monitor)
        (Hwritable : Ledger.writable (disk st) = true) (Hsynced : synced st) :
  synced (processMessages batch st) /\
  Ledger.writable (disk (processMessages batch st)) = true.
Proof.
  revert st Hwritable Hsynced.
  induction batch as [|[now m] batch IH]; intros st Hw Hs; [auto|].
  cbn. apply IH.
  - destruct (processMessage_effect now m st)
      as [_ [(_ & -> & _)|(parsed & entry & _ & _ & _ & _ & [(Hf & _)|(_ & -> & _)])]];
      [exact Hw | congruence | reflexivity].
  - unfold synced.
    destruct (processMessage_effect now m st)
      as [_ [(-> & -> & _)|(parsed & entry & _ & _ & _ & _ & [(Hf & _)|(_ & -> & _)])]];
      [exact Hs | congruence | reflexivity].
Qed.

End WithServices.

(** *** A concrete run

    The hash is the text itself, the MIME parser reads every text as the
    body of a vendor dispatch mail, and the mailbox is the list of the uids
    flagged as read. *)
Definition demoAddFlags (uid : nat) (seen : list nat) : list nat * Result unit unit :=
  (uid :: seen, Ok tt).

Definition demoMessage : Message :=
  {| uid := 7; header := None; body := None; full := Some Parser.bodyWithTimes |}.

Definition demoMonitor (writable : bool) : Monitor string (list nat) :=
  {| connected := true;
     imap := [];
     tracker := Ledger.newTracker;
     disk := {| Ledger.file := Ledger.Stored []; Ledger.writable := writable |};
     dispatched := [] |}.

Definition demoProcess : Z -> Message -> Monitor string (list nat) -> Monitor string (list nat) :=
  processMessage (fun s : string => s) string (fun s : string => s) unit Parser.vendorMail
                 (list nat) unit demoAddFlags.


Lemma ledger_file_in_step_witness :
  synced _ _ (demoProcess 1000 demoMessage (demoMonitor true)).
Proof.
  exact (proj1 (ledger_file_in_step
                  (fun s : string => s) string (fun s : string => s) unit Parser.vendorMail
                  (list nat) unit demoAddFlags [(1000%Z, demoMessage)] (demoMonitor true)
                  eq_refl eq_refl)).
Defined.

End Monitor.

Set Implicit Arguments.

(* ================================================================== *)
(** * Scheduler *)
(* ================================================================== *)

Module Sched.
Import Js Types.
Local Open Scope Z_scope.

(** In the scheduler a [Date] is a valid instant. *)
Definition Event : Type := DispatchEvent Z.

Inductive JobStatus : Type := pending | running | completed | failed.

Definition status_eqb (a b : JobStatus) : bool :=
  match a, b with
  | pending, pending | running, running
  | completed, completed | failed, failed => true
  | _, _ => false
  end.

Record Contact : Type := {
  c_facility : string;
  c_company : string;
  firstName : string;
  lastName : string;
  email : string;
  phone : option string;
  cell : option string;
  dispatchable : bool
}.

(** result of [ExcelService.findBestMatch] *)
Record BestMatch : Type := { bm_facility : string; confidence : Q }.

(** A task of node-cron: its expression and options, the arguments its
    callback passes to [processFacility], and whether [stop()] was called.
    [cron.schedule] is taken to register the task and return it; node-cron
    runs the callback of a task only while the task is not stopped. *)
Record CronTask : Type := {
  ct_expression : string;
  ct_timezone : string;
  ct_jobId : string;
  ct_facilityName : string;
  ct_event : Event;
  ct_stopped : bool
}.

(** [task] is the handle of the job's cron task (its rank in node-cron's
    registry); the field is optional in the interface. *)
Record ScheduledJob : Type := {
  id : string;
  facilityName : string;
  dispatchEvent : Event;
  scheduledTime : Z;
  task : option nat;
  status : JobStatus
}.

Definition withStatus (st : JobStatus) (job : ScheduledJob) : ScheduledJob :=
  {| id := id job; facilityName := facilityName job;
     dispatchEvent := dispatchEvent job; scheduledTime := scheduledTime job;
     task := task job; status := st |}.

(** What the scheduler emits. *)
Inductive Emitted : Type :=
| jobScheduled (jobId facilityName : string) (scheduledTime : Z)
| jobStarted (jobId facilityName : string)
| jobCompleted (jobId facilityName : string)
| jobFailed (jobId facilityName : string)
| noContactsFound (jobId facilityName : string)
| emailFailed (jobId facilityName : string) (contact : Contact)
| jobCancelled (jobId facilityName : string).

(** A call of [processFacility] that is suspended at an [await]: it has
    looked its contacts up and has not returned yet. *)
Record Run : Type := {
  r_jobId : string;
  r_facilityName : string;
  r_event : Event;
  r_contacts : list Contact
}.

(** The scheduler object together with what the event loop holds for it:
    node-cron's tasks and the suspended runs.  [emitted] lists the events in
    the order of emission. *)
Record Scheduler : Type := {
  jobs : Map ScheduledJob;
  jobCounter : nat;
  cron : list CronTask;
  inflight : list Run;
  emitted : list Emitted
}.

(** [new Scheduler()] *)
Definition newScheduler : Scheduler :=
  {| jobs := []; jobCounter := 0; cron := []; inflight := []; emitted := [] |}.

Definition setJobs (m : Map ScheduledJob) (s : Scheduler) : Scheduler :=
  {| jobs := m; jobCounter := jobCounter s; cron := cron s;
     inflight := inflight s; emitted := emitted s |}.

Definition setCounter (n : nat) (s : Scheduler) : Scheduler :=
  {| jobs := jobs s; jobCounter := n; cron := cron s;
     inflight := inflight s; emitted := emitted s |}.

Definition setCron (c : list CronTask) (s : Scheduler) : Scheduler :=
  {| jobs := jobs s; jobCounter := jobCounter s; cron := c;
     inflight := inflight s; emitted := emitted s |}.

Definition setInflight (l : list Run) (s : Scheduler) : Scheduler :=
  {| jobs := jobs s; jobCounter := jobCounter s; cron := cron s;
     inflight := l; emitted := emitted s |}.

(** [this.emit(...)] *)
Definition emit (e : Emitted) (s : Scheduler) : Scheduler :=
  {| jobs := jobs s; jobCounter := jobCounter s; cron := cron s;
     inflight := inflight s; emitted := (emitted s ++ [e])%list |}.

(** [const job = this.jobs.get(jobId); if (job) { job.status = st }] *)
Definition markJob (jobId : string) (st : JobStatus) (s : Scheduler) : Scheduler :=
  match map_get (jobs s) jobId with
  | Some job => setJobs (map_set (jobs s) jobId (withStatus st job)) s
  | None => s
  end.

(** [`${prefix}-${n}-${facilityName.replace(/[^a-z0-9]/gi, '-')}`] *)
Definition jobIdFor (prefix : string) (n : nat) (facilityName : string) : string :=
  (prefix ++ "-" ++ string_of_nat n ++ "-" ++ sanitize "-" facilityName)%string.

Definition tenMinutes : Z := 10 * 60 * 1000.

(** What the collaborators did while one run was suspended: the outcome of
    [screenshotService.initialize()] followed by [captureUsage(...)] (a path,
    [null], or an exception), and for each contact and screenshot path
    whether [sendDispatchNotification] was rejected. *)
Record AsyncOutcome : Type := {
  capture : Result string (option string);
  sendRejected : Contact -> option string -> bool
}.

Section WithCollaborators.

(** The contact directory ([ExcelService]), an in-memory table; a lookup may
    throw. *)
Variable getContactsByFacility : string -> Result string (list Contact).
Variable findBestMatch : string -> Result string (option BestMatch).

(** [process.env.TZ] and [process.env.TEST_EMAIL] *)
Variable envTZ : option string.
Variable envTEST_EMAIL : option string.

(** Local-time accessors of [Date]. *)
Variable getMinutes getHours getDate getMonth : Z -> nat.

(** The zone of the process. *)
Variable LocalTZA : Z -> bool -> Z.

(** node-cron's validation: [cron.schedule(expression, callback, options)]
    registers the task and returns it, or throws when it cannot use the
    expression or the [timezone] option. *)
Variable cronAccepts : string -> string -> bool.

Definition dateToCron (date : Z) : string :=
  let minute := getMinutes date in
  let hour := getHours date in
  let dayOfMonth := getDate date in
  let month := (getMonth date + 1)%nat in
  let dayOfWeek := "*" in
  (string_of_nat minute ++ " " ++ string_of_nat hour ++ " " ++
   string_of_nat dayOfMonth ++ " " ++ string_of_nat month ++ " " ++ dayOfWeek)%string.

(** The contacts of a facility: by exact name, else through the fuzzy matcher
    when its confidence exceeds 0.8. *)
Definition lookupContacts (facilityName : string) : Result string (list Contact) :=
  bind (getContactsByFacility facilityName) (fun contacts =>
    match contacts with
    | _ :: _ => Ok contacts
    | [] =>
        bind (findBestMatch facilityName) (fun m =>
          match m with
          | Some bm =>
              if negb (Qle_bool (confidence bm) (8 # 10))
              then getContactsByFacility (bm_facility bm)
              else Ok contacts
          | None => Ok contacts
          end)
    end).

(** [processFacility] up to its first [await]: the job, if there is one under
    this id, becomes [running], [jobStarted] is emitted and the contacts are
    looked up.  A lookup that throws ends the call at once through the outer
    [catch]; otherwise the call is suspended. *)
Definition processFacility_begin (jobId facilityName : string) (event : Event)
           (s : Scheduler) : Scheduler :=
  let s := markJob jobId running s in
  let s := emit (jobStarted jobId facilityName) s in
  match lookupContacts facilityName with
  | Throw _ =>
      let s := markJob jobId failed s in
      emit (jobFailed jobId facilityName) s
  | Ok contacts =>
      setInflight (inflight s ++ [ {| r_jobId := jobId;
                                      r_facilityName := facilityName;
                                      r_event := event;
                                      r_contacts := contacts |} ])%list s
  end.

Definition targetContact (contact : Contact) : Contact :=
  match envTEST_EMAIL with
  | Some (String c t) =>
      {| c_facility := c_facility contact; c_company := c_company contact;
         firstName := firstName contact; lastName := lastName contact;
         email := String c t; phone := phone contact; cell := cell contact;
         dispatchable := dispatchable contact |}
  | _ => contact
  end.

(** One send of the notification loop: a rejected send is caught and emits
    [emailFailed]. *)
Definition notify (o : AsyncOutcome) (jobId facilityName : string)
           (screenshotPath : option string)
           (s : Scheduler) (contact : Contact) : Scheduler :=
  if sendRejected o (targetContact contact) screenshotPath
  then emit (emailFailed jobId facilityName (targetContact contact)) s
  else s.

(** [processFacility] from its first [await] to its end: the capture (whose
    exception is caught and logged), the notifications (a rejected send emits
    [emailFailed]), then [completed].  The [finally] block closes the browser
    and swallows what that throws. *)
Definition processFacility_end (o : AsyncOutcome) (r : Run) (s : Scheduler) : Scheduler :=
  let jobId := r_jobId r in
  let facilityName := r_facilityName r in
  let contacts := r_contacts r in
  let screenshotPath : option string :=
    match capture o with
    | Ok (Some (String c p)) => Some (String c p)
    | _ => None
    end in
  let s :=
    match contacts with
    | [] => emit (noContactsFound jobId facilityName) s
    | _ => fold_left (notify o jobId facilityName screenshotPath) contacts s
    end in
  let s := markJob jobId completed s in
  emit (jobCompleted jobId facilityName) s.

(** The callback of [facilities.map] in [processAllFacilities], up to the
    first [await] of its [processFacility]. *)
Definition processNow (event : Event) (s : Scheduler) (facility : DispatchFacility)
  : Scheduler :=
  let facilityName := Types.facilityName facility in
  let n := S (jobCounter s) in
  let s := setCounter n s in
  let jobId := jobIdFor "immediate" n facilityName in
  processFacility_begin jobId facilityName event s.

(** [processAllFacilities]: the callbacks run one after the other; nothing
    in the scheduler waits for the promises they return. *)
Definition processAllFacilities (event : Event) (s : Scheduler) : Scheduler :=
  fold_left (processNow event) (facilities event) s.

(** [event.timezone || process.env.TZ || 'America/New_York'] *)
Definition eventZone (event : Event) : string :=
  or_else (Some (timezone event)) (or_else envTZ "America/New_York").

(** The callback of [facilities.forEach] in [scheduleDispatchNotifications],
    when [cron.schedule] registers the task. *)
Definition scheduleAccepted (event : Event) (notificationTime : Z) (cronExpression : string)
           (s : Scheduler) (facility : DispatchFacility) : Scheduler :=
  let facilityName := Types.facilityName facility in
  let n := S (jobCounter s) in
  let s := setCounter n s in
  let jobId := jobIdFor "job" n facilityName in
  let handle := List.length (cron s) in
  let cronTask :=
    {| ct_expression := cronExpression;
       ct_timezone := eventZone event;
       ct_jobId := jobId;
       ct_facilityName := facilityName;
       ct_event := event;
       ct_stopped := false |} in
  let s := setCron (cron s ++ [cronTask])%list s in
  let job := {| id := jobId;
                facilityName := facilityName;
                dispatchEvent := event;
                scheduledTime := notificationTime;
                task := Some handle;
                status := pending |} in
  let s := setJobs (map_set (jobs s) jobId job) s in
  emit (jobScheduled jobId facilityName notificationTime) s.

(** The same callback when [cron.schedule] throws: the counter has been
    advanced for the job id, and the exception leaves the callback before
    anything else is done. *)
Definition scheduleRefused (s : Scheduler) : Scheduler :=
  setCounter (S (jobCounter s)) s.

Definition cronError : string := "RangeError".

Definition scheduleOne (event : Event) (notificationTime : Z) (cronExpression : string)
           (s : Scheduler) (facility : DispatchFacility)
  : Scheduler * Result string unit :=
  if cronAccepts cronExpression (eventZone event)
  then (scheduleAccepted event notificationTime cronExpression s facility, Ok tt)
  else (scheduleRefused s, Throw cronError).

(** [facilities.forEach(callback)]: an exception of the callback ends the
    loop and leaves [forEach]. *)
Fixpoint forEach (callback : Scheduler -> DispatchFacility -> Scheduler * Result string unit)
         (facilities : list DispatchFacility) (s : Scheduler)
  : Scheduler * Result string unit :=
  match facilities with
  | [] => (s, Ok tt)
  | facility :: rest =>
      match callback s facility with
      | (s', Ok _) => forEach callback rest s'
      | (s', Throw e) => (s', Throw e)
      end
  end.

(** [now] is the value of [new Date()] during the call.  The notification
    time is the start moved ten minutes forward on the local clock
    ([setMinutes(getMinutes() + 10)]).  [processAllFacilities] is not
    awaited, and the exception of a refused task is not caught. *)
Definition scheduleDispatchNotifications (event : Event) (now : Z) (s : Scheduler)
  : Scheduler * Result string unit :=
  let notificationTime := addLocalMinutes LocalTZA 10 (startTime event) in
  if notificationTime <=? now then (processAllFacilities event s, Ok tt)
  else
    let cronExpression := dateToCron notificationTime in
    forEach (scheduleOne event notificationTime cronExpression) (facilities event) s.

Definition getActiveJobs (s : Scheduler) : list ScheduledJob :=
  List.filter (fun job => status_eqb (status job) pending) (map_values (jobs s)).

Definition getJobStatus (s : Scheduler) (jobId : string) : option ScheduledJob :=
  map_get (jobs s) jobId.

(** [task.stop()] *)
Fixpoint stopTask (h : nat) (tasks : list CronTask) : list CronTask :=
  match tasks, h with
  | [], _ => []
  | t :: tasks', O =>
      {| ct_expression := ct_expression t; ct_timezone := ct_timezone t;
         ct_jobId := ct_jobId t; ct_facilityName := ct_facilityName t;
         ct_event := ct_event t; ct_stopped := true |} :: tasks'
  | t :: tasks', S h' => t :: stopTask h' tasks'
  end.

Definition cancelJob (jobId : string) (s : Scheduler) : bool * Scheduler :=
  match map_get (jobs s) jobId with
  | Some job =>
      match task job with
      | Some h =>
          if status_eqb (status job) pending then
            let s := setCron (stopTask h (cron s)) s in
            let s := setJobs (map_set (jobs s) jobId (withStatus failed job)) s in
            let s := emit (jobCancelled jobId (facilityName job)) s in
            (true, s)
          else (false, s)
      | None => (false, s)
      end
  | None => (false, s)
  end.

(** [this.jobs.forEach((_job, jobId) => ...)]; the number of jobs cancelled is
    only logged. *)
Definition cancelAllJobs (s : Scheduler) : Scheduler :=
  fold_left (fun s jobId => snd (cancelJob jobId s)) (map_keys (jobs s)) s.

Record Statistics : Type := {
  st_pending : nat; st_running : nat; st_completed : nat; st_failed : nat
}.

Definition countStatus (st : JobStatus) (s : Scheduler) : nat :=
  List.length (List.filter (fun job => status_eqb (status job) st)
                           (map_values (jobs s))).

Definition getStatistics (s : Scheduler) : Statistics :=
  {| st_pending := countStatus pending s;
     st_running := countStatus running s;
     st_completed := countStatus completed s;
     st_failed := countStatus failed s |}.

(** *** The event loop

    What can happen to a scheduler: a call of one of its methods, node-cron
    running the callback of a task that was not stopped, or a suspended run
    going to its end with some outcome of the collaborators. *)
Inductive Action : Type :=
| Schedule (event : Event) (now : Z)
| Tick (handle : nat)
| Settle (i : nat) (o : AsyncOutcome)
| Cancel (jobId : string)
| CancelAll.

Fixpoint removeNth {A} (i : nat) (l : list A) : list A :=
  match l, i with
  | [], _ => []
  | _ :: l', O => l'
  | x :: l', S i' => x :: removeNth i' l'
  end.

Definition exec (a : Action) (s : Scheduler) : Scheduler :=
  match a with
  | Schedule event now => fst (scheduleDispatchNotifications event now s)
  | Tick h =>
      match nth_error (cron s) h with
      | Some t =>
          if ct_stopped t then s
          else processFacility_begin (ct_jobId t) (ct_facilityName t) (ct_event t) s
      | None => s
      end
  | Settle i o =>
      match nth_error (inflight s) i with
      | Some r => processFacility_end o r (setInflight (removeNth i (inflight s)) s)
      | None => s
      end
  | Cancel jobId => snd (cancelJob jobId s)
  | CancelAll => cancelAllJobs s
  end.

Definition run (acts : list Action) (s : Scheduler) : Scheduler :=
  fold_left (fun s a => exec a s) acts s.

Definition reachable (s : Scheduler) : Prop :=
  exists acts, s = run acts newScheduler.

(** *** Job identifiers *)

Lemma jobIdFor_counter_inj (p : string) (n n' : nat) (x x' : string) :
  jobIdFor p n x = jobIdFor p n' x' -> n = n'.
Proof.
  unfold jobIdFor. intros H. apply append_inv_head in H.
  cbn in H. injection H as H.
  apply string_of_nat_inj.
  eapply digits_dash_inj; [apply string_of_nat_digits .. | exact H].
Qed.

Lemma job_not_immediate (n n' : nat) (x x' : string) :
  jobIdFor "job" n x <> jobIdFor "immediate" n' x'.
Proof. unfold jobIdFor. cbn. discriminate. Qed.

(** the identifiers of scheduled jobs handed out so far *)
Definition isJobKey (c : nat) (k : string) : Prop :=
  exists n name, k = jobIdFor "job" n name /\ (n <= c)%nat.

Definition isImmediateKey (k : string) : Prop :=
  exists n name, k = jobIdFor "immediate" n name.

Lemma isJobKey_mono (c c' : nat) (k : string) :
  (c <= c')%nat -> isJobKey c k -> isJobKey c' k.
Proof. intros Hle (n & name & -> & Hn). exists n, name. split; [reflexivity | lia]. Qed.

Lemma isJobKey_fresh (c : nat) (name : string) :
  ~ isJobKey c (jobIdFor "job" (S c) name).
Proof.
  intros (n & name' & H & Hn). apply jobIdFor_counter_inj in H. lia.
Qed.

Lemma isJobKey_not_immediate (c : nat) (k : string) :
  isJobKey c k -> ~ isImmediateKey k.
Proof.
  intros (n & name & -> & _) (n' & name' & H). exact (job_not_immediate H).
Qed.

(** *** The invariant of the scheduler

    Keys are unique; every job sits under an identifier handed out by the
    counter and owns a cron task that calls back with this identifier; every
    cron task belongs to the job it names; a suspended run is an immediate one
    or belongs to a job that has left [pending]. *)
Record Inv (s : Scheduler) : Prop := {
  inv_nodup : NoDup (map_keys (jobs s));
  inv_jobs : forall k job, map_get (jobs s) k = Some job ->
      id job = k /\ isJobKey (jobCounter s) k /\
      exists h t, task job = Some h /\ nth_error (cron s) h = Some t /\ ct_jobId t = k;
  inv_cron : forall h t, nth_error (cron s) h = Some t ->
      exists job, map_get (jobs s) (ct_jobId t) = Some job /\ task job = Some h;
  inv_inflight : forall r, In r (inflight s) ->
      isImmediateKey (r_jobId r) \/
      exists job, map_get (jobs s) (r_jobId r) = Some job /\ status job <> pending
}.

Lemma Inv_new : Inv newScheduler.
Proof.
  split; cbn.
  - constructor.
  - discriminate.
  - intros [|h] t; discriminate.
  - tauto.
Qed.

(** **** Status updates *)

Lemma markJob_get (k k' : string) (st : JobStatus) (s : Scheduler) :
  map_get (jobs (markJob k st s)) k' =
  match map_get (jobs s) k' with
  | Some job => Some (if String.eqb k k' then withStatus st job else job)
  | None => None
  end.
Proof.
  unfold markJob. destruct (map_get (jobs s) k) as [job|] eqn:E; cbn.
  - destruct (String.eqb k k') eqn:Ek.
    + apply String.eqb_eq in Ek. subst k'. now rewrite map_get_set_same, E.
    + apply String.eqb_neq in Ek. rewrite map_get_set_other by exact Ek.
      now destruct (map_get (jobs s) k').
  - destruct (String.eqb k k') eqn:Ek.
    + apply String.eqb_eq in Ek. subst k'. now rewrite E.
    + now destruct (map_get (jobs s) k').
Qed.

Lemma markJob_keys (k : string) (st : JobStatus) (s : Scheduler) :
  map_keys (jobs (markJob k st s)) = map_keys (jobs s).
Proof.
  unfold markJob. destruct (map_get (jobs s) k) as [job|] eqn:E; cbn; [|reflexivity].
  apply map_set_present. unfold map_has. now rewrite E.
Qed.

Lemma markJob_other (k : string) (st : JobStatus) (s : Scheduler) :
  jobCounter (markJob k st s) = jobCounter s /\
  cron (markJob k st s) = cron s /\
  inflight (markJob k st s) = inflight s /\
  emitted (markJob k st s) = emitted s.
Proof. unfold markJob. destruct (map_get (jobs s) k); cbn; auto. Qed.

Lemma markJob_absent (k : string) (st : JobStatus) (s : Scheduler) :
  map_get (jobs s) k = None -> markJob k st s = s.
Proof. unfold markJob. now intros ->. Qed.

Lemma Inv_markJob (k : string) (st : JobStatus) (s : Scheduler) :
  st <> pending -> Inv s -> Inv (markJob k st s).
Proof.
  intros Hst [Hnd Hjobs Hcron Hfl].
  destruct (markJob_other k st s) as (Hc & Hcr & Hi & _).
  split.
  - now rewrite markJob_keys.
  - intros k' job'. rewrite markJob_get, Hc, Hcr.
    destruct (map_get (jobs s) k') as [job|] eqn:E; [|discriminate].
    intros [= <-]. destruct (Hjobs _ _ E) as (Hid & Hkey & Htask).
    destruct (String.eqb k k'); auto.
  - intros h t. rewrite Hcr. intros Ht.
    destruct (Hcron _ _ Ht) as (job & Hget & Htask).
    rewrite markJob_get, Hget.
    destruct (String.eqb k (ct_jobId t)); eexists; split; eauto.
  - intros r. rewrite Hi. intros Hr.
    destruct (Hfl _ Hr) as [Him | (job & Hget & Hs)]; [now left | right].
    rewrite markJob_get, Hget.
    destruct (String.eqb k (r_jobId r)); eexists; split; eauto.
Qed.

Lemma Inv_emit (e : Emitted) (s : Scheduler) : Inv s -> Inv (emit e s).
Proof. intros [Hnd Hjobs Hcron Hfl]. split; assumption. Qed.

Lemma Inv_setCounter (n : nat) (s : Scheduler) :
  (jobCounter s <= n)%nat -> Inv s -> Inv (setCounter n s).
Proof.
  intros Hle [Hnd Hjobs Hcron Hfl]. split; cbn; try assumption.
  intros k job Hget. destruct (Hjobs _ _ Hget) as (Hid & Hkey & Htask).
  split; [exact Hid|]. split; [|exact Htask]. eapply isJobKey_mono; eauto.
Qed.

Lemma Inv_suspend (r : Run) (s : Scheduler) :
  (isImmediateKey (r_jobId r) \/
   exists job, map_get (jobs s) (r_jobId r) = Some job /\ status job <> pending) ->
  Inv s -> Inv (setInflight (inflight s ++ [r]) s).
Proof.
  intros Hr [Hnd Hjobs Hcron Hfl]. split; cbn; try assumption.
  intros r' Hin. apply in_app_or in Hin. destruct Hin as [Hin|[<-|[]]]; auto.
Qed.

Lemma In_removeNth (A : Type) (i : nat) (l : list A) (x : A) :
  In x (removeNth i l) -> In x l.
Proof.
  revert i. induction l as [|y l IH]; intros [|i]; cbn; auto.
  intros [H|H]; eauto.
Qed.

Lemma Inv_resume (i : nat) (s : Scheduler) :
  Inv s -> Inv (setInflight (removeNth i (inflight s)) s).
Proof.
  intros [Hnd Hjobs Hcron Hfl]. split; cbn; try assumption.
  intros r Hin. apply Hfl. eapply In_removeNth; eauto.
Qed.

(** **** Runs of [processFacility] *)

Lemma Inv_begin (k f : string) (ev : Event) (s : Scheduler) :
  (isImmediateKey k \/ exists job, map_get (jobs s) k = Some job) ->
  Inv s -> Inv (processFacility_begin k f ev s).
Proof.
  intros Hk Hinv. unfold processFacility_begin.
  assert (H1 : Inv (emit (jobStarted k f) (markJob k running s))).
  { apply Inv_emit, Inv_markJob; [discriminate | exact Hinv]. }
  destruct (lookupContacts f) as [contacts|err].
  - apply Inv_suspend; [|exact H1]. cbn [r_jobId].
    destruct Hk as [Hk|(job & Hget)]; [now left | right].
    change (jobs (emit (jobStarted k f) (markJob k running s)))
      with (jobs (markJob k running s)).
    rewrite markJob_get, Hget, String.eqb_refl.
    eexists; split; [reflexivity | discriminate].
  - apply Inv_emit, Inv_markJob; [discriminate | exact H1].
Qed.

Lemma notify_fields (o : AsyncOutcome) (k f : string) (path : option string)
      (contacts : list Contact) (s : Scheduler) :
  let s' := fold_left (notify o k f path) contacts s in
  jobs s' = jobs s /\ jobCounter s' = jobCounter s /\ cron s' = cron s /\
  inflight s' = inflight s /\
  exists es, emitted s' = (emitted s ++ es)%list /\
             Forall (fun e => exists c, e = emailFailed k f c) es.
Proof.
  revert s. induction contacts as [|c contacts IH]; intros s; cbn.
  - repeat split. exists []. split; [now rewrite app_nil_r | constructor].
  - destruct (IH (notify o k f path s c)) as (H1 & H2 & H3 & H4 & es & H5 & H6).
    unfold notify in *. destruct (sendRejected o (targetContact c) path).
    + cbn in *. repeat split; try assumption.
      exists (emailFailed k f (targetContact c) :: es). split.
      * rewrite H5, <- app_assoc. reflexivity.
      * constructor; [eexists; reflexivity | exact H6].
    + repeat split; try assumption. exists es. auto.
Qed.

Lemma Inv_fields (s s' : Scheduler) :
  jobs s' = jobs s -> jobCounter s' = jobCounter s -> cron s' = cron s ->
  inflight s' = inflight s -> Inv s -> Inv s'.
Proof.
  intros Hj Hc Hcr Hi [Hnd Hjobs Hcron Hfl].
  split; rewrite ?Hj, ?Hc, ?Hcr, ?Hi; assumption.
Qed.

Lemma Inv_end (o : AsyncOutcome) (r : Run) (s : Scheduler) :
  Inv s -> Inv (processFacility_end o r s).
Proof.
  intros Hinv. unfold processFacility_end.
  set (path := match capture o with Ok (Some (String c p)) => Some (String c p) | _ => None end).
  apply Inv_emit, Inv_markJob; [discriminate|].
  destruct (r_contacts r) as [|c cs]; [now apply Inv_emit|].
  destruct (notify_fields o (r_jobId r) (r_facilityName r) path (c :: cs) s)
    as (H1 & H2 & H3 & H4 & _).
  eapply Inv_fields; eauto.
Qed.

(** **** Scheduling *)

Lemma Inv_fresh_key (s : Scheduler) (name : string) :
  Inv s -> map_get (jobs s) (jobIdFor "job" (S (jobCounter s)) name) = None.
Proof.
  intros Hinv.
  destruct (map_get (jobs s) (jobIdFor "job" (S (jobCounter s)) name)) eqn:E;
    [|reflexivity].
  destruct (inv_jobs Hinv _ E) as (_ & Hkey & _).
  exfalso. exact (isJobKey_fresh Hkey).
Qed.

Lemma Inv_immediate_absent (s : Scheduler) (k : string) :
  Inv s -> isImmediateKey k -> map_get (jobs s) k = None.
Proof.
  intros Hinv Hk. destruct (map_get (jobs s) k) eqn:E; [|reflexivity].
  destruct (inv_jobs Hinv _ E) as (_ & Hkey & _).
  exfalso. exact (isJobKey_not_immediate Hkey Hk).
Qed.

Lemma Inv_scheduleAccepted (ev : Event) (nt : Z) (expr : string)
      (s : Scheduler) (fac : DispatchFacility) :
  Inv s -> Inv (scheduleAccepted ev nt expr s fac).
Proof.
  intros Hinv. pose proof (Inv_fresh_key (Types.facilityName fac) Hinv) as Hfresh.
  destruct Hinv as [Hnd Hjobs Hcron Hfl].
  unfold scheduleAccepted. cbn [jobCounter setCounter].
  remember (jobIdFor "job" (S (jobCounter s)) (Types.facilityName fac)) as k eqn:Hk.
  apply Inv_emit. split; cbn.
  - now apply map_set_NoDup.
  - intros k' job'. destruct (String.eqb k k') eqn:Ek.
    + apply String.eqb_eq in Ek. subst k'. rewrite map_get_set_same.
      intros [= <-]. cbn. split; [reflexivity|]. split.
      * exists (S (jobCounter s)), (Types.facilityName fac). auto.
      * eexists _, _. split; [reflexivity|]. split.
        -- rewrite nth_error_app2, Nat.sub_diag by lia. reflexivity.
        -- reflexivity.
    + apply String.eqb_neq in Ek. rewrite map_get_set_other by exact Ek.
      intros Hget. destruct (Hjobs _ _ Hget) as (Hid & Hkey & h & t & Ht & Hn & Hj).
      split; [exact Hid|]. split; [eapply isJobKey_mono; [|exact Hkey]; lia|].
      exists h, t. split; [exact Ht|]. split; [|exact Hj].
      rewrite nth_error_app1; [exact Hn|].
      apply nth_error_Some. congruence.
  - intros h t Hn.
    destruct (Nat.lt_ge_cases h (List.length (cron s))) as [Hlt|Hge].
    + rewrite nth_error_app1 in Hn by exact Hlt.
      destruct (Hcron _ _ Hn) as (job & Hget & Ht).
      exists job. split; [|exact Ht].
      rewrite map_get_set_other; [exact Hget|].
      intros Heq. rewrite <- Heq in Hget. congruence.
    + rewrite nth_error_app2 in Hn by exact Hge.
      destruct (h - List.length (cron s))%nat as [|d] eqn:Ed.
      * cbn in Hn. injection Hn as <-. cbn [ct_jobId].
        rewrite map_get_set_same. eexists. split; [reflexivity|].
        cbn. f_equal. lia.
      * destruct d; discriminate.
  - intros r Hr. destruct (Hfl _ Hr) as [Him|(job & Hget & Hst)]; [now left | right].
    exists job. split; [|exact Hst].
    rewrite map_get_set_other; [exact Hget|].
    intros Heq. rewrite <- Heq in Hget. congruence.
Qed.

Lemma Inv_processNow (ev : Event) (s : Scheduler) (fac : DispatchFacility) :
  Inv s -> Inv (processNow ev s fac).
Proof.
  intros Hinv. unfold processNow. apply Inv_begin.
  - left. eexists _, _. reflexivity.
  - apply Inv_setCounter; [cbn; lia | exact Hinv].
Qed.

Lemma Inv_fold (A : Type) (f : Scheduler -> A -> Scheduler) (l : list A) (s : Scheduler) :
  (forall s x, Inv s -> Inv (f s x)) -> Inv s -> Inv (fold_left f l s).
Proof.
  intros Hf. revert s. induction l as [|x l IH]; intros s Hinv; cbn; auto.
Qed.

(** the notification time in plain arithmetic: ten minutes after the start,
    moved by the difference between the zone's offsets at the two ends *)
Definition startShift (ev : Event) : Z :=
  LocalTZA (startTime ev) true -
  LocalTZA (startTime ev + LocalTZA (startTime ev) true + 600000) false.

Lemma notificationTime_eq (ev : Event) :
  addLocalMinutes LocalTZA 10 (startTime ev) = startTime ev + 600000 + startShift ev.
Proof.
  unfold addLocalMinutes, UTC, LocalTime, startShift, msPerMinute.
  replace (startTime ev + LocalTZA (startTime ev) true + 10 * (60 * 1000))
    with (startTime ev + LocalTZA (startTime ev) true + 600000) by lia.
  lia.
Qed.

Lemma forEach_scheduleOne (ev : Event) (nt : Z) (expr : string)
      (facs : list DispatchFacility) (s : Scheduler) :
  forEach (scheduleOne ev nt expr) facs s =
  if cronAccepts expr (eventZone ev)
  then (fold_left (scheduleAccepted ev nt expr) facs s, Ok tt)
  else match facs with
       | [] => (s, Ok tt)
       | _ :: _ => (scheduleRefused s, Throw cronError)
       end.
Proof.
  unfold scheduleOne. destruct (cronAccepts expr (eventZone ev)).
  - revert s. induction facs as [|fac facs IH]; intros s; cbn; [reflexivity | apply IH].
  - destruct facs; reflexivity.
Qed.

(** the scheduler after [scheduleDispatchNotifications], whether or not the
    call threw *)
Lemma schedule_state (ev : Event) (now : Z) (s : Scheduler) :
  let nt := startTime ev + 600000 + startShift ev in
  fst (scheduleDispatchNotifications ev now s) =
  if nt <=? now then processAllFacilities ev s
  else if cronAccepts (dateToCron nt) (eventZone ev)
       then fold_left (scheduleAccepted ev nt (dateToCron nt)) (facilities ev) s
       else match facilities ev with
            | [] => s
            | _ :: _ => scheduleRefused s
            end.
Proof.
  intros nt. unfold scheduleDispatchNotifications.
  rewrite notificationTime_eq. fold nt.
  destruct (nt <=? now); [reflexivity|].
  rewrite forEach_scheduleOne.
  destruct (cronAccepts _ _); [reflexivity|]. destruct (facilities ev); reflexivity.
Qed.

(** what every step of scheduling keeps, the call keeps *)
Lemma schedule_keeps (P : Scheduler -> Prop) (ev : Event) (now : Z) (s : Scheduler) :
  (forall s fac, P s -> P (processNow ev s fac)) ->
  (forall nt expr s fac, P s -> P (scheduleAccepted ev nt expr s fac)) ->
  (forall s, P s -> P (scheduleRefused s)) ->
  P s -> P (fst (scheduleDispatchNotifications ev now s)).
Proof.
  intros Hnow Hacc Href H. rewrite schedule_state.
  assert (Hfold : forall (f : Scheduler -> DispatchFacility -> Scheduler) facs s0,
             (forall s fac, P s -> P (f s fac)) -> P s0 -> P (fold_left f facs s0)).
  { intros f facs. induction facs as [|x facs IH]; intros s0 Hf H0; cbn; auto. }
  destruct (_ <=? now).
  - unfold processAllFacilities. apply Hfold; auto.
  - destruct (cronAccepts _ _).
    + apply Hfold; auto.
    + destruct (facilities ev); auto.
Qed.

Lemma Inv_scheduleRefused (s : Scheduler) : Inv s -> Inv (scheduleRefused s).
Proof. intros H. apply Inv_setCounter; [cbn; lia | exact H]. Qed.

Lemma Inv_schedule (ev : Event) (now : Z) (s : Scheduler) :
  Inv s -> Inv (fst (scheduleDispatchNotifications ev now s)).
Proof.
  apply schedule_keeps; auto using Inv_processNow, Inv_scheduleAccepted, Inv_scheduleRefused.
Qed.

(** **** Cancelling *)

Lemma stopTask_nth (h h' : nat) (tasks : list CronTask) :
  nth_error (stopTask h tasks) h' =
  match nth_error tasks h' with
  | Some t =>
      Some (if Nat.eqb h h'
            then {| ct_expression := ct_expression t; ct_timezone := ct_timezone t;
                    ct_jobId := ct_jobId t; ct_facilityName := ct_facilityName t;
                    ct_event := ct_event t; ct_stopped := true |}
            else t)
  | None => None
  end.
Proof.
  revert h h'. induction tasks as [|t tasks IH]; intros h h'.
  - destruct h, h'; reflexivity.
  - destruct h as [|h], h' as [|h']; cbn; try reflexivity.
    + now destruct (nth_error tasks h').
    + apply IH.
Qed.

Lemma Inv_stopTask (h : nat) (s : Scheduler) :
  Inv s -> Inv (setCron (stopTask h (cron s)) s).
Proof.
  intros [Hnd Hjobs Hcron Hfl]. split; cbn; try assumption.
  - intros k job Hget. destruct (Hjobs _ _ Hget) as (Hid & Hkey & h' & t & Ht & Hn & Hj).
    split; [exact Hid|]. split; [exact Hkey|].
    rewrite <- Hj. eexists h', _. split; [exact Ht|].
    rewrite stopTask_nth, Hn. split; [reflexivity|]. now destruct (Nat.eqb h h').
  - intros h' t'. rewrite stopTask_nth.
    destruct (nth_error (cron s) h') as [t|] eqn:Hn; [|discriminate].
    intros [= <-]. destruct (Hcron _ _ Hn) as (job & Hget & Ht).
    exists job. destruct (Nat.eqb h h'); auto.
Qed.

Lemma cancelJob_as_updates (k : string) (s : Scheduler) (job : ScheduledJob) (h : nat) :
  map_get (jobs s) k = Some job -> task job = Some h -> status job = pending ->
  cancelJob k s =
  (true, emit (jobCancelled k (facilityName job))
              (markJob k failed (setCron (stopTask h (cron s)) s))).
Proof.
  intros Hget Ht Hst. unfold cancelJob, markJob. cbn [jobs setCron].
  rewrite Hget, Ht, Hst. reflexivity.
Qed.

Lemma cancelJob_noop (k : string) (s : Scheduler) :
  (forall job, map_get (jobs s) k = Some job -> status job <> pending) ->
  cancelJob k s = (false, s).
Proof.
  intros H. unfold cancelJob.
  destruct (map_get (jobs s) k) as [job|]; [|reflexivity].
  destruct (task job); [|reflexivity].
  specialize (H job eq_refl). destruct (status job); try reflexivity. congruence.
Qed.

Lemma Inv_cancelJob (k : string) (s : Scheduler) :
  Inv s -> Inv (snd (cancelJob k s)).
Proof.
  intros Hinv.
  destruct (map_get (jobs s) k) as [job|] eqn:Hget;
    [|unfold cancelJob; rewrite Hget; exact Hinv].
  destruct (task job) as [h|] eqn:Ht;
    [|unfold cancelJob; rewrite Hget, Ht; exact Hinv].
  destruct (status job) eqn:Hst;
    try (unfold cancelJob; rewrite Hget, Ht, Hst; exact Hinv).
  rewrite (cancelJob_as_updates k s Hget Ht Hst). cbn [snd].
  apply Inv_emit, Inv_markJob; [discriminate|]. now apply Inv_stopTask.
Qed.

Lemma Inv_cancelAllJobs (s : Scheduler) : Inv s -> Inv (cancelAllJobs s).
Proof.
  intros Hinv. unfold cancelAllJobs. apply Inv_fold; [|exact Hinv].
  intros s' k'. apply Inv_cancelJob.
Qed.

Lemma Inv_exec (a : Action) (s : Scheduler) : Inv s -> Inv (exec a s).
Proof.
  intros Hinv. destruct a as [ev now|h|i o|k|]; cbn.
  - now apply Inv_schedule.
  - destruct (nth_error (cron s) h) as [t|] eqn:Hn; [|exact Hinv].
    destruct (ct_stopped t); [exact Hinv|].
    apply Inv_begin; [|exact Hinv].
    right. destruct (inv_cron Hinv _ Hn) as (job & Hget & _). eauto.
  - destruct (nth_error (inflight s) i); [|exact Hinv].
    now apply Inv_end, Inv_resume.
  - now apply Inv_cancelJob.
  - now apply Inv_cancelAllJobs.
Qed.

Lemma Inv_run (acts : list Action) (s : Scheduler) : Inv s -> Inv (run acts s).
Proof. unfold run. apply Inv_fold. intros s' a. apply Inv_exec. Qed.

Lemma Inv_reachable (s : Scheduler) : reachable s -> Inv s.
Proof. intros [acts ->]. apply Inv_run, Inv_new. Qed.

(** *** Scheduling a future event *)







(** *** What a cancelled job can still go through *)

Definition isStartOf (k : string) (e : Emitted) : bool :=
  match e with
  | jobStarted k' _ => String.eqb k' k
  | _ => false
  end.

(** the [jobStarted] events of a job id: the firings of its task *)
Definition starts (k : string) (s : Scheduler) : list Emitted :=
  List.filter (isStartOf k) (emitted s).

(** The job [k] is recorded as [j], which has failed, its cron task [h] is
    stopped, and no run of it is suspended. *)
Record Frozen (k : string) (j : ScheduledJob) (h : nat) (s : Scheduler) : Prop := {
  fz_job : map_get (jobs s) k = Some j /\ status j = failed /\ task j = Some h;
  fz_task : exists t, nth_error (cron s) h = Some t /\ ct_stopped t = true;
  fz_idle : forall r, In r (inflight s) -> r_jobId r <> k
}.

Section Frozen.
Variables (k : string) (j : ScheduledJob) (h : nat).

(** what the steps below keep *)
Definition Kept (l : list Emitted) (s : Scheduler) : Prop :=
  Inv s /\ Frozen k j h s /\ starts k s = l.

Lemma starts_emit (e : Emitted) (s : Scheduler) :
  isStartOf k e = false -> starts k (emit e s) = starts k s.
Proof.
  intros He. unfold starts. cbn. rewrite filter_app. cbn. rewrite He.
  apply app_nil_r.
Qed.

Lemma Kept_emit (l : list Emitted) (e : Emitted) (s : Scheduler) :
  isStartOf k e = false -> Kept l s -> Kept l (emit e s).
Proof.
  intros He (Hinv & [Hj Ht Hi] & Hs).
  split; [now apply Inv_emit|]. split; [split; assumption|].
  now rewrite starts_emit.
Qed.

Lemma Kept_markJob (l : list Emitted) (k' : string) (st : JobStatus) (s : Scheduler) :
  k' <> k -> st <> pending -> Kept l s -> Kept l (markJob k' st s).
Proof.
  intros Hne Hst (Hinv & [Hj Ht Hi] & Hs).
  destruct (markJob_other k' st s) as (Hc & Hcr & Hfl & He).
  split; [now apply Inv_markJob|]. split; [split|].
  - rewrite markJob_get. destruct Hj as (Hget & Hj). rewrite Hget.
    apply String.eqb_neq in Hne. rewrite Hne. auto.
  - now rewrite Hcr.
  - now rewrite Hfl.
  - unfold starts. now rewrite He.
Qed.

Lemma Kept_fields (l : list Emitted) (s s' : Scheduler) :
  jobs s' = jobs s -> cron s' = cron s -> inflight s' = inflight s ->
  starts k s' = starts k s -> Inv s' -> Kept l s -> Kept l s'.
Proof.
  intros Hj Hc Hi Hs Hinv' (_ & [Hjob Ht Hidle] & Hl).
  split; [exact Hinv'|]. split; [split|]; rewrite ?Hj, ?Hc, ?Hi, ?Hs; assumption.
Qed.

Lemma Kept_begin (l : list Emitted) (k' f : string) (ev : Event) (s : Scheduler) :
  k' <> k ->
  (isImmediateKey k' \/ exists job, map_get (jobs s) k' = Some job) ->
  Kept l s -> Kept l (processFacility_begin k' f ev s).
Proof.
  intros Hne Hk' HK.
  assert (Hinv' : Inv (processFacility_begin k' f ev s))
    by (apply Inv_begin; [exact Hk' | apply HK]).
  assert (Hstart : isStartOf k (jobStarted k' f) = false)
    by (cbn; now apply String.eqb_neq).
  assert (H1 : Kept l (emit (jobStarted k' f) (markJob k' running s))).
  { apply Kept_emit; [exact Hstart|]. apply Kept_markJob; [exact Hne | discriminate | exact HK]. }
  revert Hinv'. unfold processFacility_begin.
  destruct (lookupContacts f) as [contacts|err]; intros Hinv'.
  - destruct H1 as (_ & [Hj Ht Hi] & Hs).
    split; [exact Hinv'|]. split; [split|]; try assumption.
    cbn. intros r Hin. apply in_app_or in Hin.
    destruct Hin as [Hin|[<-|[]]]; [now apply Hi | exact Hne].
  - apply Kept_emit; [reflexivity|].
    apply Kept_markJob; [exact Hne | discriminate | exact H1].
Qed.

Lemma Kept_end (l : list Emitted) (o : AsyncOutcome) (r : Run) (s : Scheduler) :
  r_jobId r <> k -> Kept l s -> Kept l (processFacility_end o r s).
Proof.
  intros Hne HK. unfold processFacility_end.
  set (path := match capture o with Ok (Some (String c p)) => Some (String c p) | _ => None end).
  apply Kept_emit; [reflexivity|].
  apply Kept_markJob; [exact Hne | discriminate|].
  destruct (r_contacts r) as [|c cs]; [now apply Kept_emit|].
  destruct (notify_fields o (r_jobId r) (r_facilityName r) path (c :: cs) s)
    as (H1 & H2 & H3 & H4 & es & H5 & H6).
  eapply Kept_fields; eauto.
  - unfold starts. rewrite H5, filter_app.
    replace (List.filter (isStartOf k) es) with (@nil Emitted);
      [now rewrite app_nil_r|].
    symmetry. clear H5. induction H6 as [|e es' [c' ->] _ IH]; [reflexivity | exact IH].
  - eapply Inv_fields; eauto. apply HK.
Qed.

Lemma Kept_key (l : list Emitted) (s : Scheduler) :
  Kept l s -> isJobKey (jobCounter s) k.
Proof.
  intros (Hinv & [(Hget & _) _ _] & _).
  now destruct (inv_jobs Hinv _ Hget) as (_ & Hkey & _).
Qed.

Lemma Kept_processNow (l : list Emitted) (ev : Event) (s : Scheduler)
      (fac : DispatchFacility) :
  Kept l s -> Kept l (processNow ev s fac).
Proof.
  intros HK. pose proof (Kept_key HK) as Hkey. unfold processNow.
  assert (Him : isImmediateKey
                  (jobIdFor "immediate" (S (jobCounter s)) (Types.facilityName fac)))
    by (eexists _, _; reflexivity).
  apply Kept_begin.
  - intros Heq. rewrite Heq in Him. exact (isJobKey_not_immediate Hkey Him).
  - now left.
  - destruct HK as (Hinv & [Hj Ht Hi] & Hs).
    split; [apply Inv_setCounter; [cbn; lia | exact Hinv]|].
    split; [split; assumption | exact Hs].
Qed.

Lemma Kept_scheduleAccepted (l : list Emitted) (ev : Event) (nt : Z) (expr : string)
      (s : Scheduler) (fac : DispatchFacility) :
  Kept l s -> Kept l (scheduleAccepted ev nt expr s fac).
Proof.
  intros HK. pose proof (Kept_key HK) as Hkey.
  destruct HK as (Hinv & [(Hget & Hst & Htask) (t & Hn & Hstop) Hi] & Hs).
  split; [now apply Inv_scheduleAccepted|].
  assert (Hne : jobIdFor "job" (S (jobCounter s)) (Types.facilityName fac) <> k).
  { intros Heq. rewrite <- Heq in Hkey. exact (isJobKey_fresh Hkey). }
  unfold scheduleAccepted. split; [split|]; cbn.
  - rewrite map_get_set_other by exact Hne. auto.
  - exists t. split; [|exact Hstop].
    rewrite nth_error_app1; [exact Hn|]. apply nth_error_Some. congruence.
  - exact Hi.
  - unfold starts in *. cbn. rewrite filter_app. cbn. now rewrite app_nil_r.
Qed.

Lemma Kept_fold (A : Type) (l : list Emitted) (f : Scheduler -> A -> Scheduler)
      (xs : list A) (s : Scheduler) :
  (forall s x, Kept l s -> Kept l (f s x)) -> Kept l s -> Kept l (fold_left f xs s).
Proof.
  intros Hf. revert s. induction xs as [|x xs IH]; intros s HK; cbn; auto.
Qed.

Lemma Kept_stopTask (l : list Emitted) (h' : nat) (s : Scheduler) :
  Kept l s -> Kept l (setCron (stopTask h' (cron s)) s).
Proof.
  intros (Hinv & [Hj (t & Hn & Hstop) Hi] & Hs).
  split; [now apply Inv_stopTask|]. split; [split|]; try assumption.
  cbn. rewrite stopTask_nth, Hn. eexists. split; [reflexivity|].
  now destruct (Nat.eqb h' h).
Qed.

Lemma Kept_cancelJob (l : list Emitted) (k' : string) (s : Scheduler) :
  Kept l s -> Kept l (snd (cancelJob k' s)).
Proof.
  intros HK.
  destruct (map_get (jobs s) k') as [job|] eqn:Hget;
    [|unfold cancelJob; rewrite Hget; exact HK].
  destruct (task job) as [h'|] eqn:Ht;
    [|unfold cancelJob; rewrite Hget, Ht; exact HK].
  destruct (status job) eqn:Hst;
    try (unfold cancelJob; rewrite Hget, Ht, Hst; exact HK).
  rewrite (cancelJob_as_updates k' s Hget Ht Hst). cbn [snd].
  assert (Hne : k' <> k).
  { intros ->. destruct HK as (_ & [(Hget' & Hf & _) _ _] & _). congruence. }
  apply Kept_emit; [reflexivity|].
  apply Kept_markJob; [exact Hne | discriminate|].
  now apply Kept_stopTask.
Qed.

Lemma Kept_exec (l : list Emitted) (a : Action) (s : Scheduler) :
  Kept l s -> Kept l (exec a s).
Proof.
  intros HK. destruct a as [ev now|h'|i o|k'|]; cbn.
  - apply schedule_keeps; auto using Kept_processNow, Kept_scheduleAccepted.
    intros s0 (Hinv0 & [Hj0 Ht0 Hi0] & Hs0).
    split; [now apply Inv_scheduleRefused|]. split; [split; assumption | exact Hs0].
  - destruct (nth_error (cron s) h') as [t'|] eqn:Hn; [|exact HK].
    destruct (ct_stopped t') eqn:Hstop; [exact HK|].
    destruct HK as (Hinv & Hfz & Hs).
    destruct (inv_cron Hinv _ Hn) as (job' & Hget' & Htask').
    apply Kept_begin; [|eauto|split; [|split]; assumption].
    intros Heq. destruct Hfz as [(Hget & _ & Htask) (t & Hn' & Hstop') _].
    rewrite Heq, Hget in Hget'. injection Hget' as <-.
    rewrite Htask in Htask'. injection Htask' as <-. congruence.
  - destruct (nth_error (inflight s) i) as [r|] eqn:Hn; [|exact HK].
    apply Kept_end.
    + destruct HK as (_ & [_ _ Hi] & _). apply Hi. eapply nth_error_In; eauto.
    + destruct HK as (Hinv & [Hj Ht Hi] & Hs).
      split; [now apply Inv_resume|]. split; [split|]; try assumption.
      cbn. intros r' Hin. apply Hi. eapply In_removeNth; eauto.
  - now apply Kept_cancelJob.
  - unfold cancelAllJobs. apply Kept_fold; [|exact HK].
    intros s' k'. apply Kept_cancelJob.
Qed.

Lemma Kept_run (l : list Emitted) (acts : list Action) (s : Scheduler) :
  Kept l s -> Kept l (run acts s).
Proof. unfold run. apply Kept_fold. intros s' a. apply Kept_exec. Qed.

End Frozen.

(** C6.  Cancelling a [pending] job returns true, stops its cron task and
    marks the job [failed]; from then on, whatever happens to the scheduler,
    the job stays as it is and its task never fires (no further [jobStarted]
    for it); a second [cancelJob] on it, like [cancelJob] on any id that has
    no [pending] job, returns false and changes nothing. *)
Theorem cancelJob_pending (s : Scheduler) (jobId : string) (job : ScheduledJob)
        (Hreach : reachable s)
        (Hjob : getJobStatus s jobId = Some job)
        (Hpending : status job = pending) :
  let s' := snd (cancelJob jobId s) in
  fst (cancelJob jobId s) = true /\
  (exists h t, task job = Some h /\ nth_error (cron s') h = Some t /\
               ct_jobId t = jobId /\ ct_stopped t = true) /\
  getJobStatus s' jobId = Some (withStatus failed job) /\
  (forall acts,
      getJobStatus (run acts s') jobId = Some (withStatus failed job) /\
      starts jobId (run acts s') = starts jobId s') /\
  cancelJob jobId s' = (false, s') /\
  (forall s0 k,
      (forall job0, getJobStatus s0 k = Some job0 -> status job0 <> pending) ->
      cancelJob k s0 = (false, s0)).
Proof.
  intros s'. pose proof (Inv_reachable Hreach) as Hinv.
  unfold getJobStatus in Hjob.
  destruct (inv_jobs Hinv _ Hjob) as (Hid & Hkey & h & t & Htask & Hn & Hct).
  pose proof (cancelJob_as_updates jobId s Hjob Htask Hpending) as Hc.
  assert (Hs' : s' = emit (jobCancelled jobId (facilityName job))
                          (markJob jobId failed (setCron (stopTask h (cron s)) s)))
    by (unfold s'; now rewrite Hc).
  assert (Hget' : map_get (jobs s') jobId = Some (withStatus failed job)).
  { rewrite Hs'. cbn [jobs emit]. rewrite markJob_get. cbn [jobs setCron].
    now rewrite Hjob, String.eqb_refl. }
  assert (Hcron' : exists t', nth_error (cron s') h = Some t' /\
                              ct_jobId t' = jobId /\ ct_stopped t' = true).
  { rewrite Hs'. cbn [cron emit].
    destruct (markJob_other jobId failed (setCron (stopTask h (cron s)) s))
      as (_ & -> & _).
    cbn [cron setCron]. rewrite stopTask_nth, Hn, Nat.eqb_refl.
    eexists. split; [reflexivity|]. cbn. auto. }
  assert (HK : Kept jobId (withStatus failed job) h (starts jobId s') s').
  { split; [unfold s'; now apply Inv_cancelJob|]. split; [split|reflexivity].
    - auto.
    - destruct Hcron' as (t' & Ht' & _ & Hst'). eauto.
    - rewrite Hs'. cbn [inflight emit].
      destruct (markJob_other jobId failed (setCron (stopTask h (cron s)) s))
        as (_ & _ & -> & _).
      cbn [inflight setCron]. intros r Hin Heq.
      destruct (inv_inflight Hinv _ Hin) as [Him|(job' & Hg & Hst)].
      + rewrite Heq in Him. exact (isJobKey_not_immediate Hkey Him).
      + rewrite Heq, Hjob in Hg. injection Hg as <-. contradiction. }
  split; [now rewrite Hc|]. split.
  { destruct Hcron' as (t' & H1 & H2 & H3). exists h, t'. auto. }
  split; [exact Hget'|]. split.
  { intros acts. destruct (Kept_run acts HK) as (_ & [(Hg & _) _ _] & Hst).
    split; assumption. }
  split.
  - apply cancelJob_noop. intros job0. rewrite Hget'. intros [= <-]. discriminate.
  - intros s0 k0 H. now apply cancelJob_noop.
Qed.

(** *** Immediate processing *)

(** a run of [processFacility] for [(k, f)] is suspended *)
Definition suspended (k f : string) (s : Scheduler) : Prop :=
  exists r, In r (inflight s) /\ r_jobId r = k /\ r_facilityName r = f.

(** a run of [processFacility] for [(k, f)] has ended *)
Definition finished (k f : string) (s : Scheduler) : Prop :=
  In (jobCompleted k f) (emitted s) \/ In (jobFailed k f) (emitted s).

(** nothing suspended is dropped and nothing emitted is forgotten *)
Definition extends (s s' : Scheduler) : Prop :=
  (forall r, In r (inflight s) -> In r (inflight s')) /\
  (forall e, In e (emitted s) -> In e (emitted s')).

Lemma extends_refl (s : Scheduler) : extends s s.
Proof. split; auto. Qed.

Lemma extends_trans (s1 s2 s3 : Scheduler) :
  extends s1 s2 -> extends s2 s3 -> extends s1 s3.
Proof. intros [H1 H2] [H3 H4]. split; auto. Qed.

Lemma extends_emit (e : Emitted) (s : Scheduler) : extends s (emit e s).
Proof. split; cbn; auto. intros e' H. apply in_or_app. now left. Qed.

Lemma extends_markJob (k : string) (st : JobStatus) (s : Scheduler) :
  extends s (markJob k st s).
Proof.
  destruct (markJob_other k st s) as (_ & _ & Hi & He).
  split; rewrite ?Hi, ?He; auto.
Qed.

Lemma extends_begin (k f : string) (ev : Event) (s : Scheduler) :
  extends s (processFacility_begin k f ev s).
Proof.
  unfold processFacility_begin.
  assert (H1 : extends s (emit (jobStarted k f) (markJob k running s)))
    by (eapply extends_trans; [apply extends_markJob | apply extends_emit]).
  destruct (lookupContacts f).
  - eapply extends_trans; [exact H1|]. split; cbn; auto.
    intros r H. apply in_or_app. now left.
  - eapply extends_trans; [exact H1|].
    eapply extends_trans; [apply extends_markJob | apply extends_emit].
Qed.

Lemma extends_processNow (ev : Event) (s : Scheduler) (fac : DispatchFacility) :
  extends s (processNow ev s fac).
Proof.
  unfold processNow.
  eapply extends_trans; [|apply extends_begin]. split; cbn; auto.
Qed.

Lemma extends_scheduleAccepted (ev : Event) (nt : Z) (expr : string)
      (s : Scheduler) (fac : DispatchFacility) :
  extends s (scheduleAccepted ev nt expr s fac).
Proof.
  unfold scheduleAccepted. split; cbn; auto. intros e H. apply in_or_app. now left.
Qed.

Lemma extends_fold (A : Type) (f : Scheduler -> A -> Scheduler)
      (xs : list A) (s : Scheduler) :
  (forall s x, extends s (f s x)) -> extends s (fold_left f xs s).
Proof.
  intros Hf. revert s. induction xs as [|x xs IH]; intros s; cbn.
  - apply extends_refl.
  - eapply extends_trans; [apply Hf | apply IH].
Qed.

Lemma extends_cancelJob (k : string) (s : Scheduler) :
  extends s (snd (cancelJob k s)).
Proof.
  unfold cancelJob.
  destruct (map_get (jobs s) k) as [job|]; [|apply extends_refl].
  destruct (task job); [|apply extends_refl].
  destruct (status_eqb (status job) pending); [|apply extends_refl].
  split; cbn; auto. intros e H. apply in_or_app. now left.
Qed.

Lemma extends_end (o : AsyncOutcome) (r : Run) (s : Scheduler) :
  extends s (processFacility_end o r s) /\
  In (jobCompleted (r_jobId r) (r_facilityName r))
     (emitted (processFacility_end o r s)).
Proof.
  unfold processFacility_end.
  set (path := match capture o with Ok (Some (String c p)) => Some (String c p) | _ => None end).
  split.
  - eapply extends_trans; [|apply extends_emit].
    eapply extends_trans; [|apply extends_markJob].
    destruct (r_contacts r) as [|c cs]; [apply extends_emit|].
    destruct (notify_fields o (r_jobId r) (r_facilityName r) path (c :: cs) s)
      as (_ & _ & _ & H4 & es & H5 & _).
    split; rewrite ?H4, ?H5; auto. intros e H. apply in_or_app. now left.
  - cbn. apply in_or_app. right. now left.
Qed.

Lemma In_removeNth_or (A : Type) (i : nat) (l : list A) (x y : A) :
  In x l -> nth_error l i = Some y -> x = y \/ In x (removeNth i l).
Proof.
  revert i. induction l as [|z l IH]; intros [|i]; cbn; try tauto.
  - intros [->|H] [= <-]; auto.
  - intros [->|H] Hn; [right; now left|].
    destruct (IH i H Hn); auto.
Qed.

Lemma underway_extends (k f : string) (s s' : Scheduler) :
  extends s s' ->
  suspended k f s \/ finished k f s -> suspended k f s' \/ finished k f s'.
Proof.
  intros [Hi He] [(r & Hin & Hr)|[H|H]].
  - left. exists r. auto.
  - right. left. auto.
  - right. right. auto.
Qed.

(** A run that has started stays suspended until it ends, whatever else
    happens, in particular whatever the other runs end with. *)
Lemma underway_exec (k f : string) (a : Action) (s : Scheduler) :
  suspended k f s \/ finished k f s ->
  suspended k f (exec a s) \/ finished k f (exec a s).
Proof.
  intros H. destruct a as [ev now|h|i o|k'|]; cbn.
  - eapply underway_extends; [|exact H].
    apply (schedule_keeps (fun s' => extends s s')); [| | |apply extends_refl].
    + intros s0 fac H0. eapply extends_trans; [exact H0 | apply extends_processNow].
    + intros nt expr s0 fac H0.
      eapply extends_trans; [exact H0 | apply extends_scheduleAccepted].
    + intros s0 H0. eapply extends_trans; [exact H0|]. split; cbn; auto.
  - destruct (nth_error (cron s) h) as [t|]; [|exact H].
    destruct (ct_stopped t); [exact H|].
    eapply underway_extends; [apply extends_begin | exact H].
  - destruct (nth_error (inflight s) i) as [r'|] eqn:Hn; [|exact H].
    destruct (extends_end o r' (setInflight (removeNth i (inflight s)) s))
      as (Hext & Hdone).
    destruct H as [(r & Hin & Hk & Hf)|Hfin].
    + destruct (@In_removeNth_or _ i (inflight s) r r' Hin Hn) as [->|Hin'].
      * right. left. rewrite <- Hk, <- Hf. exact Hdone.
      * left. exists r. split; [|auto]. apply Hext. exact Hin'.
    + eapply underway_extends; [exact Hext|]. right. exact Hfin.
  - eapply underway_extends; [apply extends_cancelJob | exact H].
  - eapply underway_extends; [|exact H].
    unfold cancelAllJobs. apply extends_fold. intros s' x. apply extends_cancelJob.
Qed.

Lemma underway_run (k f : string) (acts : list Action) (s : Scheduler) :
  suspended k f s \/ finished k f s ->
  suspended k f (run acts s) \/ finished k f (run acts s).
Proof.
  unfold run. revert s. induction acts as [|a acts IH]; intros s H; cbn; [exact H|].
  apply IH, underway_exec, H.
Qed.

Lemma processNow_effect (ev : Event) (s : Scheduler) (fac : DispatchFacility) :
  Inv s ->
  let name := Types.facilityName fac in
  let k := jobIdFor "immediate" (S (jobCounter s)) name in
  let s' := processNow ev s fac in
  jobs s' = jobs s /\ cron s' = cron s /\ jobCounter s' = S (jobCounter s) /\
  In (jobStarted k name) (emitted s') /\
  (suspended k name s' \/ finished k name s').
Proof.
  intros Hinv name k s'.
  assert (Habs : map_get (jobs (setCounter (S (jobCounter s)) s)) k = None).
  { cbn. apply Inv_immediate_absent; [exact Hinv|]. eexists _, _. reflexivity. }
  unfold s', processNow. fold name. fold k. unfold processFacility_begin.
  rewrite (markJob_absent k running _ Habs).
  destruct (lookupContacts name) as [contacts|err].
  - cbn. repeat split; auto.
    + apply in_or_app. right. now left.
    + left. eexists. split; [apply in_or_app; right; left; reflexivity|]. cbn. auto.
  - rewrite markJob_absent by exact Habs. cbn. repeat split; auto.
    + apply in_or_app. left. apply in_or_app. right. now left.
    + right. right. apply in_or_app. right. now left.
Qed.

Lemma processAll_effect (ev : Event) (facs : list DispatchFacility) (s : Scheduler) :
  Inv s ->
  let s' := fold_left (processNow ev) facs s in
  jobs s' = jobs s /\ cron s' = cron s /\
  forall i fac, nth_error facs i = Some fac ->
    let name := Types.facilityName fac in
    let k := jobIdFor "immediate" (jobCounter s + 1 + i) name in
    In (jobStarted k name) (emitted s') /\
    (suspended k name s' \/ finished k name s').
Proof.
  revert s. induction facs as [|fac0 facs IH]; intros s Hinv; cbn [fold_left].
  - split; [reflexivity|]. split; [reflexivity|]. intros [|i] fac; discriminate.
  - destruct (processNow_effect ev fac0 Hinv) as (Hj & Hc & Hn & Hst & Hu).
    destruct (IH (processNow ev s fac0) (Inv_processNow ev fac0 Hinv))
      as (Hj' & Hc' & Hall).
    split; [congruence|]. split; [congruence|].
    intros [|i] fac Hnth; cbn in Hnth.
    + injection Hnth as <-.
      replace (jobCounter s + 1 + 0)%nat with (S (jobCounter s)) by lia.
      pose proof (extends_fold (processNow ev) facs (processNow ev s fac0)
                    (extends_processNow ev)) as Hext.
      split; [apply Hext, Hst | eapply underway_extends; eauto].
    + replace (jobCounter s + 1 + S i)%nat
        with (jobCounter (processNow ev s fac0) + 1 + i)%nat by lia.
      now apply Hall.
Qed.

(** C1, as the code has it.  The notification time is the start moved ten
    minutes forward on the local clock: ten minutes after the start, moved by
    the change of the zone's offset in between.  When it is at or before the
    current time, scheduling returns without throwing and creates no timer
    and no job record; a run of [processFacility] is started at once for
    every facility of the list ([jobStarted] under an [immediate-N-...] id);
    no job is ever recorded under such an id, so no status is kept for it;
    and each run, once started, stays suspended until it has ended
    ([jobCompleted] or [jobFailed]) whatever the other runs end with: ending
    any suspended run, with any outcome of the capture and of the sends,
    emits its [jobCompleted]. *)
Theorem schedule_past_due (s : Scheduler) (ev : Event) (now : Z)
        (Hreach : reachable s)
        (Hpast : startTime ev + 600000 + startShift ev <= now) :
  let s' := fst (scheduleDispatchNotifications ev now s) in
  snd (scheduleDispatchNotifications ev now s) = Ok tt /\
  jobs s' = jobs s /\ cron s' = cron s /\
  (forall i fac, nth_error (facilities ev) i = Some fac ->
     let name := Types.facilityName fac in
     let jobId := jobIdFor "immediate" (jobCounter s + 1 + i) name in
     In (jobStarted jobId name) (emitted s') /\
     forall acts,
       getJobStatus (run acts s') jobId = None /\
       (suspended jobId name (run acts s') \/ finished jobId name (run acts s'))) /\
  (forall acts i o r,
     nth_error (inflight (run acts s')) i = Some r ->
     In (jobCompleted (r_jobId r) (r_facilityName r))
        (emitted (exec (Settle i o) (run acts s')))).
Proof.
  intros s'. pose proof (Inv_reachable Hreach) as Hinv.
  assert (Hpair : scheduleDispatchNotifications ev now s =
                  (fold_left (processNow ev) (facilities ev) s, Ok tt)).
  { unfold scheduleDispatchNotifications, processAllFacilities.
    rewrite notificationTime_eq.
    replace (startTime ev + 600000 + startShift ev <=? now) with true
      by (symmetry; apply Z.leb_le; exact Hpast).
    reflexivity. }
  assert (Hs' : s' = fold_left (processNow ev) (facilities ev) s)
    by (unfold s'; now rewrite Hpair).
  split; [now rewrite Hpair|].
  destruct (processAll_effect ev (facilities ev) Hinv) as (Hj & Hc & Hall).
  rewrite <- Hs' in Hj, Hc, Hall.
  split; [exact Hj|]. split; [exact Hc|]. split.
  - intros i fac Hnth name jobId.
    destruct (Hall i fac Hnth) as (Hst & Hu). split; [exact Hst|].
    intros acts. split.
    + apply Inv_immediate_absent.
      * apply Inv_run. unfold s'. now apply Inv_schedule.
      * eexists _, _. reflexivity.
    + now apply underway_run.
  - intros acts i o r Hn. cbn [exec]. rewrite Hn. apply extends_end.
Qed.

(** *** Further properties of the scheduler *)

(** X6.  [getStatistics]: the four counts add up to the number of jobs. *)
Theorem getStatistics_total (s : Scheduler) :
  (st_pending (getStatistics s) + st_running (getStatistics s) +
   st_completed (getStatistics s) + st_failed (getStatistics s))%nat =
  map_size (jobs s).
Proof.
  unfold getStatistics, countStatus, map_size, map_values. cbn.
  induction (jobs s) as [|[k j] m IH]; cbn; [reflexivity|].
  destruct (status j); cbn; lia.
Qed.

(** **** [cancelAllJobs] *)

Lemma cancelJob_get (k k' : string) (s : Scheduler) :
  Inv s ->
  map_get (jobs (snd (cancelJob k s))) k' =
  match map_get (jobs s) k' with
  | Some j => Some (if String.eqb k k' && status_eqb (status j) pending
                    then withStatus failed j else j)
  | None => None
  end.
Proof.
  intros Hinv.
  destruct (map_get (jobs s) k) as [job|] eqn:Hget.
  - destruct (inv_jobs Hinv _ Hget) as (_ & _ & h & t & Ht & _).
    destruct (status job) eqn:Hst.
    + rewrite (cancelJob_as_updates k s Hget Ht Hst). cbn [snd jobs emit].
      rewrite markJob_get. cbn [jobs setCron].
      destruct (String.eqb k k') eqn:E.
      * apply String.eqb_eq in E. subst k'. rewrite Hget, Hst. reflexivity.
      * destruct (map_get (jobs s) k'); reflexivity.
    + rewrite cancelJob_noop by (intros j0; rewrite Hget; intros [= <-]; congruence).
      cbn [snd]. destruct (String.eqb k k') eqn:E.
      * apply String.eqb_eq in E. subst k'. rewrite Hget, Hst. reflexivity.
      * destruct (map_get (jobs s) k'); reflexivity.
    + rewrite cancelJob_noop by (intros j0; rewrite Hget; intros [= <-]; congruence).
      cbn [snd]. destruct (String.eqb k k') eqn:E.
      * apply String.eqb_eq in E. subst k'. rewrite Hget, Hst. reflexivity.
      * destruct (map_get (jobs s) k'); reflexivity.
    + rewrite cancelJob_noop by (intros j0; rewrite Hget; intros [= <-]; congruence).
      cbn [snd]. destruct (String.eqb k k') eqn:E.
      * apply String.eqb_eq in E. subst k'. rewrite Hget, Hst. reflexivity.
      * destruct (map_get (jobs s) k'); reflexivity.
  - rewrite cancelJob_noop by (intros j0; rewrite Hget; discriminate).
    cbn [snd]. destruct (String.eqb k k') eqn:E.
    + apply String.eqb_eq in E. subst k'. now rewrite Hget.
    + destruct (map_get (jobs s) k'); reflexivity.
Qed.

Lemma cancelFold_get (ks : list string) (s : Scheduler) (k' : string) :
  Inv s ->
  map_get (jobs (fold_left (fun s k => snd (cancelJob k s)) ks s)) k' =
  match map_get (jobs s) k' with
  | Some j => Some (if existsb (String.eqb k') ks && status_eqb (status j) pending
                    then withStatus failed j else j)
  | None => None
  end.
Proof.
  revert s. induction ks as [|k ks IH]; intros s Hinv; cbn [fold_left existsb].
  - destruct (map_get (jobs s) k'); reflexivity.
  - rewrite IH by now apply Inv_cancelJob.
    rewrite (cancelJob_get k k' Hinv).
    destruct (map_get (jobs s) k') as [j|]; [|reflexivity].
    rewrite (String.eqb_sym k' k).
    destruct (String.eqb k k'); cbn [andb orb].
    + destruct (status j) eqn:Hst; cbn; rewrite ?Hst, ?andb_false_r; reflexivity.
    + reflexivity.
Qed.

Lemma map_get_existsb_key (V : Type) (m : Map V) (k : string) (v : V) :
  map_get m k = Some v -> existsb (String.eqb k) (map_keys m) = true.
Proof.
  induction m as [|[k0 v0] m IH]; cbn; [discriminate|].
  rewrite (String.eqb_sym k k0). destruct (String.eqb k0 k); [reflexivity|].
  exact IH.
Qed.

Lemma filter_none (A : Type) (f : A -> bool) (l : list A) :
  (forall x, In x l -> f x = false) -> List.filter f l = [].
Proof.
  induction l as [|x l IH]; cbn; intros H; [reflexivity|].
  rewrite (H x) by now left. apply IH. intros y Hy. apply H. now right.
Qed.

(** X7.  [cancelAllJobs] leaves no [pending] job: every job that was [pending] is
    now [failed], every other job is as it was. *)
Theorem cancelAllJobs_spec (s : Scheduler) (Hreach : reachable s) :
  getActiveJobs (cancelAllJobs s) = [] /\
  forall k job,
    getJobStatus s k = Some job ->
    getJobStatus (cancelAllJobs s) k =
    Some (if status_eqb (status job) pending then withStatus failed job else job).
Proof.
  pose proof (Inv_reachable Hreach) as Hinv.
  assert (Hget : forall k job,
             map_get (jobs s) k = Some job ->
             map_get (jobs (cancelAllJobs s)) k =
             Some (if status_eqb (status job) pending then withStatus failed job else job)).
  { intros k job Hk. unfold cancelAllJobs.
    rewrite (cancelFold_get (map_keys (jobs s)) k Hinv), Hk.
    now rewrite (@map_get_existsb_key _ _ k job Hk). }
  split; [|exact Hget].
  unfold getActiveJobs. apply filter_none. intros j Hj.
  unfold map_values in Hj. apply in_map_iff in Hj. destruct Hj as ([k j'] & <- & Hin).
  cbn [snd].
  pose proof (Inv_cancelAllJobs Hinv) as Hinv'.
  pose proof (@map_In_get _ _ k j' (inv_nodup Hinv') Hin) as Hk.
  unfold cancelAllJobs in Hk. rewrite (cancelFold_get (map_keys (jobs s)) k Hinv) in Hk.
  destruct (map_get (jobs s) k) as [j0|] eqn:E; [|discriminate].
  injection Hk as <-.
  destruct (existsb (String.eqb k) (map_keys (jobs s)) && status_eqb (status j0) pending)
    eqn:Eb; [reflexivity|].
  rewrite (@map_get_existsb_key _ _ k j0 E) in Eb. cbn in Eb.
  destruct (status j0); cbn in *; congruence.
Qed.

(** **** Jobs are kept, and never go back to [pending] *)

(** [j'] is the job [j], whatever its status *)
Definition sameJob (j j' : ScheduledJob) : Prop :=
  id j' = id j /\ facilityName j' = facilityName j /\
  dispatchEvent j' = dispatchEvent j /\ scheduledTime j' = scheduledTime j /\
  task j' = task j.

Definition Persists (k : string) (job : ScheduledJob) (s : Scheduler) : Prop :=
  exists job', map_get (jobs s) k = Some job' /\ sameJob job job' /\
               (status job' = pending -> status job = pending).

Lemma Persists_jobs (k : string) (job : ScheduledJob) (s s' : Scheduler) :
  jobs s' = jobs s -> Persists k job s -> Persists k job s'.
Proof. intros Hj (job' & H). exists job'. now rewrite Hj. Qed.

Lemma Persists_markJob (k k' : string) (job : ScheduledJob) (st : JobStatus)
      (s : Scheduler) :
  st <> pending -> Persists k job s -> Persists k job (markJob k' st s).
Proof.
  intros Hst (job' & Hget & Hsame & Hp). unfold Persists.
  rewrite markJob_get, Hget. destruct (String.eqb k' k).
  - eexists. split; [reflexivity|]. split; [exact Hsame|]. cbn. congruence.
  - eauto.
Qed.

Lemma Persists_begin (k k' f : string) (job : ScheduledJob) (ev : Event) (s : Scheduler) :
  Persists k job s -> Persists k job (processFacility_begin k' f ev s).
Proof.
  intros H. unfold processFacility_begin.
  assert (H1 : Persists k job (emit (jobStarted k' f) (markJob k' running s))).
  { eapply Persists_jobs; [|apply (Persists_markJob k' (st := running)); [discriminate|exact H]].
    reflexivity. }
  destruct (lookupContacts f).
  - eapply Persists_jobs; [|exact H1]. reflexivity.
  - eapply Persists_jobs;
      [|apply (Persists_markJob k' (st := failed)); [discriminate|exact H1]].
    reflexivity.
Qed.

Lemma Persists_end (k : string) (job : ScheduledJob) (o : AsyncOutcome) (r : Run)
      (s : Scheduler) :
  Persists k job s -> Persists k job (processFacility_end o r s).
Proof.
  intros H. unfold processFacility_end.
  set (path := match capture o with Ok (Some (String c p)) => Some (String c p) | _ => None end).
  eapply Persists_jobs; [reflexivity|].
  apply Persists_markJob; [discriminate|].
  destruct (r_contacts r) as [|c cs].
  - eapply Persists_jobs; [|exact H]. reflexivity.
  - destruct (notify_fields o (r_jobId r) (r_facilityName r) path (c :: cs) s)
      as (H1 & _).
    eapply Persists_jobs; [exact H1 | exact H].
Qed.

Lemma Persists_scheduleAccepted (k : string) (job : ScheduledJob) (ev : Event) (nt : Z)
      (expr : string) (s : Scheduler) (fac : DispatchFacility) :
  Inv s -> Persists k job s -> Persists k job (scheduleAccepted ev nt expr s fac).
Proof.
  intros Hinv (job' & Hget & H). exists job'. split; [|exact H].
  unfold scheduleAccepted. cbn [jobs emit setJobs setCron setCounter jobCounter].
  rewrite map_get_set_other; [exact Hget|].
  intros Heq. pose proof (Inv_fresh_key (Types.facilityName fac) Hinv) as Hfresh.
  rewrite Heq in Hfresh. congruence.
Qed.

Lemma Persists_cancelJob (k k' : string) (job : ScheduledJob) (s : Scheduler) :
  Inv s -> Persists k job s -> Persists k job (snd (cancelJob k' s)).
Proof.
  intros Hinv (job' & Hget & Hsame & Hp). unfold Persists.
  rewrite (cancelJob_get k' k Hinv), Hget.
  destruct (String.eqb k' k && status_eqb (status job') pending) eqn:E.
  - eexists. split; [reflexivity|]. split; [exact Hsame|]. cbn. discriminate.
  - eauto.
Qed.

Lemma Persists_fold (A : Type) (k : string) (job : ScheduledJob)
      (f : Scheduler -> A -> Scheduler) (xs : list A) (s : Scheduler) :
  (forall s x, Inv s -> Inv (f s x)) ->
  (forall s x, Inv s -> Persists k job s -> Persists k job (f s x)) ->
  Inv s -> Persists k job s -> Persists k job (fold_left f xs s).
Proof.
  intros Hi Hf. revert s. induction xs as [|x xs IH]; intros s Hinv H; cbn; auto.
Qed.

Lemma Persists_exec (k : string) (job : ScheduledJob) (a : Action) (s : Scheduler) :
  Inv s -> Persists k job s -> Persists k job (exec a s).
Proof.
  intros Hinv H. destruct a as [ev now|h|i o|k'|]; cbn.
  - apply (schedule_keeps (fun s' => Inv s' /\ Persists k job s')); [| | |auto].
    + intros s0 fac [Hi0 H0]. split; [now apply Inv_processNow|].
      unfold processNow. apply Persists_begin.
      eapply Persists_jobs; [|exact H0]. reflexivity.
    + intros nt expr s0 fac [Hi0 H0].
      split; [now apply Inv_scheduleAccepted | now apply Persists_scheduleAccepted].
    + intros s0 [Hi0 H0]. split; [now apply Inv_scheduleRefused|].
      eapply Persists_jobs; [|exact H0]. reflexivity.
  - destruct (nth_error (cron s) h) as [t|]; [|exact H].
    destruct (ct_stopped t); [exact H|]. now apply Persists_begin.
  - destruct (nth_error (inflight s) i); [|exact H].
    apply Persists_end. eapply Persists_jobs; [|exact H]. reflexivity.
  - now apply Persists_cancelJob.
  - unfold cancelAllJobs. apply Persists_fold; auto.
    + intros; now apply Inv_cancelJob.
    + intros; now apply Persists_cancelJob.
Qed.

(** X8.  A recorded job is never removed and never changes identity, facility,
    event, scheduled time or timer; and once it has left [pending] it never
    is [pending] again, whatever happens to the scheduler. *)
Theorem job_never_pending_again (s : Scheduler) (k : string) (job : ScheduledJob)
        (acts : list Action)
        (Hreach : reachable s) (Hjob : getJobStatus s k = Some job) :
  exists job',
    getJobStatus (run acts s) k = Some job' /\ sameJob job job' /\
    (status job' = pending -> status job = pending).
Proof.
  pose proof (Inv_reachable Hreach) as Hinv.
  assert (H0 : Persists k job s).
  { exists job. split; [exact Hjob|]. split; [repeat split | auto]. }
  clear Hjob Hreach. unfold run. revert s Hinv H0.
  induction acts as [|a acts IH]; intros s Hinv H0; cbn [fold_left]; [exact H0|].
  apply IH; [now apply Inv_exec | now apply Persists_exec].
Qed.

(** **** Scheduling on a scheduler that already holds jobs *)





(** **** The life of a scheduled job *)

(** The cron task of a job calls back with the job's facility and event, and
    the task of a [pending] job has not been stopped. *)
Record Linked (s : Scheduler) : Prop := {
  lk_task : forall k job h t,
      map_get (jobs s) k = Some job -> task job = Some h ->
      nth_error (cron s) h = Some t ->
      ct_facilityName t = facilityName job /\ ct_event t = dispatchEvent job;
  lk_pending : forall k job h t,
      map_get (jobs s) k = Some job -> status job = pending ->
      task job = Some h -> nth_error (cron s) h = Some t ->
      ct_stopped t = false
}.

Lemma Linked_new : Linked newScheduler.
Proof. split; cbn; discriminate. Qed.

(** every job of [s'] is a job of [s] whose status may have moved on *)
Definition statusOnly (s s' : Scheduler) : Prop :=
  cron s' = cron s /\
  forall k job', map_get (jobs s') k = Some job' ->
    exists job, map_get (jobs s) k = Some job /\ sameJob job job' /\
                (status job' = pending -> job' = job).

Lemma statusOnly_refl (s s' : Scheduler) :
  jobs s' = jobs s -> cron s' = cron s -> statusOnly s s'.
Proof.
  intros Hj Hc. split; [exact Hc|]. intros k job' H. rewrite Hj in H.
  exists job'. split; [exact H|]. split; [repeat split | auto].
Qed.

Lemma statusOnly_trans (s1 s2 s3 : Scheduler) :
  statusOnly s1 s2 -> statusOnly s2 s3 -> statusOnly s1 s3.
Proof.
  intros [Hc1 H1] [Hc2 H2]. split; [congruence|].
  intros k job3 H3. destruct (H2 _ _ H3) as (job2 & Hg2 & (A1 & A2 & A3 & A4 & A5) & Hp2).
  destruct (H1 _ _ Hg2) as (job1 & Hg1 & (B1 & B2 & B3 & B4 & B5) & Hp1).
  exists job1. split; [exact Hg1|]. split.
  - repeat split; congruence.
  - intros Hp. specialize (Hp2 Hp). subst job3. now apply Hp1.
Qed.

Lemma statusOnly_markJob (k : string) (st : JobStatus) (s : Scheduler) :
  st <> pending -> statusOnly s (markJob k st s).
Proof.
  intros Hst. destruct (markJob_other k st s) as (_ & Hc & _). split; [exact Hc|].
  intros k' job'. rewrite markJob_get.
  destruct (map_get (jobs s) k') as [job|]; [|discriminate]. intros [= <-].
  exists job. split; [reflexivity|]. destruct (String.eqb k k').
  - split; [repeat split | cbn; congruence].
  - split; [repeat split | auto].
Qed.

Lemma Linked_statusOnly (s s' : Scheduler) :
  statusOnly s s' -> Linked s -> Linked s'.
Proof.
  intros [Hc H] [Ht Hp]. split; rewrite Hc.
  - intros k job' h t Hg Htask Hn.
    destruct (H _ _ Hg) as (job & Hg0 & (_ & A2 & A3 & _ & A5) & _).
    rewrite A2, A3. eapply Ht; eauto. congruence.
  - intros k job' h t Hg Hst Htask Hn.
    destruct (H _ _ Hg) as (job & Hg0 & _ & Heq). specialize (Heq Hst). subst job'.
    eapply Hp; eauto.
Qed.

Lemma statusOnly_begin (k f : string) (ev : Event) (s : Scheduler) :
  statusOnly s (processFacility_begin k f ev s).
Proof.
  unfold processFacility_begin.
  assert (H1 : statusOnly s (emit (jobStarted k f) (markJob k running s))).
  { eapply statusOnly_trans; [apply (statusOnly_markJob k (st := running)); discriminate|].
    now apply statusOnly_refl. }
  destruct (lookupContacts f).
  - eapply statusOnly_trans; [exact H1 | now apply statusOnly_refl].
  - eapply statusOnly_trans; [exact H1|].
    eapply statusOnly_trans; [apply (statusOnly_markJob k (st := failed)); discriminate|].
    now apply statusOnly_refl.
Qed.

Lemma statusOnly_end (o : AsyncOutcome) (r : Run) (s : Scheduler) :
  statusOnly s (processFacility_end o r s).
Proof.
  unfold processFacility_end.
  set (path := match capture o with Ok (Some (String c p)) => Some (String c p) | _ => None end).
  eapply statusOnly_trans; [|now apply statusOnly_refl].
  eapply statusOnly_trans;
    [|apply (statusOnly_markJob (r_jobId r) (st := completed)); discriminate].
  destruct (r_contacts r) as [|c cs]; [now apply statusOnly_refl|].
  destruct (notify_fields o (r_jobId r) (r_facilityName r) path (c :: cs) s)
    as (H1 & _ & H3 & _).
  now apply statusOnly_refl.
Qed.

Lemma Linked_scheduleAccepted (ev : Event) (nt : Z) (expr : string)
      (s : Scheduler) (fac : DispatchFacility) :
  Inv s -> Linked s -> Linked (scheduleAccepted ev nt expr s fac).
Proof.
  intros Hinv [Ht Hp].
  pose proof (Inv_fresh_key (Types.facilityName fac) Hinv) as Hfresh.
  unfold scheduleAccepted. cbn [jobCounter setCounter].
  remember (jobIdFor "job" (S (jobCounter s)) (Types.facilityName fac)) as k0 eqn:Hk0.
  split; cbn [jobs cron emit setJobs setCron setCounter].
  - intros k job h t Hg Htask Hn. destruct (String.eqb k0 k) eqn:E.
    + apply String.eqb_eq in E. subst k. rewrite map_get_set_same in Hg.
      injection Hg as <-. cbn in Htask. injection Htask as <-.
      rewrite nth_error_app2, Nat.sub_diag in Hn by lia. cbn in Hn.
      injection Hn as <-. cbn. auto.
    + apply String.eqb_neq in E. rewrite map_get_set_other in Hg by exact E.
      destruct (inv_jobs Hinv _ Hg) as (_ & _ & h' & t' & Ht' & Hn' & _).
      rewrite Htask in Ht'. injection Ht' as <-.
      rewrite nth_error_app1 in Hn by (apply nth_error_Some; congruence).
      eapply Ht; eauto.
  - intros k job h t Hg Hst Htask Hn. destruct (String.eqb k0 k) eqn:E.
    + apply String.eqb_eq in E. subst k. rewrite map_get_set_same in Hg.
      injection Hg as <-. cbn in Htask. injection Htask as <-.
      rewrite nth_error_app2, Nat.sub_diag in Hn by lia. cbn in Hn.
      injection Hn as <-. reflexivity.
    + apply String.eqb_neq in E. rewrite map_get_set_other in Hg by exact E.
      destruct (inv_jobs Hinv _ Hg) as (_ & _ & h' & t' & Ht' & Hn' & _).
      rewrite Htask in Ht'. injection Ht' as <-.
      rewrite nth_error_app1 in Hn by (apply nth_error_Some; congruence).
      eapply Hp; eauto.
Qed.

Lemma Linked_cancelJob (k : string) (s : Scheduler) :
  Inv s -> Linked s -> Linked (snd (cancelJob k s)).
Proof.
  intros Hinv Hl.
  destruct (map_get (jobs s) k) as [job|] eqn:Hget;
    [|rewrite cancelJob_noop; [exact Hl | intros j0; rewrite Hget; discriminate]].
  destruct (status job) eqn:Hst;
    try (rewrite cancelJob_noop;
         [exact Hl | intros j0; rewrite Hget; intros [= <-]; congruence]).
  destruct (inv_jobs Hinv _ Hget) as (_ & _ & h & t & Htask & Hn & Hct).
  rewrite (cancelJob_as_updates k s Hget Htask Hst). cbn [snd].
  destruct Hl as [Ht Hp].
  destruct (markJob_other k failed (setCron (stopTask h (cron s)) s)) as (_ & Hc & _).
  split; cbn [jobs cron emit]; rewrite Hc; cbn [cron setCron].
  - intros k0 job' h0 t0. rewrite markJob_get. cbn [jobs setCron].
    destruct (map_get (jobs s) k0) as [job0|] eqn:Hg0; [|discriminate].
    intros [= <-] Htask0. rewrite stopTask_nth.
    destruct (nth_error (cron s) h0) as [t1|] eqn:Hn0; [|discriminate].
    intros [= <-].
    assert (H0 : ct_facilityName t1 = facilityName job0 /\ ct_event t1 = dispatchEvent job0).
    { eapply Ht; eauto. destruct (String.eqb k k0); exact Htask0. }
    destruct (String.eqb k k0), (Nat.eqb h h0); exact H0.
  - intros k0 job' h0 t0. rewrite markJob_get. cbn [jobs setCron].
    destruct (map_get (jobs s) k0) as [job0|] eqn:Hg0; [|discriminate].
    intros [= <-]. destruct (String.eqb k k0) eqn:Ek; [cbn; discriminate|].
    intros Hst0 Htask0. rewrite stopTask_nth.
    destruct (nth_error (cron s) h0) as [t1|] eqn:Hn0; [|discriminate].
    intros [= <-]. destruct (Nat.eqb h h0) eqn:Eh.
    + exfalso. apply Nat.eqb_eq in Eh. subst h0.
      destruct (inv_jobs Hinv _ Hg0) as (_ & _ & h' & t' & Ht' & Hn' & Hct').
      rewrite Htask0 in Ht'. injection Ht' as <-.
      rewrite Hn in Hn'. injection Hn' as <-.
      apply String.eqb_neq in Ek. congruence.
    + eapply Hp; eauto.
Qed.

Lemma reachable_Linked (s : Scheduler) : reachable s -> Inv s /\ Linked s.
Proof.
  intros [acts ->]. unfold run.
  assert (H : Inv newScheduler /\ Linked newScheduler) by (split; [apply Inv_new | apply Linked_new]).
  revert H. generalize newScheduler.
  assert (Hfold : forall (A : Type) (f : Scheduler -> A -> Scheduler) (xs : list A) s0,
             (forall s x, Inv s /\ Linked s -> Inv (f s x) /\ Linked (f s x)) ->
             Inv s0 /\ Linked s0 -> Inv (fold_left f xs s0) /\ Linked (fold_left f xs s0)).
  { intros A f xs. induction xs as [|x xs IH]; intros s0 Hf H0; cbn; auto. }
  intros s0 H0. apply Hfold; [|exact H0]. clear s0 H0.
  intros s a [Hinv Hl]. split; [now apply Inv_exec|].
  destruct a as [ev now|h|i o|k|]; cbn.
  - apply (schedule_keeps (fun s' => Inv s' /\ Linked s')); [| | |auto].
    + intros s0 fac [Hi0 Hl0]. split; [now apply Inv_processNow|].
      unfold processNow. eapply Linked_statusOnly; [apply statusOnly_begin|].
      eapply Linked_statusOnly; [|exact Hl0]. now apply statusOnly_refl.
    + intros s0 fac [Hi0 Hl0].
      split; [now apply Inv_scheduleAccepted | now apply Linked_scheduleAccepted].
    + intros s0 [Hi0 Hl0]. split; [now apply Inv_scheduleRefused|].
      eapply Linked_statusOnly; [|exact Hl0]. now apply statusOnly_refl.
  - destruct (nth_error (cron s) h) as [t|]; [|exact Hl].
    destruct (ct_stopped t); [exact Hl|].
    eapply Linked_statusOnly; [apply statusOnly_begin | exact Hl].
  - destruct (nth_error (inflight s) i); [|exact Hl].
    eapply Linked_statusOnly; [apply statusOnly_end|].
    eapply Linked_statusOnly; [|exact Hl]. now apply statusOnly_refl.
  - now apply Linked_cancelJob.
  - unfold cancelAllJobs. apply Hfold; auto.
    intros s0 k0 [Hi0 Hl0]. split; [now apply Inv_cancelJob | now apply Linked_cancelJob].
Qed.

Lemma removeNth_last (A : Type) (l : list A) (x : A) :
  removeNth (List.length l) (l ++ [x]) = l.
Proof. induction l as [|y l IH]; cbn; [reflexivity | now rewrite IH]. Qed.

(** X10.  When the timer of a [pending] job fires, the job becomes [running] and
    [jobStarted] is emitted.  If its contacts can be looked up the run is
    suspended, and when it ends, whatever the capture and the sends did, the
    job is [completed] and [jobCompleted] is the last event; if the lookup
    throws, the job is [failed] at once and [jobFailed] follows
    [jobStarted]. *)
Theorem job_lifecycle (s : Scheduler) (k : string) (job : ScheduledJob) (h : nat)
        (Hreach : reachable s)
        (Hjob : getJobStatus s k = Some job)
        (Hpending : status job = pending)
        (Htask : task job = Some h) :
  let name := facilityName job in
  let s1 := exec (Tick h) s in
  (forall contacts, lookupContacts name = Ok contacts ->
     getJobStatus s1 k = Some (withStatus running job) /\
     emitted s1 = (emitted s ++ [jobStarted k name])%list /\
     inflight s1 = (inflight s ++ [ {| r_jobId := k; r_facilityName := name;
                                       r_event := dispatchEvent job;
                                       r_contacts := contacts |} ])%list /\
     forall o,
       let s2 := exec (Settle (List.length (inflight s)) o) s1 in
       getJobStatus s2 k = Some (withStatus completed job) /\
       inflight s2 = inflight s /\
       exists es, emitted s2 = (emitted s1 ++ es ++ [jobCompleted k name])%list /\
                  (contacts = [] -> es = [noContactsFound k name])) /\
  (forall e, lookupContacts name = Throw e ->
     getJobStatus s1 k = Some (withStatus failed job) /\
     emitted s1 = (emitted s ++ [jobStarted k name; jobFailed k name])%list /\
     inflight s1 = inflight s).
Proof.
  intros name s1. destruct (reachable_Linked Hreach) as [Hinv Hl].
  unfold getJobStatus in *.
  destruct (inv_jobs Hinv _ Hjob) as (_ & _ & h' & t & Ht' & Hn & Hct).
  rewrite Htask in Ht'. injection Ht' as <-.
  destruct (@lk_task s Hl k job h t Hjob Htask Hn) as (Hf & He).
  pose proof (@lk_pending s Hl k job h t Hjob Hpending Htask Hn) as Hstop.
  assert (Hs1 : s1 = processFacility_begin k name (dispatchEvent job) s).
  { unfold s1. cbn [exec]. rewrite Hn, Hstop, Hct, Hf, He. reflexivity. }
  assert (Hmark : forall st, markJob k st s =
                    setJobs (map_set (jobs s) k (withStatus st job)) s)
    by (intros st; unfold markJob; now rewrite Hjob).
  split.
  - intros contacts Hlook. rewrite Hs1. unfold processFacility_begin.
    rewrite Hlook, Hmark.
    cbn [jobs emitted inflight emit setJobs setInflight].
    split; [apply map_get_set_same|]. split; [reflexivity|]. split; [reflexivity|].
    intros o. cbn [exec inflight emit setJobs setInflight].
    rewrite nth_error_app2, Nat.sub_diag by lia. cbn [nth_error].
    rewrite removeNth_last. unfold processFacility_end.
    cbn [r_jobId r_facilityName r_contacts].
    set (path := match capture o with Ok (Some (String c p)) => Some (String c p) | _ => None end).
    set (s0 := setInflight (inflight s) _).
    assert (Hs0 : jobs s0 = map_set (jobs s) k (withStatus running job) /\
                  inflight s0 = inflight s /\
                  emitted s0 = (emitted s ++ [jobStarted k name])%list)
      by (repeat split).
    destruct Hs0 as (Hj0 & Hi0 & He0).
    set (sn := match contacts with
               | [] => emit (noContactsFound k name) s0
               | _ :: _ => fold_left (notify o k name path) contacts s0
               end).
    assert (Hsn : jobs sn = jobs s0 /\ inflight sn = inflight s0 /\
                  exists es, emitted sn = (emitted s0 ++ es)%list /\
                             (contacts = [] -> es = [noContactsFound k name])).
    { unfold sn. destruct contacts as [|c cs].
      - repeat split. exists [noContactsFound k name]. auto.
      - destruct (notify_fields o k name path (c :: cs) s0)
          as (H1 & _ & _ & H4 & es & H5 & _).
        repeat split; try assumption. exists es. split; [exact H5 | discriminate]. }
    destruct Hsn as (Hjn & Hin & es & Hen & Hes).
    destruct (markJob_other k completed sn) as (_ & _ & Hmi & Hme).
    cbn [jobs inflight emitted emit]. rewrite markJob_get, Hjn, Hj0, map_get_set_same,
      String.eqb_refl, Hmi, Hin, Hi0, Hme, Hen, He0.
    split; [reflexivity|]. split; [reflexivity|].
    exists es. split; [now rewrite <- !app_assoc | exact Hes].
  - intros e Hlook. rewrite Hs1. unfold processFacility_begin.
    rewrite Hlook, Hmark.
    set (s0 := emit (jobStarted k name) _).
    assert (Hg0 : map_get (jobs s0) k = Some (withStatus running job))
      by apply map_get_set_same.
    destruct (markJob_other k failed s0) as (_ & _ & Hmi & Hme).
    cbn [jobs inflight emitted emit]. rewrite markJob_get, Hg0, String.eqb_refl, Hmi, Hme.
    split; [reflexivity|]. split; [|reflexivity].
    cbn. now rewrite <- app_assoc.
Qed.

End WithCollaborators.

(** *** Concrete runs

    A directory without contacts, no environment overrides, and the UTC
    reading of a [Date]. *)

Definition noContacts (facilityName : string) : Result string (list Contact) := Ok [].
Definition noMatch (facilityName : string) : Result string (option BestMatch) := Ok None.

Definition utcMinutes (t : Z) : nat := Z.to_nat ((t / 60000) mod 60).
Definition utcHours (t : Z) : nat := Z.to_nat ((t / 3600000) mod 24).

(** day of the month and month (from 0) of the proleptic Gregorian calendar *)
Definition civil (t : Z) : Z * Z :=
  let z := t / 86400000 + 719468 in
  let era := z / 146097 in
  let doe := z - era * 146097 in
  let yoe := (doe - doe / 1460 + doe / 36524 - doe / 146096) / 365 in
  let doy := doe - (365 * yoe + yoe / 4 - yoe / 100) in
  let mp := (5 * doy + 2) / 153 in
  let d := doy - (153 * mp + 2) / 5 + 1 in
  let m := if mp <? 10 then mp + 3 else mp - 9 in
  (d, m - 1).

Definition utcDate (t : Z) : nat := Z.to_nat (fst (civil t)).
Definition utcMonth (t : Z) : nat := Z.to_nat (snd (civil t)).

(** the zone of these runs is UTC *)
Definition demoZone : Z -> bool -> Z := fixedZone 0.

(** node-cron on a run time that has no zone called [EDT] *)
Definition demoCron (expression timezone : string) : bool :=
  negb (String.eqb timezone "EDT").

Definition demoCall : Event -> Z -> Scheduler -> Scheduler * Result string unit :=
  scheduleDispatchNotifications noContacts noMatch None
    utcMinutes utcHours utcDate utcMonth demoZone demoCron.

Definition demoSchedule (ev : Event) (now : Z) (s : Scheduler) : Scheduler :=
  fst (demoCall ev now s).

Definition demoRun : list Action -> Scheduler -> Scheduler :=
  run noContacts noMatch None None utcMinutes utcHours utcDate utcMonth
      demoZone demoCron.

Definition demoReachable : Scheduler -> Prop :=
  reachable noContacts noMatch None None utcMinutes utcHours utcDate utcMonth
            demoZone demoCron.

(** 2025-06-24T21:00:00Z *)
Definition demoNow : Z := 1750798800000.

Definition demoFacility (company name : string) : DispatchFacility :=
  {| companyName := company; Types.facilityName := name;
     address := "123 A St"; accountNumber := "A-123"; dispatchTarget := "100 kW" |}.

Definition demoEvent (start : Z) (facs : list DispatchFacility) : Event :=
  {| messageId := "test-123"; subject := "Dispatch"; from := "test@cpower.com";
     dispatchType := "Test"; eventDate := demoNow; startTime := start;
     endTime := demoNow + 3600000; timezone := "America/New_York";
     facilities := facs; rawContent := "Test event" |}.

Definition futureEvent : Event :=
  demoEvent (demoNow + 120000)
            [demoFacility "Company A" "Facility A";
             demoFacility "Company B" "Facility B";
             demoFacility "Company C" "Facility C"].

Definition pastEvent : Event :=
  demoEvent (demoNow - 3600000) [demoFacility "Past Company" "Past Facility"].

(** New York on the night of 2027-11-07, when the clocks are set back at
    06:00:00Z, and the local reading of a [Date] there. *)
Definition newYork : Z -> bool -> Z :=
  fallBackZone 1825567200000 (-14400000) (-18000000).






Definition scheduledJobA : ScheduledJob :=
  {| id := "job-1-Facility-A"; facilityName := "Facility A";
     dispatchEvent := futureEvent;
     scheduledTime := startTime futureEvent + tenMinutes;
     task := Some O; status := pending |}.

Lemma demoReachable_scheduled :
  demoReachable (demoSchedule futureEvent demoNow newScheduler).
Proof. exists [Schedule futureEvent demoNow]. reflexivity. Defined.

Lemma cancelJob_pending_witness :
  demoReachable (demoSchedule futureEvent demoNow newScheduler) /\
  getJobStatus (demoSchedule futureEvent demoNow newScheduler) "job-1-Facility-A"
    = Some scheduledJobA /\
  status scheduledJobA = pending /\
  fst (cancelJob "job-1-Facility-A" (demoSchedule futureEvent demoNow newScheduler))
    = true.
Proof.
  assert (Hjob : getJobStatus (demoSchedule futureEvent demoNow newScheduler)
                              "job-1-Facility-A" = Some scheduledJobA)
    by (vm_compute; reflexivity).
  split; [exact demoReachable_scheduled|]. split; [exact Hjob|].
  split; [reflexivity|].
  exact (proj1 (@cancelJob_pending noContacts noMatch None None
                  utcMinutes utcHours utcDate utcMonth demoZone demoCron _ _ _
                  demoReachable_scheduled Hjob eq_refl)).
Defined.

Lemma demoReachable_new : demoReachable newScheduler.
Proof. exists []. reflexivity. Defined.

Lemma schedule_past_due_witness :
  demoReachable newScheduler /\
  startTime pastEvent + 600000 + startShift demoZone pastEvent <= demoNow /\
  cron (demoSchedule pastEvent demoNow newScheduler) = [].
Proof.
  assert (H : startTime pastEvent + 600000 + startShift demoZone pastEvent <= demoNow)
    by (vm_compute; discriminate).
  split; [exact demoReachable_new|]. split; [exact H|].
  exact (proj1 (proj2 (proj2 (@schedule_past_due noContacts noMatch None None
                         utcMinutes utcHours utcDate utcMonth demoZone demoCron
                         newScheduler pastEvent demoNow demoReachable_new H)))).
Defined.

(** C1, as stated, fails on the code: for a past-due event the facility is
    processed at once ([jobStarted] is emitted), but no job is recorded for
    it, so no job is in the [running] state, neither right after scheduling
    nor at any later time, nor once its run has ended. *)
Lemma past_due_job_never_running :
  let s' := demoSchedule pastEvent demoNow newScheduler in
  startTime pastEvent + tenMinutes <= demoNow /\
  In (jobStarted "immediate-1-Past-Facility" "Past Facility") (emitted s') /\
  jobs s' = [] /\
  st_running (getStatistics s') = O /\
  (forall o, getStatistics (demoRun [Settle 0 o] s') =
             {| st_pending := 0; st_running := 0; st_completed := 0; st_failed := 0 |}) /\
  (forall acts, getJobStatus (demoRun acts s') "immediate-1-Past-Facility" = None).
Proof.
  intros s'.
  split; [vm_compute; discriminate|].
  split; [vm_compute; auto|].
  split; [reflexivity|]. split; [reflexivity|]. split.
  - intros o. unfold s', demoRun, demoSchedule, run. cbn [fold_left].
    unfold getStatistics, countStatus.
    replace (jobs _) with (@nil (string * ScheduledJob)); [reflexivity|].
    symmetry. cbv - [sendRejected capture]. reflexivity.
  - intros acts. apply Inv_immediate_absent.
    + apply Inv_run, Inv_schedule, Inv_new.
    + exists 1%nat, "Past Facility". reflexivity.
Qed.

Definition demoExec : Action -> Scheduler -> Scheduler :=
  exec noContacts noMatch None None utcMinutes utcHours utcDate utcMonth demoZone demoCron.

Lemma cancelAllJobs_spec_witness :
  demoReachable (demoSchedule futureEvent demoNow newScheduler) /\
  getActiveJobs (cancelAllJobs (demoSchedule futureEvent demoNow newScheduler)) = [].
Proof.
  split; [exact demoReachable_scheduled|].
  exact (proj1 (@cancelAllJobs_spec noContacts noMatch None None
                  utcMinutes utcHours utcDate utcMonth demoZone demoCron _ demoReachable_scheduled)).
Defined.

Lemma scheduledJobA_recorded :
  getJobStatus (demoSchedule futureEvent demoNow newScheduler) "job-1-Facility-A"
  = Some scheduledJobA.
Proof. vm_compute. reflexivity. Defined.

Lemma job_never_pending_again_witness :
  demoReachable (demoSchedule futureEvent demoNow newScheduler) /\
  getJobStatus (demoSchedule futureEvent demoNow newScheduler) "job-1-Facility-A"
    = Some scheduledJobA /\
  exists job',
    getJobStatus (demoRun [Tick 0; Cancel "job-1-Facility-A"]
                    (demoSchedule futureEvent demoNow newScheduler))
                 "job-1-Facility-A" = Some job' /\
    sameJob scheduledJobA job' /\
    (status job' = pending -> status scheduledJobA = pending).
Proof.
  split; [exact demoReachable_scheduled|]. split; [exact scheduledJobA_recorded|].
  exact (@job_never_pending_again noContacts noMatch None None
           utcMinutes utcHours utcDate utcMonth demoZone demoCron _ _ _
           [Tick 0; Cancel "job-1-Facility-A"]
           demoReachable_scheduled scheduledJobA_recorded).
Defined.


Lemma job_lifecycle_witness :
  demoReachable (demoSchedule futureEvent demoNow newScheduler) /\
  getJobStatus (demoSchedule futureEvent demoNow newScheduler) "job-1-Facility-A"
    = Some scheduledJobA /\
  status scheduledJobA = pending /\
  task scheduledJobA = Some O /\
  getJobStatus (demoExec (Tick 0) (demoSchedule futureEvent demoNow newScheduler))
               "job-1-Facility-A" = Some (withStatus running scheduledJobA).
Proof.
  split; [exact demoReachable_scheduled|]. split; [exact scheduledJobA_recorded|].
  split; [reflexivity|]. split; [reflexivity|].
  exact (proj1 (proj1 (@job_lifecycle noContacts noMatch None None
                         utcMinutes utcHours utcDate utcMonth demoZone demoCron _ _ _ _
                         demoReachable_scheduled scheduledJobA_recorded
                         eq_refl eq_refl) [] eq_refl)).
Defined.

End Sched.

(* ================================================================== *)
(** * ScreenshotService *)
(* ================================================================== *)

Module Capture.
Import Js.
Local Open Scope regex_scope.

(** ** The data-readiness check *)

(** What the check reads off the page: the text content of the elements a
    text locator ranges over, in document order, and which selectors find an
    element.  The page is taken not to change during one check. *)
Record PageView : Type := {
  texts : list string;
  found : string -> bool
}.

(** [\d{1,3}(,\d{3})*(\.\d+)?] *)
Definition numberRe : regex :=
  range 1 3 digit +++ Star (Group 1 (lit "," +++ times 3 digit)) +++
  Opt (Group 2 (lit "." +++ plus digit)).

(** The three [usagePatterns].  Their [source] is spliced into a
    [text=/.../] selector without flags, so letter case counts. *)
Definition kWRe : regex := numberRe +++ Star space +++ lit "kW".
Definition MWRe : regex := numberRe +++ Star space +++ lit "MW".
Definition loadEstimateRe : regex := lit "Load Estimate" +++ Star dot +++ lit "kW".

Definition usagePatterns : list regex := [kWRe; MWRe; loadEstimateRe].

(** [text=/\d{1,3}(,\d{3})*(\.\d+)?\s*kW.*@.*[AP]M/], the reading with its
    clock time that [getUsageValue] looks for *)
Definition timedReadingRe : regex :=
  kWRe +++ Star dot +++ lit "@" +++ Star dot +++
  Chr (fun c => eq_char "A" c || eq_char "P" c) +++ lit "M".

Definition chartSelectors : list string :=
  ["canvas"; "svg.highcharts-root"; ".chart-container:has(canvas)"].

(** [page.locator(`text=/${pattern.source}/`).all()] *)
Definition locateText (pattern : regex) (view : PageView) : list string :=
  List.filter (test pattern) (texts view).

(** the filter applied to the first match of a pattern *)
Definition genuine (firstMatch : string) : bool :=
  negb (String.eqb firstMatch "") &&
  negb (includes firstMatch "0.00") &&
  negb (includes firstMatch "0 kW") &&
  negb (String.eqb firstMatch "kWh").

Definition patternHit (view : PageView) (pattern : regex) : bool :=
  match locateText pattern view with
  | firstMatch :: _ => genuine firstMatch
  | [] => false
  end.

(** [hasUsageData]; a Playwright call that throws ([Throw]) makes it false. *)
Definition hasUsageData (page : Result string PageView) : bool :=
  match page with
  | Throw _ => false
  | Ok view =>
      existsb (patternHit view) usagePatterns ||
      existsb (found view) chartSelectors
  end.

(** a page that shows one reading and no chart *)
Definition readingOnly (reading : string) : Result string PageView :=
  Ok {| texts := [reading]; found := fun _ => false |}.

(** *** A match of a pattern followed by more is a match of the pattern *)

Section Weaken.
Variables A B : Type.

Definition succeeds_with (k : string -> captures -> option A)
           (k' : string -> captures -> option B) : Prop :=
  forall s c, k s c <> None -> k' s c <> None.

Definition step_weaken
           (step : string -> captures -> (string -> captures -> option A) -> option A)
           (step' : string -> captures -> (string -> captures -> option B) -> option B)
  : Prop :=
  forall s cs k k', succeeds_with k k' -> step s cs k <> None -> step' s cs k' <> None.

Lemma star_loop_weaken step step' k k' :
  step_weaken step step' -> succeeds_with k k' ->
  forall fuel, succeeds_with (star_loop step k fuel) (star_loop step' k' fuel).
Proof.
  intros Hstep Hk fuel. induction fuel as [|fuel IH]; intros s cs; cbn [star_loop].
  - apply Hk.
  - intros H.
    match goal with
    | |- match ?m with _ => _ end <> None => destruct m eqn:E'
    end; [discriminate|].
    match type of H with
    | match ?m with _ => _ end <> None => destruct m eqn:E
    end.
    + exfalso. revert E'. eapply Hstep; [|rewrite E; discriminate].
      intros s1 c1. destruct (String.length s1 <? String.length s)%nat; [|auto].
      apply IH.
    + apply Hk. exact H.
Qed.

Lemma lazy_loop_weaken step step' k k' :
  step_weaken step step' -> succeeds_with k k' ->
  forall fuel, succeeds_with (lazy_loop step k fuel) (lazy_loop step' k' fuel).
Proof.
  intros Hstep Hk fuel. induction fuel as [|fuel IH]; intros s cs; cbn [lazy_loop].
  - apply Hk.
  - intros H.
    destruct (k' s cs) eqn:E'; [discriminate|].
    destruct (k s cs) eqn:E.
    + exfalso. apply (Hk s cs); congruence.
    + revert H. apply Hstep.
      intros s1 c1. destruct (String.length s1 <? String.length s)%nat; [|auto].
      apply IH.
Qed.

Lemma rmatch_weaken (r : regex) : step_weaken (rmatch r) (rmatch r).
Proof.
  induction r as [|p|r1 IH1 r2 IH2|r IH|r IH|r IH|i r IH];
    intros s cs k k' Hk; cbn [rmatch].
  - apply Hk.
  - destruct s as [|c s']; [auto|]. destruct (p c); [apply Hk | auto].
  - apply IH1. intros s1 c1. apply IH2. exact Hk.
  - intros H. destruct (rmatch r s cs k) eqn:E.
    + assert (H' : rmatch r s cs k' <> None)
        by (eapply IH; [exact Hk | rewrite E; discriminate]).
      destruct (rmatch r s cs k'); congruence.
    + apply Hk in H. destruct (rmatch r s cs k'); [discriminate | exact H].
  - apply star_loop_weaken; assumption.
  - apply lazy_loop_weaken; assumption.
  - apply IH. intros s1 c1. apply Hk.
Qed.

End Weaken.

Lemma test_Cat_left (r1 r2 : regex) (s : string) :
  test (Cat r1 r2) s = true -> test r1 s = true.
Proof.
  unfold test. induction s as [|c s IH]; cbn [exec].
  - destruct (match_here (Cat r1 r2) "") eqn:E; [|discriminate]. intros _.
    assert (H : match_here r1 "" <> None).
    { unfold match_here in *. cbn [rmatch] in E.
      eapply rmatch_weaken; [|rewrite E; discriminate].
      intros s1 c1 _; discriminate. }
    destruct (match_here r1 ""); [reflexivity | contradiction].
  - destruct (match_here (Cat r1 r2) (String c s)) eqn:E.
    + intros _.
      assert (H : match_here r1 (String c s) <> None).
      { unfold match_here in *. cbn [rmatch] in E.
        eapply rmatch_weaken; [|rewrite E; discriminate].
        intros s1 c1 _; discriminate. }
      destruct (match_here r1 (String c s)); [reflexivity | contradiction].
    + intros H. destruct (match_here r1 (String c s)); [reflexivity|].
      apply IH. exact H.
Qed.

(** A reading with its clock time is accepted unless its text contains
    ["0.00"] or ["0 kW"]. *)
Lemma hasUsageData_timed_reading (reading : string) :
  test timedReadingRe reading = true ->
  includes reading "0.00" = false ->
  includes reading "0 kW" = false ->
  hasUsageData (readingOnly reading) = true.
Proof.
  intros Hre H1 H2.
  assert (Hkw : test kWRe reading = true)
    by (apply test_Cat_left in Hre; exact Hre).
  cbn [hasUsageData readingOnly usagePatterns existsb].
  unfold patternHit at 1, locateText. cbn [texts List.filter]. rewrite Hkw.
  unfold genuine. rewrite H1, H2. cbn [negb andb].
  destruct reading as [|c r]; [discriminate Hre|].
  destruct (String.eqb (String c r) "kWh") eqn:E; [|reflexivity].
  apply String.eqb_eq in E. rewrite E in Hre. discriminate Hre.
Qed.

(** C2.  The check rejects a reading of exactly ["0.00 kWh"] and a bare
    ["kWh"]; it accepts ["5,606kW @ 1:00 PM"]; but it also rejects
    ["150 kW @ 1:00 PM"], a reading of the accepted form, because its text
    contains ["0 kW"]. *)
Theorem hasUsageData_readings :
  hasUsageData (readingOnly "0.00 kWh") = false /\
  hasUsageData (readingOnly "kWh") = false /\
  hasUsageData (readingOnly "5,606kW @ 1:00 PM") = true /\
  test timedReadingRe "150 kW @ 1:00 PM" = true /\
  hasUsageData (readingOnly "150 kW @ 1:00 PM") = false.
Proof. repeat split; vm_compute; reflexivity. Qed.

(** ** The capture

    The browser and the portal behind it are a state [World] in which every
    Playwright interaction runs and may throw.  The interactions whose
    exceptions the source swallows on the spot are taken as they come,
    grouped by the [try] block that guards them. *)

Section WithBrowser.

Variable World : Type.

(** [this.page] (is a page open), [this.isLoggedIn], and the world. *)
Record State : Type := {
  hasPage : bool;
  isLoggedIn : bool;
  world : World
}.

(** an asynchronous method: it changes the state and returns or throws *)
Definition M (A : Type) : Type := State -> State * Result string A.

Definition ret {A} (a : A) : M A := fun st => (st, Ok a).
Definition throw {A} (e : string) : M A := fun st => (st, Throw e).

Definition mbind {A B} (m : M A) (f : A -> M B) : M B :=
  fun st =>
    match m st with
    | (st', Ok a) => f a st'
    | (st', Throw e) => (st', Throw e)
    end.

Definition catch {A} (m : M A) (h : string -> M A) : M A :=
  fun st =>
    match m st with
    | (st', Ok a) => (st', Ok a)
    | (st', Throw e) => h e st'
    end.

Notation "x <- m ;; k" := (mbind m (fun x => k))
  (at level 61, m at next level, right associativity).

(** an interaction with the browser, lifted to the service *)
Definition io {A} (f : World -> World * Result string A) : M A :=
  fun st =>
    let (w, r) := f (world st) in
    ({| hasPage := hasPage st; isLoggedIn := isLoggedIn st; world := w |}, r).

Definition setLoggedIn : M unit :=
  fun st => ({| hasPage := hasPage st; isLoggedIn := true; world := world st |}, Ok tt).

(** *** The browser *)

(** [config.screenshotDir]: a string, the constructor's default
    ([<cwd>/screenshots]) unless the caller gives one *)
Variable screenshotDir : string.

(** [page.url()] and [Date.now()] *)
Variable pageUrl : World -> string.
Variable dateNow : World -> nat.

(** [page.screenshot({ path, ... })] *)
Variable pageScreenshot : string -> World -> World * Result string unit.

(** The [try] block of [login]: navigation, the form, and the check of the
    landing page, which throws [Login failed: ...]. *)
Variable loginSteps : World -> World * Result string unit.

(** The [try] block of [searchFacility], which returns whether the search
    field was found. *)
Variable searchSteps : string -> World -> World * Result string bool.

(** The [try] block that selects the contact's row and impersonates the
    contact; [false] stands for its [return null] exits. *)
Variable impersonateSteps : string -> string -> World -> World * Result string bool.

(** The guarded blocks of the capture: the click on the dashboard link, the
    registration dropdown, the Targeted Dispatch tab, the wait for the
    loading overlays, the log of the current usage. *)
Variable dashboardSteps : World -> World * Result string unit.
Variable registrationSteps : string -> option string -> World -> World * Result string unit.
Variable tabSteps : World -> World * Result string unit.
Variable overlaySteps : World -> World * Result string unit.
Variable usageLogSteps : World -> World * Result string unit.

(** what the data-readiness check reads off the page *)
Variable readPage : World -> World * Result string PageView.

(** [path.join(dir, name)] of the platform, which joins with its separator
    and normalises the result; on strings it does not throw *)
Variable pathJoin : string -> string -> string.

Definition truthy (x : option string) : bool :=
  match x with
  | Some (String _ _) => true
  | _ => false
  end.

Definition mentions (x : option string) (sub : string) : bool :=
  match x with
  | Some t => includes t sub
  | None => false
  end.

Definition notInitialized : string := "Browser not initialized".

Definition login : M unit :=
  fun st =>
    if negb (hasPage st)
    then throw "Browser not initialized. Call initialize() first." st
    else if isLoggedIn st then ret tt st
    else
      catch (_ <- io loginSteps ;; setLoggedIn)
            (fun error =>
               _ <- io (pageScreenshot (pathJoin screenshotDir "login-error.png")) ;;
               throw error) st.

Definition searchFacility (facilityName : string) : M bool :=
  fun st =>
    if negb (hasPage st) then throw notInitialized st
    else
      (_ <- (if isLoggedIn st then ret tt else login) ;;
       catch (io (searchSteps facilityName)) (fun _ => ret false)) st.

(** [debugScreenshot]: never throws *)
Definition debugScreenshot (name : string) : M (option string) :=
  fun st =>
    if negb (hasPage st) then ret None st
    else
      catch (fun st =>
               let filename :=
                 (name ++ "_" ++ string_of_nat (dateNow (world st)) ++ ".png")%string in
               let filepath := pathJoin screenshotDir filename in
               (_ <- io (pageScreenshot filepath) ;; ret (Some filepath)) st)
            (fun _ => ret None) st.

(** [try { steps } catch (e) { log }] *)
Definition guarded (steps : World -> World * Result string unit) : M unit :=
  catch (io steps) (fun _ => ret tt).

(** [hasUsageData()] on the page as it is *)
Definition checkUsageData : M bool :=
  fun st =>
    let (w, r) := readPage (world st) in
    ({| hasPage := hasPage st; isLoggedIn := isLoggedIn st; world := w |},
     Ok (hasUsageData r)).

(** The impersonation of a specific contact: [true] when the capture is to go
    on, [false] for the [return null] exits of the block, among them the
    [catch] of the contact selection. *)
Definition impersonate (facilityName : string) (contactName : option string) : M bool :=
  fun st =>
    (if truthy contactName && negb (includes (pageUrl (world st)) "Dashboard")
     then
       searchSuccessful <- searchFacility facilityName ;;
       if searchSuccessful
       then catch (io (impersonateSteps facilityName
                         (match contactName with Some c => c | None => "" end)))
                  (fun _ => ret false)
       else ret true
     else ret true) st.

(** The way to the usage data: the dashboard, the registration dropdown, the
    program tab and the loading overlays, each in a [try] of its own whose
    [catch] only logs. *)
Definition prepare (facilityName : string) (dispatchType : option string) : M unit :=
  _ <- (fun st =>
          let currentUrl := pageUrl (world st) in
          if negb (includes currentUrl "Dashboard") && includes currentUrl "/Home/"
          then guarded dashboardSteps st
          else ret tt st) ;;
  _ <- guarded (registrationSteps facilityName dispatchType) ;;
  _ <- (if mentions dispatchType "Targeted" then guarded tabSteps else ret tt) ;;
  guarded overlaySteps.

(** The [try] block of [captureUsage]. *)
Definition captureSteps (facilityName : string) (contactName dispatchType : option string)
  : M (option string) :=
  proceed <- impersonate facilityName contactName ;;
  if negb proceed then ret None
  else
    _ <- prepare facilityName dispatchType ;;
    (* final validation *)
    hasData <- checkUsageData ;;
    _ <- (if negb hasData
          then _ <- debugScreenshot ("no-data-" ++ sanitize "_" facilityName) ;; ret tt
          else ret tt) ;;
    _ <- guarded usageLogSteps ;;
    (* the screenshot *)
    filepath <- (fun st =>
                   let timestamp := dateNow (world st) in
                   let filename :=
                     (sanitize "_" facilityName ++ "_" ++ string_of_nat timestamp
                        ++ ".png")%string in
                   ret (pathJoin screenshotDir filename) st) ;;
    _ <- io (pageScreenshot filepath) ;;
    if negb hasData then ret None else ret (Some filepath).

Definition captureUsage (facilityName : string) (contactName dispatchType : option string)
  : M (option string) :=
  fun st =>
    if negb (hasPage st) then throw notInitialized st
    else
      (_ <- (if isLoggedIn st then ret tt else login) ;;
       catch (captureSteps facilityName contactName dispatchType)
             (fun _ =>
                _ <- debugScreenshot ("error-" ++ sanitize "_" facilityName) ;;
                ret None)) st.

(** the [catch] branch of [captureUsage] *)
Definition onCaptureError (facilityName : string) (error : string) : M (option string) :=
  _ <- debugScreenshot ("error-" ++ sanitize "_" facilityName) ;; ret None.

Lemma captureUsage_unfold (facilityName : string) (contactName dispatchType : option string)
      (st : State) :
  captureUsage facilityName contactName dispatchType st =
  if negb (hasPage st) then (st, Throw notInitialized)
  else
    match (if isLoggedIn st then ret tt else login) st with
    | (st1, Ok _) =>
        catch (captureSteps facilityName contactName dispatchType)
              (onCaptureError facilityName) st1
    | (st1, Throw e) => (st1, Throw e)
    end.
Proof.
  unfold captureUsage. destruct (negb (hasPage st)); [reflexivity|].
  unfold mbind. destruct ((if isLoggedIn st then ret tt else login) st) as [st1 [u|e]];
    reflexivity.
Qed.

Lemma debugScreenshot_returns (name : string) (st : State) :
  exists v, snd (debugScreenshot name st) = Ok v.
Proof.
  unfold debugScreenshot. destruct (negb (hasPage st)); [eexists; reflexivity|].
  unfold catch, mbind, io, ret.
  destruct (pageScreenshot _ (world st)) as [w [u|e]]; eexists; reflexivity.
Qed.

Lemma onCaptureError_returns (facilityName error : string) (st : State) :
  onCaptureError facilityName error st =
  (fst (debugScreenshot ("error-" ++ sanitize "_" facilityName) st), Ok None).
Proof.
  unfold onCaptureError, mbind.
  destruct (debugScreenshot_returns ("error-" ++ sanitize "_" facilityName) st) as [v Hv].
  destruct (debugScreenshot _ st) as [st' r]. cbn in *. subst r. reflexivity.
Qed.

Lemma caught_capture (facilityName : string) (contactName dispatchType : option string)
      (st1 : State) :
  catch (captureSteps facilityName contactName dispatchType)
        (onCaptureError facilityName) st1 =
  match captureSteps facilityName contactName dispatchType st1 with
  | (st2, Ok v) => (st2, Ok v)
  | (st2, Throw _) =>
      (fst (debugScreenshot ("error-" ++ sanitize "_" facilityName) st2), Ok None)
  end.
Proof.
  unfold catch.
  destruct (captureSteps facilityName contactName dispatchType st1) as [st2 [v|e]];
    [reflexivity | apply onCaptureError_returns].
Qed.

(** a login that returns leaves the session logged in *)
Lemma login_Ok (st st1 : State) (u : unit) :
  hasPage st = true -> login st = (st1, Ok u) ->
  hasPage st1 = true /\ isLoggedIn st1 = true.
Proof.
  intros Hp. unfold login. rewrite Hp. cbn [negb].
  destruct (isLoggedIn st) eqn:Hl.
  - intros [= <- _]. auto.
  - unfold catch, mbind, io, setLoggedIn, throw.
    destruct (loginSteps (world st)) as [w1 [u1|e]]; cbn.
    + intros [= <- _]. cbn. auto.
    + destruct (pageScreenshot _ w1) as [w2 [u2|e']]; discriminate.
Qed.

(** *** Further properties of the capture *)

(** X11.  [login]: without a page it throws and touches nothing; on a session
    already logged in it returns at once without any browser interaction;
    otherwise it runs the login steps, and the session is marked logged in
    exactly when they succeed; when they throw, the error screenshot is
    attempted on the state they left and the error is rethrown (or the
    screenshot's own error, if that fails too). *)
Theorem login_spec (st : State) :
  (hasPage st = false ->
   login st = (st, Throw "Browser not initialized. Call initialize() first.")) /\
  (hasPage st = true -> isLoggedIn st = true -> login st = (st, Ok tt)) /\
  (hasPage st = true -> isLoggedIn st = false ->
   match loginSteps (world st) with
   | (w1, Ok _) =>
       login st = ({| hasPage := true; isLoggedIn := true; world := w1 |}, Ok tt)
   | (w1, Throw e) =>
       let shot := pageScreenshot (pathJoin screenshotDir "login-error.png") w1 in
       login st = ({| hasPage := true; isLoggedIn := false; world := fst shot |},
                   Throw (match snd shot with Ok _ => e | Throw e' => e' end))
   end).
Proof.
  unfold login. split; [|split].
  - intros ->. reflexivity.
  - intros -> ->. reflexivity.
  - intros Hp Hl. rewrite Hp, Hl. cbn [negb].
    unfold catch, mbind, io, setLoggedIn, throw. rewrite Hp, Hl.
    destruct (loginSteps (world st)) as [w1 [u|e]]; cbn.
    + reflexivity.
    + destruct (pageScreenshot (pathJoin screenshotDir "login-error.png") w1)
        as [w2 [u|e']]; reflexivity.
Qed.

(** **** What the methods do to the session flags *)



















Lemma mbind_Throw (A B : Type) (m : M A) (f : A -> M B) (st st' : State) (e : string) :
  mbind m f st = (st', Throw e) ->
  m st = (st', Throw e) \/ exists st1 a, m st = (st1, Ok a) /\ f a st1 = (st', Throw e).
Proof.
  unfold mbind. destruct (m st) as [st1 [a|e']]; [eauto|].
  intros [= <- <-]. now left.
Qed.

(** a block with a [catch] that only logs: what it threw is forgotten *)
Lemma guarded_run (steps : World -> World * Result string unit) (st : State) :
  guarded steps st =
  ({| hasPage := hasPage st; isLoggedIn := isLoggedIn st;
      world := fst (steps (world st)) |}, Ok tt).
Proof.
  unfold guarded, catch, io, ret.
  destruct (steps (world st)) as [w [[]|e]]; reflexivity.
Qed.

(** after authentication the search does not throw *)
Lemma searchFacility_returns (facilityName : string) (st : State) :
  hasPage st = true -> isLoggedIn st = true ->
  exists st' b, searchFacility facilityName st = (st', Ok b).
Proof.
  intros Hp Hl. unfold searchFacility. rewrite Hp, Hl. cbn [negb].
  unfold mbind, ret, catch, io.
  destruct (searchSteps facilityName (world st)) as [w [b|e]]; eauto.
Qed.

Lemma impersonate_returns (facilityName : string) (contactName : option string)
      (st : State) :
  hasPage st = true -> isLoggedIn st = true ->
  exists st' b, impersonate facilityName contactName st = (st', Ok b).
Proof.
  intros Hp Hl. unfold impersonate.
  destruct (_ && _); [|unfold ret; eauto].
  destruct (searchFacility_returns facilityName st Hp Hl) as (s1 & b & Hs).
  unfold mbind. rewrite Hs. destruct b; [|unfold ret; eauto].
  unfold catch, io, ret.
  destruct (impersonateSteps _ _ (world s1)) as [w [b|e]]; eauto.
Qed.

Lemma prepare_returns (facilityName : string) (dispatchType : option string) (st : State) :
  exists st', prepare facilityName dispatchType st = (st', Ok tt).
Proof.
  unfold prepare, mbind. cbv beta zeta.
  destruct (_ && _); [rewrite guarded_run | unfold ret at 1]; cbv beta iota;
    rewrite guarded_run;
    (destruct (mentions dispatchType "Targeted");
     [rewrite guarded_run | unfold ret at 1]; cbv beta iota; rewrite guarded_run; eauto).
Qed.

(** After authentication the outer [catch] of [captureUsage] is reached by
    one exception only, that of the final [page.screenshot]. *)
Lemma captureSteps_throws (facilityName : string) (contactName dispatchType : option string)
      (st1 s2 : State) (e : string) :
  hasPage st1 = true -> isLoggedIn st1 = true ->
  captureSteps facilityName contactName dispatchType st1 = (s2, Throw e) ->
  exists w timestamp,
    pageScreenshot
      (pathJoin screenshotDir
         (sanitize "_" facilityName ++ "_" ++ string_of_nat timestamp ++ ".png")) w
    = (world s2, Throw e).
Proof.
  intros Hp Hl. unfold captureSteps. intros H.
  destruct (impersonate_returns facilityName contactName st1 Hp Hl) as (sa & proceed & Hi).
  apply mbind_Throw in H. destruct H as [H|(sa' & a & Hi' & H)]; [congruence|].
  destruct (negb a); [discriminate|].
  destruct (prepare_returns facilityName dispatchType sa') as (sb & Hb).
  apply mbind_Throw in H. destruct H as [H|(sb' & [] & _ & H)]; [congruence|].
  apply mbind_Throw in H. destruct H as [H|(sc & hasData & _ & H)].
  { unfold checkUsageData in H. destruct (readPage (world sb')); discriminate. }
  apply mbind_Throw in H. destruct H as [H|(sd & [] & _ & H)].
  { destruct (negb hasData); [|discriminate].
    apply mbind_Throw in H. destruct H as [H|(? & ? & _ & H)]; [|discriminate].
    destruct (debugScreenshot_returns ("no-data-" ++ sanitize "_" facilityName) sc)
      as [v Hv].
    rewrite H in Hv. discriminate. }
  apply mbind_Throw in H. destruct H as [H|(se & [] & _ & H)].
  { rewrite guarded_run in H. discriminate. }
  apply mbind_Throw in H. destruct H as [H|(sf & filepath & Hf & H)]; [discriminate|].
  cbn in Hf. injection Hf as <- <-.
  apply mbind_Throw in H. destruct H as [H|(sg & [] & _ & H)].
  - unfold io in H. destruct (pageScreenshot _ (world se)) as [w3 r] eqn:Es.
    injection H as <- ->. cbn. eauto.
  - destruct (negb hasData); discriminate.
Qed.

Lemma mbind_ext (A B : Type) (m m' : M A) (f f' : A -> M B) (st : State) :
  m st = m' st -> (forall a s, f a s = f' a s) -> mbind m f st = mbind m' f' st.
Proof.
  intros Hm Hf. unfold mbind. rewrite Hm.
  destruct (m' st) as [s1 [a|e]]; [apply Hf | reflexivity].
Qed.

Lemma catch_ext (A : Type) (m m' : M A) (h : string -> M A) (st : State) :
  m st = m' st -> catch m h st = catch m' h st.
Proof. intros Hm. unfold catch. now rewrite Hm. Qed.


End WithBrowser.

(** *** The handlers of [captureUsage] *)

Section Handlers.

Variable World : Type.
Variable screenshotDir : string.
Variable pageUrl : World -> string.
Variable dateNow : World -> nat.
Variable pageScreenshot : string -> World -> World * Result string unit.
Variable loginSteps : World -> World * Result string unit.
Variable searchSteps : string -> World -> World * Result string bool.
Variable impersonateSteps : string -> string -> World -> World * Result string bool.
Variable dashboardSteps : World -> World * Result string unit.
Variable registrationSteps : string -> option string -> World -> World * Result string unit.
Variable tabSteps : World -> World * Result string unit.
Variable overlaySteps : World -> World * Result string unit.
Variable usageLogSteps : World -> World * Result string unit.
Variable readPage : World -> World * Result string PageView.
Variable pathJoin : string -> string -> string.

(** a block with its exception swallowed: it ends where the block stopped,
    and nothing is thrown *)
Definition swallowed (steps : World -> World * Result string unit)
  : World -> World * Result string unit :=
  fun w => (fst (steps w), Ok tt).

(** the contact selection with its exception turned into its [return null]
    exit *)
Definition nulled (steps : World -> World * Result string bool)
  : World -> World * Result string bool :=
  fun w =>
    match steps w with
    | (w', Throw _) => (w', Ok false)
    | r => r
    end.

Lemma guarded_swallowed (steps : World -> World * Result string unit) (st : State World) :
  guarded steps st = guarded (swallowed steps) st.
Proof. rewrite !guarded_run. reflexivity. Qed.

Lemma catch_nulled (steps : World -> World * Result string bool) (st : State World) :
  catch (io steps) (fun _ => ret false) st =
  catch (io (nulled steps)) (fun _ => ret false) st.
Proof.
  unfold catch, io, nulled, ret.
  destruct (steps (world st)) as [w [b|e]]; reflexivity.
Qed.

Lemma captureSteps_handled (facilityName : string) (contactName dispatchType : option string)
      (st : State World) :
  captureSteps screenshotDir pageUrl dateNow pageScreenshot loginSteps searchSteps
    impersonateSteps dashboardSteps registrationSteps tabSteps overlaySteps
    usageLogSteps readPage pathJoin facilityName contactName dispatchType st =
  captureSteps screenshotDir pageUrl dateNow pageScreenshot loginSteps searchSteps
    (fun f c => nulled (impersonateSteps f c))
    (swallowed dashboardSteps) (fun f d => swallowed (registrationSteps f d))
    (swallowed tabSteps) (swallowed overlaySteps) (swallowed usageLogSteps)
    readPage pathJoin facilityName contactName dispatchType st.
Proof.
  unfold captureSteps. apply mbind_ext.
  - unfold impersonate. destruct (_ && _); [|reflexivity].
    apply mbind_ext; [reflexivity|].
    intros [] s; [apply catch_nulled | reflexivity].
  - intros proceed s. destruct (negb proceed); [reflexivity|].
    apply mbind_ext.
    + unfold prepare. apply mbind_ext.
      { cbv beta zeta. destruct (_ && _); [apply guarded_swallowed | reflexivity]. }
      intros _ s1. apply mbind_ext; [apply guarded_swallowed|].
      intros _ s2. apply mbind_ext.
      { destruct (mentions dispatchType "Targeted");
          [apply guarded_swallowed | reflexivity]. }
      intros _ s3. apply guarded_swallowed.
    + intros _ s1. apply mbind_ext; [reflexivity|].
      intros hasData s2. apply mbind_ext; [reflexivity|].
      intros _ s3. apply mbind_ext; [apply guarded_swallowed|].
      reflexivity.
Qed.

(** an exception of the contact selection: [null], and the page is left where
    the exception left it *)
Lemma captureSteps_contact_throws
      (facilityName contact : string) (dispatchType : option string)
      (st1 s1 : State World) (w : World) (e : string) :
  truthy (Some contact) && negb (includes (pageUrl (world st1)) "Dashboard") = true ->
  searchFacility screenshotDir pageScreenshot loginSteps searchSteps pathJoin
    facilityName st1 = (s1, Ok true) ->
  impersonateSteps facilityName contact (world s1) = (w, Throw e) ->
  captureSteps screenshotDir pageUrl dateNow pageScreenshot loginSteps searchSteps
    impersonateSteps dashboardSteps registrationSteps tabSteps overlaySteps
    usageLogSteps readPage pathJoin facilityName (Some contact) dispatchType st1 =
  ({| hasPage := hasPage s1; isLoggedIn := isLoggedIn s1; world := w |}, Ok None).
Proof.
  intros Hc Hs Hi. unfold captureSteps, impersonate, mbind at 1.
  rewrite Hc. unfold mbind at 1. rewrite Hs.
  unfold catch, io. rewrite Hi. reflexivity.
Qed.

(** C5, as the code has it.  Once a page is open and authentication is
    behind (the service was logged in, or [login] has just succeeded), no
    exception leaves [captureUsage], but not every exception ends in the
    diagnostic screenshot and [null]:

    - the blocks with a [catch] of their own only log: [captureUsage]
      behaves as it does when the dashboard, registration, tab, overlay and
      usage-log blocks stop where they threw and throw nothing (the capture
      goes on, possibly to a returned path), and when an exception of the
      contact selection is one of its [return null] exits;
    - an exception of the contact selection gives [null] with the page left
      as the exception left it: no diagnostic screenshot is attempted;
    - a capture that does not throw returns its result; one that throws
      reaches the outer [catch]: the diagnostic screenshot is attempted on
      the state the exception left, and [null] is returned; the exception
      that gets there is that of the final [page.screenshot].

    An exception leaves [captureUsage] in two cases only: no page is open
    (the [Browser not initialized] guard, before any authentication), or
    [login] threw. *)
Theorem captureUsage_exceptions
        (facilityName : string) (contactName dispatchType : option string)
        (st : State World) :
  let login := login screenshotDir pageScreenshot loginSteps pathJoin in
  let debugScreenshot := debugScreenshot screenshotDir dateNow pageScreenshot pathJoin in
  let searchFacility :=
    searchFacility screenshotDir pageScreenshot loginSteps searchSteps pathJoin in
  let captureSteps :=
    captureSteps screenshotDir pageUrl dateNow pageScreenshot loginSteps searchSteps
      impersonateSteps dashboardSteps registrationSteps tabSteps overlaySteps
      usageLogSteps readPage pathJoin in
  let captureUsage :=
    captureUsage screenshotDir pageUrl dateNow pageScreenshot loginSteps searchSteps
      impersonateSteps dashboardSteps registrationSteps tabSteps overlaySteps
      usageLogSteps readPage pathJoin in
  captureUsage facilityName contactName dispatchType st =
  Capture.captureUsage screenshotDir pageUrl dateNow pageScreenshot loginSteps searchSteps
    (fun f c => nulled (impersonateSteps f c))
    (swallowed dashboardSteps) (fun f d => swallowed (registrationSteps f d))
    (swallowed tabSteps) (swallowed overlaySteps) (swallowed usageLogSteps)
    readPage pathJoin facilityName contactName dispatchType st /\
  (hasPage st = true ->
   forall st1,
     (isLoggedIn st = true /\ st1 = st) \/
     (isLoggedIn st = false /\ login st = (st1, Ok tt)) ->
     (forall contact s1 w e,
        contactName = Some contact ->
        truthy contactName && negb (includes (pageUrl (world st1)) "Dashboard") = true ->
        searchFacility facilityName st1 = (s1, Ok true) ->
        impersonateSteps facilityName contact (world s1) = (w, Throw e) ->
        captureUsage facilityName contactName dispatchType st =
        ({| hasPage := hasPage s1; isLoggedIn := isLoggedIn s1; world := w |}, Ok None)) /\
     captureUsage facilityName contactName dispatchType st =
     match captureSteps facilityName contactName dispatchType st1 with
     | (st2, Ok v) => (st2, Ok v)
     | (st2, Throw _) =>
         (fst (debugScreenshot ("error-" ++ sanitize "_" facilityName)%string st2),
          Ok None)
     end /\
     (forall s2 e,
        captureSteps facilityName contactName dispatchType st1 = (s2, Throw e) ->
        exists w timestamp,
          pageScreenshot
            (pathJoin screenshotDir
               (sanitize "_" facilityName ++ "_" ++ string_of_nat timestamp
                  ++ ".png")%string) w
          = (world s2, Throw e))) /\
  (forall e,
     snd (captureUsage facilityName contactName dispatchType st) = Throw e ->
     (hasPage st = false /\ e = notInitialized) \/
     (hasPage st = true /\ isLoggedIn st = false /\ snd (login st) = Throw e)).
Proof.
  cbv zeta. split; [|split].
  - rewrite !captureUsage_unfold. destruct (negb (hasPage st)); [reflexivity|].
    destruct ((if isLoggedIn st then ret tt else _) st) as [st1 [u|e]]; [|reflexivity].
    apply catch_ext, captureSteps_handled.
  - intros Hp st1 H.
    assert (Hrun :
      captureUsage screenshotDir pageUrl dateNow pageScreenshot loginSteps searchSteps
        impersonateSteps dashboardSteps registrationSteps tabSteps overlaySteps
        usageLogSteps readPage pathJoin facilityName contactName dispatchType st =
      match captureSteps screenshotDir pageUrl dateNow pageScreenshot loginSteps
              searchSteps impersonateSteps dashboardSteps registrationSteps tabSteps
              overlaySteps usageLogSteps readPage pathJoin
              facilityName contactName dispatchType st1 with
      | (st2, Ok v) => (st2, Ok v)
      | (st2, Throw _) =>
          (fst (debugScreenshot screenshotDir dateNow pageScreenshot pathJoin
                  ("error-" ++ sanitize "_" facilityName) st2), Ok None)
      end).
    { rewrite captureUsage_unfold, Hp. cbn [negb].
      destruct H as [[Hl ->]|[Hl Hlogin]]; rewrite Hl.
      - cbn [ret]. apply caught_capture.
      - rewrite Hlogin. apply caught_capture. }
    assert (Hflags : hasPage st1 = true /\ isLoggedIn st1 = true).
    { destruct H as [[Hl ->]|[Hl Hlogin]]; [auto|].
      exact (@login_Ok _ screenshotDir pageScreenshot loginSteps pathJoin st st1 tt
               Hp Hlogin). }
    split; [|split].
    + intros contact s1 w e -> Hc Hs Hi. rewrite Hrun.
      now rewrite (@captureSteps_contact_throws facilityName contact dispatchType
                     st1 s1 w e Hc Hs Hi).
    + exact Hrun.
    + intros s2 e Hthrow. destruct Hflags as [Hp1 Hl1].
      exact (captureSteps_throws _ _ _ _ _ _ _ _ _ _ _ _ _ _ _ _ _ _ Hp1 Hl1 Hthrow).
  - intros e. rewrite captureUsage_unfold. destruct (hasPage st); cbn [negb].
    + destruct (isLoggedIn st).
      * cbn [ret]. rewrite caught_capture.
        destruct (captureSteps _ _ _ _ _ _ _ _ _ _ _ _ _ _ _ _ _ st) as [st2 [v|e']];
          discriminate.
      * destruct (login _ _ _ _ st) as [st1 [u|e']] eqn:Hlogin.
        -- rewrite caught_capture.
           destruct (captureSteps _ _ _ _ _ _ _ _ _ _ _ _ _ _ _ _ _ st1)
             as [st2 [v|e'']]; discriminate.
        -- cbn. intros [= ->]. right. auto.
    + cbn. intros [= <-]. left. auto.
Qed.

End Handlers.

(** *** A concrete browser

    The world counts the login attempts; every interaction succeeds. *)
Definition quietCapture : string -> option string -> option string -> M nat (option string) :=
  captureUsage "screenshots"
    (fun _ => "https://portal.example/Home/Index")
    (fun w => w)
    (fun _ w => (w, Ok tt))
    (fun w => (S w, Ok tt))
    (fun _ w => (w, Ok true))
    (fun _ _ w => (w, Ok true))
    (fun w => (w, Ok tt))
    (fun _ _ w => (w, Ok tt))
    (fun w => (w, Ok tt))
    (fun w => (w, Ok tt))
    (fun w => (w, Ok tt))
    (fun w => (w, Ok {| texts := ["5,606kW @ 1:00 PM"]; found := fun _ => false |}))
    (fun dir name => (dir ++ "/" ++ name)%string).

(** A browser where every guarded block and the contact selection time out;
    the world is the log of what was done to the page, latest first, and
    [disk] says whether screenshots can be written. *)
Definition flakyCapture (disk : bool)
  : string -> option string -> option string -> M (list string) (option string) :=
  captureUsage "screenshots"
    (fun _ => "https://portal.example/Home/Index")
    (fun _ => 7%nat)
    (fun path w => (("screenshot " ++ path)%string :: w,
                    if disk then Ok tt else Throw "ENOSPC"))
    (fun w => ("login" :: w, Ok tt))
    (fun _ w => ("search" :: w, Ok true))
    (fun _ _ w => ("contact" :: w, Throw "Timeout"))
    (fun w => ("dashboard" :: w, Throw "Timeout"))
    (fun _ _ w => ("registration" :: w, Throw "Timeout"))
    (fun w => ("tab" :: w, Throw "Timeout"))
    (fun w => ("overlay" :: w, Throw "Timeout"))
    (fun w => ("usage log" :: w, Throw "Timeout"))
    (fun w => (w, Ok {| texts := ["5,606kW @ 1:00 PM"]; found := fun _ => false |}))
    (fun dir name => (dir ++ "/" ++ name)%string).

(** The three ways an exception ends after authentication: swallowed blocks
    and a returned path; a contact selection that throws, [null] and no
    screenshot; a final screenshot that throws, the diagnostic screenshot
    attempted, and [null]. *)
Lemma flakyCapture_handlers :
  let st := {| hasPage := true; isLoggedIn := true; world := [] |} in
  flakyCapture true "Facility A" None (Some "Targeted Dispatch") st =
  ({| hasPage := true; isLoggedIn := true;
      world := ["screenshot screenshots/Facility_A_7.png"; "usage log"; "overlay";
                "tab"; "registration"; "dashboard"] |},
   Ok (Some "screenshots/Facility_A_7.png")) /\
  flakyCapture true "Facility A" (Some "Pat Doe") None st =
  ({| hasPage := true; isLoggedIn := true; world := ["contact"; "search"] |}, Ok None) /\
  flakyCapture false "Facility A" None None st =
  ({| hasPage := true; isLoggedIn := true;
      world := ["screenshot screenshots/error-Facility_A_7.png";
                "screenshot screenshots/Facility_A_7.png"; "usage log"; "overlay";
                "registration"; "dashboard"] |},
   Ok None).
Proof. cbv zeta. repeat split; vm_compute; reflexivity. Qed.

(** C5, as stated, fails on the code: with no page open [captureUsage]
    throws [Browser not initialized]; no login was attempted (the count of
    attempts is still 0), so what propagates is not an authentication
    failure. *)
Lemma captureUsage_throws_before_login :
  quietCapture "Facility A" None (Some "Test")
               {| hasPage := false; isLoggedIn := false; world := O |} =
  ({| hasPage := false; isLoggedIn := false; world := O |},
   Throw "Browser not initialized") /\
  quietCapture "Facility A" None (Some "Test")
               {| hasPage := true; isLoggedIn := false; world := O |} =
  ({| hasPage := true; isLoggedIn := true; world := 1%nat |},
   Ok (Some "screenshots/Facility_A_1.png")).
Proof. split; vm_compute; reflexivity. Qed.




(** *** The registrations to try

    The candidate list that [captureUsage] builds from the options of the
    [#registrationDetails] dropdown before it tries them one by one. *)

Record RegOption := {
  value : string;
  text : string;
  title : string;
  selected : bool
}.

Definition RIH : string := "Rhode Island Hospital".

(** [registrationsToTry.some(r => r.value === opt.value)] *)
Definition listed (tried : list RegOption) (opt : RegOption) : bool :=
  existsb (fun r => (value r =? value opt)%string) tried.

(** [if (x) list.push(x)] for the result of [find] *)
Definition pushFound (tried : list RegOption) (x : option RegOption) : list RegOption :=
  match x with
  | Some o => tried ++ [o]
  | None => tried
  end.

Definition registrationsToTry (facilityName : string) (dispatchType : option string)
           (options : list RegOption) : list RegOption :=
  if includes facilityName RIH then
    let baseFacility :=
      find (fun opt => (text opt =? RIH)%string || (title opt =? RIH)%string) options in
    let tried := pushFound [] baseFacility in
    let tried :=
      if mentions dispatchType "RI ET"
      then pushFound tried (find (fun opt => includes (text opt) "RI Energy Targeted") options)
      else tried in
    let others :=
      filter (fun opt => includes (text opt) RIH && negb (listed tried opt)) options in
    tried ++ others
  else
    let tried :=
      if mentions dispatchType "RI ET" || mentions dispatchType "Targeted"
      then [] ++ filter (fun opt => includes (text opt) facilityName &&
                                    (includes (text opt) "Targeted" ||
                                     includes (text opt) "RI Energy Targeted")) options
      else [] in
    let base :=
      find (fun opt => (text opt =? facilityName)%string ||
                       (title opt =? facilityName)%string) options in
    let tried := pushFound tried base in
    let others :=
      filter (fun opt => includes (text opt) facilityName && negb (listed tried opt))
             options in
    tried ++ others.

(** the name the options are matched against *)
Definition registrationKey (facilityName : string) : string :=
  if includes facilityName RIH then RIH else facilityName.

Lemma In_pushFound (tried : list RegOption) (x : option RegOption) (r : RegOption) :
  In r (pushFound tried x) <-> In r tried \/ x = Some r.
Proof.
  destruct x as [o|]; cbn.
  - rewrite in_app_iff. cbn. split.
    + intros [H|[->|[]]]; auto.
    + intros [H|[= ->]]; auto.
  - split; [auto | intros [H|H]; [exact H | discriminate]].
Qed.

Lemma listed_In (tried : list RegOption) (opt : RegOption) :
  listed tried opt = true <-> exists r, In r tried /\ value r = value opt.
Proof.
  unfold listed. rewrite existsb_exists. split; intros (r & Hr & E); exists r; split; auto.
  - now apply String.eqb_eq.
  - now apply String.eqb_eq.
Qed.

(** the shape both branches share *)
Lemma tried_then_others (key : string) (tried options : list RegOption) (r : RegOption) :
  In r (tried ++ filter (fun opt => includes (text opt) key && negb (listed tried opt))
                        options) <->
  In r tried \/ (In r options /\ includes (text r) key = true /\ listed tried r = false).
Proof.
  rewrite in_app_iff, filter_In, andb_true_iff, negb_true_iff. tauto.
Qed.

(** X14.  Every registration tried is an option of the dropdown, and it was
    chosen for a reason: its text contains the name that is looked for, or
    its text or title is that name, or, for a Rhode Island Hospital facility
    under an RI ET dispatch, its text contains [RI Energy Targeted] (whatever
    facility it belongs to). *)
Theorem registrationsToTry_sound (facilityName : string) (dispatchType : option string)
        (options : list RegOption) (r : RegOption) :
  In r (registrationsToTry facilityName dispatchType options) ->
  In r options /\
  (includes (text r) (registrationKey facilityName) = true \/
   text r = registrationKey facilityName \/
   title r = registrationKey facilityName \/
   (includes facilityName RIH = true /\ mentions dispatchType "RI ET" = true /\
    includes (text r) "RI Energy Targeted" = true)).
Proof.
  unfold registrationsToTry, registrationKey.
  destruct (includes facilityName RIH) eqn:Hrih; cbv zeta.
  - rewrite tried_then_others. intros [H|(H & Hk & _)]; [|auto].
    assert (Hbase : forall o, find (fun opt => (text opt =? RIH)%string ||
                                               (title opt =? RIH)%string) options = Some o ->
                              In o options /\ (text o = RIH \/ title o = RIH)).
    { intros o Ho. apply find_some in Ho. destruct Ho as [Hin Hb].
      apply orb_true_iff in Hb. rewrite !String.eqb_eq in Hb. auto. }
    destruct (mentions dispatchType "RI ET") eqn:Hm.
    + apply In_pushFound in H. destruct H as [H|H].
      * apply In_pushFound in H. destruct H as [[]|H].
        destruct (Hbase _ H) as [Hin [Ht|Ht]]; auto.
      * apply find_some in H. destruct H as [Hin Hb].
        split; [exact Hin|]. right. right. right. auto.
    + apply In_pushFound in H. destruct H as [[]|H].
      destruct (Hbase _ H) as [Hin [Ht|Ht]]; auto.
  - rewrite tried_then_others. intros [H|(H & Hk & _)]; [|auto].
    apply In_pushFound in H. destruct H as [H|H].
    + destruct (mentions dispatchType "RI ET" || mentions dispatchType "Targeted");
        [|destruct H].
      cbn [app] in H. apply filter_In in H. destruct H as [Hin Hb].
      apply andb_true_iff in Hb. destruct Hb as [Hb _]. auto.
    + apply find_some in H. destruct H as [Hin Hb].
      apply orb_true_iff in Hb. rewrite !String.eqb_eq in Hb. destruct Hb; auto.
Qed.

(** X15.  No matching registration is skipped: for every option whose text
    contains the name that is looked for, a registration with the same
    [value] is tried. *)
Theorem registrationsToTry_complete (facilityName : string) (dispatchType : option string)
        (options : list RegOption) (opt : RegOption) :
  In opt options ->
  includes (text opt) (registrationKey facilityName) = true ->
  exists r, In r (registrationsToTry facilityName dispatchType options) /\
            value r = value opt.
Proof.
  intros Hin Hk.
  assert (Hgen : forall tried,
             exists r, In r (tried ++ filter (fun o => includes (text o)
                                                         (registrationKey facilityName) &&
                                                       negb (listed tried o)) options) /\
                       value r = value opt).
  { intros tried. destruct (listed tried opt) eqn:Hl.
    - apply listed_In in Hl. destruct Hl as (r & Hr & E).
      exists r. split; [apply in_or_app; auto | exact E].
    - exists opt. split; [|reflexivity]. apply tried_then_others. auto. }
  unfold registrationsToTry. unfold registrationKey in Hgen.
  destruct (includes facilityName RIH); cbv zeta; apply Hgen.
Qed.

(** X16.  The order of the attempts.  For a Rhode Island Hospital facility the
    base registration, when the dropdown has one, is tried first; for any
    other facility the targeted registrations come first under an RI ET or
    Targeted dispatch, and otherwise the base registration does.  After
    these, no [value] is tried that was already listed. *)
Theorem registrationsToTry_order (facilityName : string) (dispatchType : option string)
        (options : list RegOption) :
  let key := registrationKey facilityName in
  let base := find (fun opt => (text opt =? key)%string || (title opt =? key)%string)
                   options in
  let targetedFirst :=
    negb (includes facilityName RIH) &&
    (mentions dispatchType "RI ET" || mentions dispatchType "Targeted") in
  (forall b, base = Some b -> targetedFirst = false ->
             hd_error (registrationsToTry facilityName dispatchType options) = Some b) /\
  (targetedFirst = true ->
   exists rest,
     registrationsToTry facilityName dispatchType options =
     filter (fun opt => includes (text opt) facilityName &&
                        (includes (text opt) "Targeted" ||
                         includes (text opt) "RI Energy Targeted")) options ++ rest) /\
  (base = None -> mentions dispatchType "RI ET" || mentions dispatchType "Targeted" = false ->
   registrationsToTry facilityName dispatchType options =
   filter (fun opt => includes (text opt) key) options).
Proof.
  unfold registrationsToTry, registrationKey.
  destruct (includes facilityName RIH) eqn:Hrih; cbv zeta; cbn [negb andb].
  - split; [|split].
    + intros b -> _. cbn [pushFound app].
      destruct (mentions dispatchType "RI ET"); [|reflexivity].
      destruct (find _ options); reflexivity.
    + discriminate.
    + intros -> Hm. apply orb_false_iff in Hm. destruct Hm as [-> _].
      cbn [pushFound app]. apply filter_ext. intros o. cbn. now rewrite andb_true_r.
  - split; [|split].
    + intros b -> ->. reflexivity.
    + intros ->. cbn [app].
      destruct (find _ options); cbn [pushFound]; [rewrite <- app_assoc|]; eauto.
    + intros -> ->. cbn [pushFound app]. apply filter_ext. intros o. cbn.
      now rewrite andb_true_r.
Qed.

(** a dropdown with a targeted and a base registration of one facility *)
Definition sampleOptions : list RegOption :=
  [ {| value := "11"; text := "Rhode Island Hospital - RI Energy Targeted";
       title := ""; selected := true |};
    {| value := "12"; text := "Rhode Island Hospital"; title := ""; selected := false |};
    {| value := "13"; text := "Miriam Hospital"; title := ""; selected := false |} ].

Lemma registrationsToTry_sound_witness :
  let r := {| value := "12"; text := "Rhode Island Hospital"; title := "";
              selected := false |} in
  In r sampleOptions /\
  (includes (text r) (registrationKey "Rhode Island Hospital") = true \/
   text r = registrationKey "Rhode Island Hospital" \/
   title r = registrationKey "Rhode Island Hospital" \/
   (includes "Rhode Island Hospital" RIH = true /\ mentions (Some "RI ET") "RI ET" = true /\
    includes (text r) "RI Energy Targeted" = true)).
Proof.
  intros r.
  apply (@registrationsToTry_sound "Rhode Island Hospital" (Some "RI ET") sampleOptions r).
  vm_compute. left. reflexivity.
Defined.

Lemma registrationsToTry_complete_witness :
  exists r, In r (registrationsToTry "Miriam Hospital" None sampleOptions) /\
            value r = "13".
Proof.
  apply (@registrationsToTry_complete "Miriam Hospital" None sampleOptions
           {| value := "13"; text := "Miriam Hospital"; title := ""; selected := false |}).
  - vm_compute. right. right. left. reflexivity.
  - vm_compute. reflexivity.
Defined.

End Capture.

(** * The notification mail ([EmailSender])

    The time zone under which the mail prints the event's times. *)
Module EmailSender.
Import Js.

Definition upper_char (c : ascii) : ascii :=
  if is_lower c then ascii_of_nat (code c - 32) else c.

Fixpoint toUpperCase (s : string) : string :=
  match s with
  | EmptyString => EmptyString
  | String c s' => String (upper_char c) (toUpperCase s')
  end.

Definition tzMap : list (string * string) :=
  [ ("EDT", "America/New_York"); ("EST", "America/New_York");
    ("CDT", "America/Chicago"); ("CST", "America/Chicago");
    ("MDT", "America/Denver"); ("MST", "America/Denver");
    ("PDT", "America/Los_Angeles"); ("PST", "America/Los_Angeles") ].

(** [tzMap[key]] *)
Fixpoint lookup (key : string) (m : list (string * string)) : option string :=
  match m with
  | [] => None
  | (k, v) :: m' => if String.eqb k key then Some v else lookup key m'
  end.

Definition normalizeTimezone (tz : option string) : string :=
  match tz with
  | Some (String c t) => or_else (lookup (toUpperCase (String c t)) tzMap) (String c t)
  | _ => "America/New_York"
  end.

Definition zones : list string :=
  ["America/New_York"; "America/Chicago"; "America/Denver"; "America/Los_Angeles"].

Lemma lookup_zones (key z : string) : lookup key tzMap = Some z -> In z zones.
Proof.
  unfold tzMap. cbn [lookup].
  repeat match goal with
         | |- context [String.eqb ?k key] => destruct (String.eqb k key)
         end;
    intros [= <-]; cbn; auto 10.
Qed.

Lemma zones_fixed (z : string) :
  In z zones -> normalizeTimezone (Some z) = z /\ z <> "".
Proof.
  intros [<-|[<-|[<-|[<-|[]]]]]; (split; [vm_compute; reflexivity | discriminate]).
Qed.

(** X23.  The zone is never empty; a name that is no known abbreviation is kept;
    and normalising twice changes nothing: every abbreviation, in whatever
    letter case, goes to a name that stands for itself. *)
Theorem normalizeTimezone_idempotent (tz : option string) :
  normalizeTimezone tz <> "" /\
  normalizeTimezone (Some (normalizeTimezone tz)) = normalizeTimezone tz /\
  (forall t, tz = Some t -> lookup (toUpperCase t) tzMap = None -> t <> "" ->
             normalizeTimezone tz = t).
Proof.
  assert (Hny : In "America/New_York" zones) by (cbn; auto).
  destruct tz as [[|c t]|].
  - cbn [normalizeTimezone]. destruct (zones_fixed Hny) as [H1 H2].
    split; [exact H2|]. split; [exact H1|]. intros t [= <-] _ H. now contradiction H.
  - assert (Heq : normalizeTimezone (Some (String c t)) =
                  or_else (lookup (toUpperCase (String c t)) tzMap) (String c t))
      by reflexivity.
    destruct (lookup (toUpperCase (String c t)) tzMap) as [z|] eqn:E.
    + pose proof (lookup_zones _ E) as Hz. destruct (zones_fixed Hz) as [H1 H2].
      assert (Hor : or_else (Some z) (String c t) = z).
      { destruct z; [now contradiction H2 | reflexivity]. }
      rewrite Hor in Heq. rewrite Heq. split; [exact H2|]. split; [exact H1|].
      intros t0 [= <-] E0. rewrite E in E0. discriminate.
    + cbn [or_else] in Heq. rewrite Heq. split; [discriminate|]. split.
      * exact Heq.
      * intros t0 [= <-] _ _. reflexivity.
  - cbn [normalizeTimezone]. destruct (zones_fixed Hny) as [H1 H2].
    split; [exact H2|]. split; [exact H1|]. intros t [=].
Qed.

End EmailSender.
